(** * Carotid IMT segmentation service: the U-Net and its request pipeline

    A shallow embedding of [src/api/main.py].  The network modules
    ([DoubleConv], [EncoderBlock], [DecoderBlock], [UNet]) are written once,
    over an interface of the tensor primitives they call; the interface is
    instantiated with tensor shapes to reason about the layer topology.
    Images are 8-bit rasters, and the request handlers are state transformers
    on the loaded model. *)

From Stdlib Require Import ZArith QArith Qreals Reals List String Bool Lia Lra
  Psatz.
Import ListNotations.

Local Open Scope string_scope.
Local Open Scope Z_scope.

Set Implicit Arguments.

(** ** Exceptions and module state *)

(** A Python computation either returns a value or raises; [Raise] carries
    [str(e)], the only part of an exception the handlers look at. *)
Inductive exc (A : Type) : Type :=
| Ok (a : A)
| Raise (e : string).

Arguments Ok {A} a.
Arguments Raise {A} e.

(** A method of a module whose attributes may be written in place: the
    attributes go in and come out, also when the call raises. *)
Definition M (S A : Type) : Type := S -> exc A * S.

Definition ret {S A} (a : A) : M S A := fun s => (Ok a, s).

Definition bind {S A B} (m : M S A) (k : A -> M S B) : M S B :=
  fun s =>
    match m s with
    | (Ok a, s') => k a s'
    | (Raise e, s') => (Raise e, s')
    end.

(** A call of a library function, which touches no module attribute. *)
Definition call {S A} (r : exc A) : M S A := fun s => (r, s).

(** A call of a submodule: it works on the attribute [get s] and the result
    of its writes is stored back with [set]. *)
Definition sub {S T A} (get : S -> T) (set : S -> T -> S) (m : M T A) : M S A :=
  fun s => let (r, t) := m (get s) in (r, set s t).

Declare Scope py_scope.
Delimit Scope py_scope with py.
Notation "x <- m ;; k" := (bind m (fun x => k))
  (at level 61, m at next level, right associativity) : py_scope.
Local Open Scope py_scope.

Definition exc_bind {A B} (r : exc A) (k : A -> exc B) : exc B :=
  match r with
  | Ok a => k a
  | Raise e => Raise e
  end.

(** ** Integer helpers *)

(** [x.size(i)]: an [IndexError] out of range. *)
Definition size_at (s : list Z) (i : nat) : exc Z :=
  match nth_error s i with
  | Some d => Ok d
  | None => Raise "IndexError: Dimension out of range"
  end.

(** [x.shape[-2:]]: slicing never raises. *)
Definition last2 (s : list Z) : list Z := skipn (List.length s - 2)%nat s.

Definition list_Z_eqb (a b : list Z) : bool :=
  if list_eq_dec Z.eq_dec a b then true else false.

(** ** The tensor primitives

    What the modules ask of [torch]: the shape of a tensor, fresh parameter
    storage, and the functional forms of the layers.  Every layer may raise
    (a [RuntimeError] on a shape it does not accept).  Batch normalisation
    comes in its two modes: in evaluation mode it only reads the running
    statistics; in training mode it also returns their updated values. *)
Class Torch : Type := {
  tensor : Type;
  size : tensor -> list Z;
  empty : list Z -> tensor;
  conv2d : tensor -> tensor -> tensor -> Z -> exc tensor;
  batch_norm_eval : tensor -> tensor -> tensor -> tensor -> tensor -> Q -> exc tensor;
  batch_norm_train :
    tensor -> tensor -> tensor -> tensor -> tensor -> Q -> Q -> exc (tensor * (tensor * tensor));
  relu : tensor -> tensor;
  max_pool2d : tensor -> Z -> exc tensor;
  conv_transpose2d : tensor -> tensor -> tensor -> Z -> exc tensor;
  pad : tensor -> list Z -> exc tensor;
  cat : list tensor -> Z -> exc tensor
}.

(** ** torch.nn layers *)

Module Conv2d.
Section Defs.
Context {T : Torch}.

Record t : Type := mk {
  in_channels : Z;
  out_channels : Z;
  kernel_size : Z;
  padding : Z;
  weight : tensor;
  bias : tensor
}.

(** [torch.nn.Conv2d(in_channels, out_channels, kernel_size, padding)] *)
Definition init (cin cout k p : Z) : t :=
  mk cin cout k p (empty [cout; cin; k; k]) (empty [cout]).

Definition forward (x : tensor) : M t tensor :=
  fun self => (conv2d x (weight self) (bias self) (padding self), self).
End Defs.
End Conv2d.

Module ConvTranspose2d.
Section Defs.
Context {T : Torch}.

Record t : Type := mk {
  in_channels : Z;
  out_channels : Z;
  kernel_size : Z;
  stride : Z;
  weight : tensor;
  bias : tensor
}.

(** [torch.nn.ConvTranspose2d(in_channels, out_channels, kernel_size, stride)]:
    the weight is laid out input channels first. *)
Definition init (cin cout k s : Z) : t :=
  mk cin cout k s (empty [cin; cout; k; k]) (empty [cout]).

Definition forward (x : tensor) : M t tensor :=
  fun self => (conv_transpose2d x (weight self) (bias self) (stride self), self).
End Defs.
End ConvTranspose2d.

Module BatchNorm2d.
Section Defs.
Context {T : Torch}.

Record t : Type := mk {
  num_features : Z;
  eps : Q;
  momentum : Q;
  weight : tensor;
  bias : tensor;
  running_mean : tensor;
  running_var : tensor;
  num_batches_tracked : Z;
  training : bool
}.

(** [torch.nn.BatchNorm2d(num_features)]: eps 1e-5, momentum 0.1, and a
    new module is in training mode. *)
Definition init (c : Z) : t :=
  mk c (1 # 100000) (1 # 10) (empty [c]) (empty [c]) (empty [c]) (empty [c]) 0 true.

(** In training mode the call counts the batch and replaces the running
    statistics; in evaluation mode it writes nothing. *)
Definition forward (x : tensor) : M t tensor :=
  fun self =>
    if training self then
      let self1 :=
        mk (num_features self) (eps self) (momentum self) (weight self) (bias self)
           (running_mean self) (running_var self)
           (num_batches_tracked self + 1) true in
      match batch_norm_train x (running_mean self) (running_var self)
              (weight self) (bias self) (momentum self) (eps self) with
      | Ok (y, (rm, rv)) =>
          (Ok y,
           mk (num_features self) (eps self) (momentum self) (weight self) (bias self)
              rm rv (num_batches_tracked self + 1) true)
      | Raise e => (Raise e, self1)
      end
    else
      (batch_norm_eval x (running_mean self) (running_var self)
         (weight self) (bias self) (eps self), self).

(** [module.eval()] *)
Definition eval (self : t) : t :=
  mk (num_features self) (eps self) (momentum self) (weight self) (bias self)
     (running_mean self) (running_var self) (num_batches_tracked self) false.
End Defs.
End BatchNorm2d.


Module MaxPool2d.
Record t : Type := mk { kernel_size : Z }.

(** [torch.nn.MaxPool2d(kernel_size)]: the stride defaults to the kernel size. *)
Definition init (k : Z) : t := mk k.

Definition forward {T : Torch} (x : tensor) : M t tensor :=
  fun self => (max_pool2d x (kernel_size self), self).
End MaxPool2d.

(** ** U-Net model definition *)

Module DoubleConv.
Section Defs.
Context {T : Torch}.

(** The attribute [double_conv] is a [Sequential] of six layers; the fields
    are numbered as in it, 2 and 5 being the two [ReLU(inplace=True)]. *)
Record t : Type := mk {
  conv_0 : Conv2d.t;
  bn_1 : BatchNorm2d.t;
  conv_3 : Conv2d.t;
  bn_4 : BatchNorm2d.t
}.

Definition init (in_channels out_channels : Z) : t :=
  mk (Conv2d.init in_channels out_channels 3 1)
     (BatchNorm2d.init out_channels)
     (Conv2d.init out_channels out_channels 3 1)
     (BatchNorm2d.init out_channels).

Definition set_conv_0 (s : t) (c : Conv2d.t) : t := mk c (bn_1 s) (conv_3 s) (bn_4 s).
Definition set_bn_1 (s : t) (b : BatchNorm2d.t) : t := mk (conv_0 s) b (conv_3 s) (bn_4 s).
Definition set_conv_3 (s : t) (c : Conv2d.t) : t := mk (conv_0 s) (bn_1 s) c (bn_4 s).
Definition set_bn_4 (s : t) (b : BatchNorm2d.t) : t := mk (conv_0 s) (bn_1 s) (conv_3 s) b.

Definition forward (x : tensor) : M t tensor :=
  x <- sub conv_0 set_conv_0 (Conv2d.forward x) ;;
  x <- sub bn_1 set_bn_1 (BatchNorm2d.forward x) ;;
  x <- ret (relu x) ;;
  x <- sub conv_3 set_conv_3 (Conv2d.forward x) ;;
  x <- sub bn_4 set_bn_4 (BatchNorm2d.forward x) ;;
  ret (relu x).

Definition eval (self : t) : t :=
  mk (conv_0 self) (BatchNorm2d.eval (bn_1 self))
     (conv_3 self) (BatchNorm2d.eval (bn_4 self)).

Definition training (self : t) : bool :=
  BatchNorm2d.training (bn_1 self) || BatchNorm2d.training (bn_4 self).
End Defs.
End DoubleConv.

Module EncoderBlock.
Section Defs.
Context {T : Torch}.

Record t : Type := mk {
  maxpool : MaxPool2d.t;
  double_conv : DoubleConv.t
}.

Definition init (in_channels out_channels : Z) : t :=
  mk (MaxPool2d.init 2) (DoubleConv.init in_channels out_channels).

Definition set_maxpool (s : t) (m : MaxPool2d.t) : t := mk m (double_conv s).
Definition set_double_conv (s : t) (d : DoubleConv.t) : t := mk (maxpool s) d.

Definition forward (x : tensor) : M t tensor :=
  x <- sub maxpool set_maxpool (MaxPool2d.forward x) ;;
  x <- sub double_conv set_double_conv (DoubleConv.forward x) ;;
  ret x.

Definition eval (self : t) : t :=
  mk (maxpool self) (DoubleConv.eval (double_conv self)).

Definition training (self : t) : bool := DoubleConv.training (double_conv self).
End Defs.
End EncoderBlock.

Module DecoderBlock.
Section Defs.
Context {T : Torch}.

Record t : Type := mk {
  up : ConvTranspose2d.t;
  double_conv : DoubleConv.t
}.

(** The DoubleConv takes [in_channels]: the [out_channels] of the upsampled
    tensor together with the channels of the skip. *)
Definition init (in_channels out_channels : Z) : t :=
  mk (ConvTranspose2d.init in_channels out_channels 2 2)
     (DoubleConv.init in_channels out_channels).

Definition set_up (s : t) (u : ConvTranspose2d.t) : t := mk u (double_conv s).
Definition set_double_conv (s : t) (d : DoubleConv.t) : t := mk (up s) d.

(** The list handed to [torch.nn.functional.pad] for the differences
    [diff_x], [diff_y]: left, right, top, bottom.  Python's [//] on integers
    rounds down, as [Z.div] by 2 does. *)
Definition pad_widths (diff_x diff_y : Z) : list Z :=
  [diff_x / 2; diff_x - diff_x / 2; diff_y / 2; diff_y - diff_y / 2].

(** Lines 45 to 48: the reconciliation of the sizes. *)
Definition reconcile (x skip : tensor) : exc tensor :=
  if negb (list_Z_eqb (last2 (size x)) (last2 (size skip))) then
    exc_bind (size_at (size skip) 2) (fun sy =>
    exc_bind (size_at (size x) 2) (fun xy =>
    let diff_y := sy - xy in
    exc_bind (size_at (size skip) 3) (fun sx =>
    exc_bind (size_at (size x) 3) (fun xx =>
    let diff_x := sx - xx in
    pad x (pad_widths diff_x diff_y)))))
  else Ok x.

Definition forward (x skip : tensor) : M t tensor :=
  x <- sub up set_up (ConvTranspose2d.forward x) ;;
  x <- call (reconcile x skip) ;;
  x <- call (cat [skip; x] 1) ;;
  sub double_conv set_double_conv (DoubleConv.forward x).

Definition eval (self : t) : t :=
  mk (up self) (DoubleConv.eval (double_conv self)).

Definition training (self : t) : bool := DoubleConv.training (double_conv self).
End Defs.
End DecoderBlock.

Module UNet.
Section Defs.
Context {T : Torch}.

Record t : Type := mk {
  inc : DoubleConv.t;
  down1 : EncoderBlock.t;
  down2 : EncoderBlock.t;
  down3 : EncoderBlock.t;
  down4 : EncoderBlock.t;
  up1 : DecoderBlock.t;
  up2 : DecoderBlock.t;
  up3 : DecoderBlock.t;
  up4 : DecoderBlock.t;
  outc : Conv2d.t
}.

Definition init (in_channels out_channels base_channels : Z) : t :=
  mk (DoubleConv.init in_channels base_channels)
     (EncoderBlock.init base_channels (base_channels * 2))
     (EncoderBlock.init (base_channels * 2) (base_channels * 4))
     (EncoderBlock.init (base_channels * 4) (base_channels * 8))
     (EncoderBlock.init (base_channels * 8) (base_channels * 16))
     (DecoderBlock.init (base_channels * 16) (base_channels * 8))
     (DecoderBlock.init (base_channels * 8) (base_channels * 4))
     (DecoderBlock.init (base_channels * 4) (base_channels * 2))
     (DecoderBlock.init (base_channels * 2) base_channels)
     (Conv2d.init base_channels out_channels 1 0).

Definition set_inc (s : t) (v : DoubleConv.t) : t :=
  mk v (down1 s) (down2 s) (down3 s) (down4 s) (up1 s) (up2 s) (up3 s) (up4 s) (outc s).
Definition set_down1 (s : t) (v : EncoderBlock.t) : t :=
  mk (inc s) v (down2 s) (down3 s) (down4 s) (up1 s) (up2 s) (up3 s) (up4 s) (outc s).
Definition set_down2 (s : t) (v : EncoderBlock.t) : t :=
  mk (inc s) (down1 s) v (down3 s) (down4 s) (up1 s) (up2 s) (up3 s) (up4 s) (outc s).
Definition set_down3 (s : t) (v : EncoderBlock.t) : t :=
  mk (inc s) (down1 s) (down2 s) v (down4 s) (up1 s) (up2 s) (up3 s) (up4 s) (outc s).
Definition set_down4 (s : t) (v : EncoderBlock.t) : t :=
  mk (inc s) (down1 s) (down2 s) (down3 s) v (up1 s) (up2 s) (up3 s) (up4 s) (outc s).
Definition set_up1 (s : t) (v : DecoderBlock.t) : t :=
  mk (inc s) (down1 s) (down2 s) (down3 s) (down4 s) v (up2 s) (up3 s) (up4 s) (outc s).
Definition set_up2 (s : t) (v : DecoderBlock.t) : t :=
  mk (inc s) (down1 s) (down2 s) (down3 s) (down4 s) (up1 s) v (up3 s) (up4 s) (outc s).
Definition set_up3 (s : t) (v : DecoderBlock.t) : t :=
  mk (inc s) (down1 s) (down2 s) (down3 s) (down4 s) (up1 s) (up2 s) v (up4 s) (outc s).
Definition set_up4 (s : t) (v : DecoderBlock.t) : t :=
  mk (inc s) (down1 s) (down2 s) (down3 s) (down4 s) (up1 s) (up2 s) (up3 s) v (outc s).
Definition set_outc (s : t) (v : Conv2d.t) : t :=
  mk (inc s) (down1 s) (down2 s) (down3 s) (down4 s) (up1 s) (up2 s) (up3 s) (up4 s) v.

Definition forward (x : tensor) : M t tensor :=
  x1 <- sub inc set_inc (DoubleConv.forward x) ;;
  x2 <- sub down1 set_down1 (EncoderBlock.forward x1) ;;
  x3 <- sub down2 set_down2 (EncoderBlock.forward x2) ;;
  x4 <- sub down3 set_down3 (EncoderBlock.forward x3) ;;
  x5 <- sub down4 set_down4 (EncoderBlock.forward x4) ;;
  x <- sub up1 set_up1 (DecoderBlock.forward x5 x4) ;;
  x <- sub up2 set_up2 (DecoderBlock.forward x x3) ;;
  x <- sub up3 set_up3 (DecoderBlock.forward x x2) ;;
  x <- sub up4 set_up4 (DecoderBlock.forward x x1) ;;
  sub outc set_outc (Conv2d.forward x).

(** [model.eval()]: every submodule leaves training mode. *)
Definition eval (self : t) : t :=
  mk (DoubleConv.eval (inc self))
     (EncoderBlock.eval (down1 self)) (EncoderBlock.eval (down2 self))
     (EncoderBlock.eval (down3 self)) (EncoderBlock.eval (down4 self))
     (DecoderBlock.eval (up1 self)) (DecoderBlock.eval (up2 self))
     (DecoderBlock.eval (up3 self)) (DecoderBlock.eval (up4 self))
     (outc self).

(** Some batch normalisation of the model is in training mode. *)
Definition training (self : t) : bool :=
  DoubleConv.training (inc self)
  || EncoderBlock.training (down1 self) || EncoderBlock.training (down2 self)
  || EncoderBlock.training (down3 self) || EncoderBlock.training (down4 self)
  || DecoderBlock.training (up1 self) || DecoderBlock.training (up2 self)
  || DecoderBlock.training (up3 self) || DecoderBlock.training (up4 self).
End Defs.
End UNet.

(** ** The primitives on shapes

    The instance of the interface in which a tensor is its shape: each
    primitive accepts and returns what [torch] documents for it and raises
    where [torch] raises.  Running the model in it type-checks the topology. *)

Module Shape.

Definition t : Type := list Z.

(** [F.conv2d], stride 1: the input is (N, C, H, W), the weight
    (C_out, C_in, kH, kW), and H_out = H + 2 * padding - kH + 1. *)
Definition conv2d (x w b : t) (p : Z) : exc t :=
  match x, w, b with
  | [n; c; h; wd], [co; ci; kh; kw], [cb] =>
      if negb (c =? ci) then
        Raise "RuntimeError: input channels do not match the weight"
      else if negb (cb =? co) then
        Raise "RuntimeError: bias does not match the weight"
      else if (h + 2 * p - kh + 1 <=? 0) || (wd + 2 * p - kw + 1 <=? 0) then
        Raise "RuntimeError: Kernel size can't be greater than actual input size"
      else Ok [n; co; h + 2 * p - kh + 1; wd + 2 * p - kw + 1]
  | _, _, _ => Raise "RuntimeError: Expected 4D input to conv2d"
  end.

Definition stats_match (c : Z) (rm rv w b : t) : bool :=
  list_Z_eqb rm [c] && list_Z_eqb rv [c] && list_Z_eqb w [c] && list_Z_eqb b [c].

(** [F.batch_norm(..., training=False)]: the shape is kept. *)
Definition batch_norm_eval (x rm rv w b : t) (eps : Q) : exc t :=
  match x with
  | [n; c; h; wd] =>
      if stats_match c rm rv w b then Ok x
      else Raise "RuntimeError: running statistics do not match the input channels"
  | _ => Raise "ValueError: expected 4D input"
  end.

(** [F.batch_norm(..., training=True)] refuses exactly one value per channel. *)
Definition batch_norm_train (x rm rv w b : t) (momentum eps : Q) : exc (t * (t * t)) :=
  match x with
  | [n; c; h; wd] =>
      if negb (stats_match c rm rv w b) then
        Raise "RuntimeError: running statistics do not match the input channels"
      else if n * h * wd =? 1 then
        Raise "ValueError: Expected more than 1 value per channel when training"
      else Ok (x, (rm, rv))
  | _ => Raise "ValueError: expected 4D input"
  end.

(** [F.max_pool2d(x, k)], stride k: H_out = floor((H - k) / k) + 1. *)
Definition max_pool2d (x : t) (k : Z) : exc t :=
  match x with
  | [n; c; h; wd] =>
      if k <=? 0 then Raise "RuntimeError: kernel size should be greater than zero"
      else if ((h - k) / k + 1 <=? 0) || ((wd - k) / k + 1 <=? 0) then
        Raise "RuntimeError: Output size is too small"
      else Ok [n; c; (h - k) / k + 1; (wd - k) / k + 1]
  | _ => Raise "RuntimeError: Expected 4D input to max_pool2d"
  end.

(** [F.conv_transpose2d], no padding: the weight is (C_in, C_out, kH, kW) and
    H_out = (H - 1) * stride + kH. *)
Definition conv_transpose2d (x w b : t) (s : Z) : exc t :=
  match x, w, b with
  | [n; c; h; wd], [ci; co; kh; kw], [cb] =>
      if negb (c =? ci) then
        Raise "RuntimeError: input channels do not match the weight"
      else if negb (cb =? co) then
        Raise "RuntimeError: bias does not match the weight"
      else Ok [n; co; (h - 1) * s + kh; (wd - 1) * s + kw]
  | _, _, _ => Raise "RuntimeError: Expected 4D input to conv_transpose2d"
  end.

(** [F.pad(x, pads)], constant zero padding: the pairs of [pads] widen the
    dimensions from the last one backwards (here given last dimension
    first); a negative width crops.  A dimension that does not stay positive
    is refused. *)
Fixpoint pad_rev (rdims pads : list Z) : exc (list Z) :=
  match pads with
  | [] => Ok rdims
  | lo :: hi :: pads' =>
      match rdims with
      | d :: rdims' =>
          if d + lo + hi <=? 0 then
            Raise "RuntimeError: negative padding resulted in a negative output size"
          else exc_bind (pad_rev rdims' pads') (fun r => Ok (d + lo + hi :: r))
      | [] => Raise "RuntimeError: Padding length too large"
      end
  | [_] => Raise "RuntimeError: Padding length must be divisible by 2"
  end.

Definition pad (x : t) (pads : list Z) : exc t :=
  exc_bind (pad_rev (rev x) pads) (fun r => Ok (rev r)).

(** [torch.cat] of two shapes along [dim]: all other sizes must agree. *)
Fixpoint cat2 (a b : t) (dim : nat) : exc t :=
  match a, b with
  | x :: a', y :: b' =>
      match dim with
      | O =>
          if list_Z_eqb a' b' then Ok (x + y :: a')
          else Raise "RuntimeError: Sizes of tensors must match except in the cat dimension"
      | S d =>
          if x =? y then exc_bind (cat2 a' b' d) (fun r => Ok (x :: r))
          else Raise "RuntimeError: Sizes of tensors must match except in the cat dimension"
      end
  | _, _ => Raise "IndexError: Dimension out of range"
  end.

Definition cat (xs : list t) (dim : Z) : exc t :=
  match xs with
  | [] => Raise "RuntimeError: torch.cat(): expected a non-empty list of Tensors"
  | x :: rest =>
      if dim <? 0 then Raise "IndexError: Dimension out of range"
      else fold_left (fun acc y => exc_bind acc (fun a => cat2 a y (Z.to_nat dim))) rest (Ok x)
  end.

End Shape.

#[export] Instance ShapeTorch : Torch := {|
  tensor := Shape.t;
  size := fun x => x;
  empty := fun s => s;
  conv2d := Shape.conv2d;
  batch_norm_eval := Shape.batch_norm_eval;
  batch_norm_train := Shape.batch_norm_train;
  relu := fun x => x;
  max_pool2d := Shape.max_pool2d;
  conv_transpose2d := Shape.conv_transpose2d;
  pad := Shape.pad;
  cat := Shape.cat
|}.

(** The model the service holds once it is up: the constructor of line 88
    followed by [model.eval()] of line 94 (loading the state dictionary
    replaces the contents of the parameters, not their shapes). *)
Definition served_shapes (base_channels : Z) : UNet.t (T := ShapeTorch) :=
  UNet.eval (UNet.init 3 1 base_channels).

(** ** Floating-point values

    The arithmetic of tensor elements is an interface: the conversion of an
    integer, the value of a decimal literal, and the operations the pipeline
    applies.  Nothing is assumed of it, so what is proved over it holds of
    any rounding. *)
Class Arith : Type := {
  F : Type;
  of_Z : Z -> F;
  of_Q : Q -> F;
  fsub : F -> F -> F;
  fdiv : F -> F -> F
}.

(** [torch.sigmoid] on one element, and the comparison [a > b]. *)
Class Activation (A : Arith) : Type := {
  sigmoid : F -> F;
  fgtb : F -> F -> bool
}.

(** Exact rationals: arithmetic that runs. *)
#[export] Instance QArith_ops : Arith := {|
  F := Q;
  of_Z := inject_Z;
  of_Q := fun q => q;
  fsub := Qminus;
  fdiv := Qdiv
|}.

(** Real numbers: the arithmetic before rounding. *)
#[export] Instance RArith_ops : Arith := {|
  F := R;
  of_Z := IZR;
  of_Q := Q2R;
  fsub := Rminus;
  fdiv := Rdiv
|}.

(** Floating-point arithmetic: every operation returns the rounding of its
    exact result.  [rnd] rounds to the format of the tensors (binary32 in
    the service) and [dbl] to that of a Python float, in which the decimal
    literals of the configuration are read before they are converted. *)
Definition Rounded_ops (rnd dbl : R -> R) : Arith := {|
  F := R;
  of_Z := fun z => rnd (IZR z);
  of_Q := fun q => rnd (dbl (Q2R q));
  fsub := fun a b => rnd (a - b)%R;
  fdiv := fun a b => rnd (a / b)%R
|}.

(** What is used of rounding to nearest in a binary format of precision
    [p] bits, least exponent [emin] and greatest exponent [emax]: it is
    monotone, it leaves the integers of up to [p] bits alone, and up to
    2 ^ emax it is off by at most half a unit in the last place. *)
Record rounds_to_nearest (p emin emax : Z) (rnd : R -> R) : Prop := {
  rnd_monotone : forall x y : R, (x <= y)%R -> (rnd x <= rnd y)%R;
  rnd_integer : forall z : Z, Z.abs z <= 2 ^ p -> rnd (IZR z) = IZR z;
  rnd_error :
    forall x : R,
      (Rabs x <= IZR (2 ^ emax))%R ->
      (Rabs (rnd x - x) <= Rabs x / IZR (2 ^ p) + / IZR (2 ^ (1 - emin)))%R
}.

Definition binary32 : (R -> R) -> Prop := rounds_to_nearest 24 (-149) 127.
Definition binary64 : (R -> R) -> Prop := rounds_to_nearest 53 (-1074) 1023.

(** The logistic function. *)
Definition Rsigmoid (x : R) : R := (1 / (1 + exp (- x)))%R.

Definition Rgtb (a b : R) : bool := if Rlt_dec b a then true else false.

#[export] Instance RActivation : Activation RArith_ops := {|
  sigmoid := Rsigmoid;
  fgtb := Rgtb
|}.

(** A buffer with its shape, row-major: a tensor moved to the host, or a
    numpy array. *)
Record nd (A : Type) : Type := mk_nd {
  shape : list Z;
  data : list A
}.

Arguments mk_nd {A} shape data.

Definition nd_map {A B} (f : A -> B) (t : nd A) : nd B :=
  mk_nd (shape t) (map f (data t)).

(** [t.unsqueeze(0)] *)
Definition unsqueeze0 {A} (t : nd A) : nd A := mk_nd (1 :: shape t) (data t).

(** [t.squeeze()]: every dimension of size one is dropped. *)
Definition squeeze {A} (t : nd A) : nd A :=
  mk_nd (filter (fun d => negb (d =? 1)) (shape t)) (data t).

(** [k] consecutive chunks of [n] elements. *)
Fixpoint chunks {A} (n k : nat) (l : list A) : list (list A) :=
  match k with
  | O => []
  | S k' => firstn n l :: chunks n k' (skipn n l)
  end.

Definition range (n : Z) : list Z := map Z.of_nat (seq 0 (Z.to_nat n)).

(** ** Pillow: 8-bit rasters *)

Module PIL.

Definition rgb : Type := (Z * Z * Z)%type.
Definition rgba : Type := (Z * Z * Z * Z)%type.

(** An image is the list of its rows; the mode is the type of the pixels
    ([Z] for mode L). *)
Definition raster (P : Type) : Type := list (list P).

Definition height {P} (im : raster P) : Z := Z.of_nat (List.length im).

Definition width {P} (im : raster P) : Z :=
  match im with
  | [] => 0
  | row :: _ => Z.of_nat (List.length row)
  end.

(** [im.size] is (width, height). *)
Definition size {P} (im : raster P) : Z * Z := (width im, height im).

Definition same_size {P1 P2} (a : raster P1) (b : raster P2) : bool :=
  (width a =? width b) && (height a =? height b).

Definition band_R (p : rgb) : Z := fst (fst p).
Definition band_G (p : rgb) : Z := snd (fst p).
Definition band_B (p : rgb) : Z := snd p.

Definition byte (v : Z) : Prop := 0 <= v <= 255.

Definition byte_rgb (p : rgb) : Prop :=
  byte (band_R p) /\ byte (band_G p) /\ byte (band_B p).

(** A decoded RGB image: at least one pixel, rows of one length, bytes. *)
Definition valid_image (im : raster rgb) : Prop :=
  0 < height im /\ 0 < width im
  /\ Forall (fun row => Z.of_nat (List.length row) = width im) im
  /\ Forall (Forall byte_rgb) im.

(** *** Resampling (Resample.c)

    The coefficients are computed in double precision there and in exact
    rationals here. *)

Definition Qltb (a b : Q) : bool := negb (Qle_bool b a).

(** The cast of a double to int truncates towards zero. *)
Definition trunc (q : Q) : Z := Z.quot (Qnum q) (Z.pos (Qden q)).

Definition bilinear_filter (x : Q) : Q :=
  let x := if Qltb x 0 then (- x)%Q else x in
  if Qltb x 1 then (1 - x)%Q else 0%Q.

Definition PRECISION_BITS : Z := 32 - 8 - 2.

(** [precompute_coeffs] for the output index [xx]: the first input index
    and the normalised weights of the window. *)
Definition precompute_coeffs (inSize outSize xx : Z) : Z * list Q :=
  let scale := (inject_Z inSize / inject_Z outSize)%Q in
  let filterscale := if Qltb scale 1 then 1%Q else scale in
  let support := (1 * filterscale)%Q in
  let center := ((inject_Z xx + (1 # 2)) * scale)%Q in
  let ss := (1 / filterscale)%Q in
  let xmin := Z.max 0 (trunc (center - support + (1 # 2))) in
  let xmax := Z.min inSize (trunc (center + support + (1 # 2))) - xmin in
  let k :=
    map (fun x => bilinear_filter ((inject_Z (x + xmin) - center + (1 # 2)) * ss))
        (range xmax) in
  let ww := fold_left Qplus k 0%Q in
  (xmin, map (fun w => if Qeq_bool ww 0 then w else Qred (w / ww)) k).

(** [normalize_coeffs_8bpc]: fixed point, rounded to nearest. *)
Definition normalize_coeffs_8bpc (prekk : list Q) : list Z :=
  map (fun q =>
         if Qltb q 0 then trunc (- (1 # 2) + q * inject_Z (Z.shiftl 1 PRECISION_BITS))
         else trunc ((1 # 2) + q * inject_Z (Z.shiftl 1 PRECISION_BITS)))
      prekk.

Definition coeffs (inSize outSize : Z) : list (Z * list Z) :=
  map (fun xx =>
         let (xmin, k) := precompute_coeffs inSize outSize xx in
         (xmin, normalize_coeffs_8bpc k))
      (range outSize).

Definition clip8 (v : Z) : Z := Z.max 0 (Z.min 255 (Z.shiftr v PRECISION_BITS)).

(** One output band value: the weighted sum over the window, started at
    one half in fixed point. *)
Definition accumulate (band : rgb -> Z) (win : list rgb) (k : list Z) : Z :=
  fold_left (fun ss pk => ss + band (fst pk) * snd pk) (combine win k)
            (Z.shiftl 1 (PRECISION_BITS - 1)).

Definition resample_pixel (win : list rgb) (k : list Z) : rgb :=
  (clip8 (accumulate band_R win k),
   clip8 (accumulate band_G win k),
   clip8 (accumulate band_B win k)).

Definition window {A} (xmin : Z) (k : list Z) (l : list A) : list A :=
  firstn (List.length k) (skipn (Z.to_nat xmin) l).

Definition ResampleHorizontal (kk : list (Z * list Z)) (im : raster rgb) : raster rgb :=
  map (fun row => map (fun b => resample_pixel (window (fst b) (snd b) row) (snd b)) kk) im.

Definition ResampleVertical (kk : list (Z * list Z)) (im : raster rgb) : raster rgb :=
  map (fun b =>
         map (fun x =>
                resample_pixel
                  (map (fun row => nth x row (0, 0, 0)) (window (fst b) (snd b) im))
                  (snd b))
             (seq 0 (Z.to_nat (width im))))
      kk.

(** Which of the two passes runs first is the choice of the library, made
    from the size of the image and the size asked for.  Releases differ:
    the horizontal pass came first for a long time, and recent releases run
    the vertical one first for some sizes.  The intermediate image is
    rounded to bytes, so the order shows in the result; it is a parameter of
    the model, and what is proved of [resize] is proved for every choice. *)
Class Resample : Type := {
  vertical_first : Z * Z -> Z * Z -> bool
}.

(** [im.resize((xsize, ysize), Image.BILINEAR)] on an RGB image: a copy when
    the size is already the requested one, otherwise the two passes over
    the coefficients computed from the sizes of the image, each only if its
    axis changes. *)
Definition resize {P : Resample} (im : raster rgb) (sz : Z * Z) : raster rgb :=
  let (xsize, ysize) := sz in
  if (width im =? xsize) && (height im =? ysize) then im
  else
    let horizontal (imIn : raster rgb) :=
      if negb (xsize =? width im) then ResampleHorizontal (coeffs (width im) xsize) imIn
      else imIn in
    let vertical (imIn : raster rgb) :=
      if negb (ysize =? height im) then ResampleVertical (coeffs (height im) ysize) imIn
      else imIn in
    if vertical_first (size im) sz then horizontal (vertical im)
    else vertical (horizontal im).

(** [Image.fromarray(a, mode)] with mode L: a two-dimensional array of bytes. *)
Definition fromarray_L (a : nd Z) : exc (raster Z) :=
  match shape a with
  | [h; w] => Ok (chunks (Z.to_nat w) (Z.to_nat h) (data a))
  | _ => Raise "ValueError: Too many dimensions or not enough for mode L"
  end.

(** [im.point(f)] on a mode L image. *)
Definition point (f : Z -> Z) (im : raster Z) : raster Z := map (map f) im.

(** [Image.new(RGBA, size, color)] *)
Definition new (sz : Z * Z) (color : rgba) : raster rgba :=
  repeat (repeat color (Z.to_nat (fst sz))) (Z.to_nat (snd sz)).

Definition set_alpha (p : rgba) (a : Z) : rgba :=
  let '(r, g, b, _) := p in (r, g, b, a).

(** [im.putalpha(alpha)] with a mode L image of the same size. *)
Definition putalpha (im : raster rgba) (alpha : raster Z) : exc (raster rgba) :=
  if same_size im alpha then
    Ok (map (fun ra => map (fun pa => set_alpha (fst pa) (snd pa)) (combine (fst ra) (snd ra)))
            (combine im alpha))
  else Raise "ValueError: images do not match".

(** [im.convert(RGBA)] of an RGB image: opaque. *)
Definition convert_RGBA (im : raster rgb) : raster rgba :=
  map (map (fun p : rgb => let '(r, g, b) := p in (r, g, b, 255))) im.

(** *** Compositing (AlphaComposite.c) *)

Definition SHIFTFORDIV255 (a : Z) : Z := Z.shiftr (Z.shiftr a 8 + a) 8.

(** One pixel of [ImagingAlphaComposite]: [src] over [dst], in 32-bit
    unsigned arithmetic with 7 extra bits of precision (on bytes no
    intermediate value reaches 2^32). *)
Definition composite_pixel (dst src : rgba) : rgba :=
  let '(dr, dg, db, da) := dst in
  let '(sr, sg, sb, sa) := src in
  if sa =? 0 then dst
  else
    let blend := da * (255 - sa) in
    let outa255 := sa * 255 + blend in
    let coef1 := sa * 255 * 255 * Z.shiftl 1 7 / outa255 in
    let coef2 := 255 * Z.shiftl 1 7 - coef1 in
    let tmpr := sr * coef1 + dr * coef2 in
    let tmpg := sg * coef1 + dg * coef2 in
    let tmpb := sb * coef1 + db * coef2 in
    (Z.shiftr (SHIFTFORDIV255 (tmpr + Z.shiftl 128 7)) 7,
     Z.shiftr (SHIFTFORDIV255 (tmpg + Z.shiftl 128 7)) 7,
     Z.shiftr (SHIFTFORDIV255 (tmpb + Z.shiftl 128 7)) 7,
     SHIFTFORDIV255 (outa255 + 128)).

(** [Image.alpha_composite(im1, im2)]: [im2] over [im1]. *)
Definition alpha_composite (im1 im2 : raster rgba) : exc (raster rgba) :=
  if same_size im1 im2 then
    Ok (map (fun rr => map (fun pp => composite_pixel (fst pp) (snd pp))
                           (combine (fst rr) (snd rr)))
            (combine im1 im2))
  else Raise "ValueError: images do not match".

End PIL.

(** ** torchvision transforms *)

(** The order of the releases that run the horizontal pass first. *)
#[export] Instance horizontal_first : PIL.Resample := {|
  PIL.vertical_first := fun _ _ => false
|}.

(** The opposite order. *)
Definition vertical_then_horizontal : PIL.Resample := {|
  PIL.vertical_first := fun _ _ => true
|}.

Module Transforms.
Section Defs.
Context {A : Arith} {P : PIL.Resample}.

(** [T.ToTensor()] on an RGB image: H x W x C bytes become a C x H x W
    tensor of floats, each byte divided by 255. *)
Definition to_tensor (pic : PIL.raster PIL.rgb) : nd F :=
  mk_nd [3; PIL.height pic; PIL.width pic]
        (flat_map (fun band : PIL.rgb -> Z =>
                     flat_map (map (fun p => fdiv (of_Z (band p)) (of_Z 255))) pic)
                  [PIL.band_R; PIL.band_G; PIL.band_B]).

(** [T.Normalize(mean, std)]: [tensor.sub_(mean).div_(std)], the statistics
    broadcast over each channel plane. *)
Definition normalize (mean std : list Q) (t : nd F) : exc (nd F) :=
  match shape t with
  | [c; h; w] =>
      if existsb (fun s => Qeq_bool s 0) std then
        Raise "ValueError: std evaluated to zero, leading to division by zero."
      else if negb ((Z.of_nat (List.length mean) =? c) && (Z.of_nat (List.length std) =? c)) then
        Raise "RuntimeError: The size of tensor a must match the size of tensor b"
      else
        Ok (mk_nd (shape t)
              (List.concat
                 (map (fun pms =>
                         map (fun v => fdiv (fsub v (of_Q (fst (snd pms)))) (of_Q (snd (snd pms))))
                             (fst pms))
                      (combine (chunks (Z.to_nat (h * w)) (Z.to_nat c) (data t))
                               (combine mean std)))))
  | _ => Raise "ValueError: Expected tensor to be a tensor image of size (C, H, W)"
  end.

(** [T.Resize((h, w))] on a PIL image: bilinear. *)
Definition resize (hw : Z * Z) (pic : PIL.raster PIL.rgb) : PIL.raster PIL.rgb :=
  PIL.resize pic (snd hw, fst hw).

End Defs.
End Transforms.

(** ** FastAPI application *)

(** Configuration (must match training) *)
Definition IMG_SIZE : Z := 128.
Definition IMG_MEAN : list Q := [0.485; 0.456; 0.406]%Q.
Definition IMG_STD : list Q := [0.229; 0.224; 0.225]%Q.

(** Moving a buffer to the device and back.  The elementwise steps the
    handlers apply on the device (sigmoid, comparison, squeeze) are applied
    here to the buffer read back. *)
Class Device (T : Torch) (A : Arith) : Type := {
  to_device : nd F -> tensor;
  cpu : tensor -> nd F
}.

(** The [file] parameter.  Starlette reads [content_type] from the headers
    of the part: it is [None] for a part that declares none. *)
Record UploadFile : Type := mk_file {
  filename : string;
  content_type : option string;
  contents : string
}.

(** What a handler hands to the framework: one of the three bodies, the
    [HTTPException] it raised, or another exception that left it, which
    the server answers with a bare 500.  A PNG body is the image it encodes
    (the format is lossless). *)
Inductive response : Type :=
| JSON (name : string) (predicted_mask_shape : list Z) (predicted_mask : nd Z)
| PNG_L (im : PIL.raster Z)
| PNG_RGBA (im : PIL.raster PIL.rgba)
| HTTPException (status_code : Z) (detail : string)
| Unhandled (e : string).

Module Api.
Section Defs.
Context {T : Torch} {A : Arith} {Act : Activation A} {D : Device T A}
        {P : PIL.Resample}.

(** [torch.load]: the state dictionary stored at a path; [is_file] tells the
    paths at which it finds a file, the others raise [FileNotFoundError]. *)
Variable state_dict : Type.
Variable is_file : string -> bool.
Variable torch_load : string -> exc state_dict.
(** [model.load_state_dict] *)
Variable load_state_dict : UNet.t -> state_dict -> exc UNet.t.
(** [Image.open(io.BytesIO(b)).convert(RGB)] *)
Variable Image_open : string -> exc (PIL.raster PIL.rgb).

Definition model_path : string :=
  "/workspaces/carotid-imt-segmentation-ml/ML/models/unet_model.pth".

(** Lines 88 to 99: the module either holds a loaded model in evaluation
    mode or fails to import with a [RuntimeError]. *)
Definition startup : exc UNet.t :=
  let model := UNet.init 3 1 8 in
  if negb (is_file model_path) then
    Raise ("Model file not found at " ++ model_path
           ++ ". Please ensure it's available.")
  else
    match exc_bind (torch_load model_path) (load_state_dict model) with
    | Ok model => Ok (UNet.eval model)
    | Raise e => Raise ("Error loading model: " ++ e)
    end.

(** Preprocessing transformation pipeline *)
Definition preprocess (image : PIL.raster PIL.rgb) : exc (nd F) :=
  let image := Transforms.resize (IMG_SIZE, IMG_SIZE) image in
  let t := Transforms.to_tensor image in
  Transforms.normalize IMG_MEAN IMG_STD t.

(** [(probabilities > 0.5).float()]: 1.0 or 0.0, kept as the integer. *)
Definition binarize (p : F) : Z := if fgtb p (of_Q 0.5) then 1 else 0.

(** Lines 134 to 138, and the same statements at lines 150 to 153. *)
Definition infer (input_tensor : nd F) : M UNet.t (nd Z) :=
  outputs <- UNet.forward (to_device (unsqueeze0 input_tensor)) ;;
  let probabilities := nd_map sigmoid (cpu outputs) in
  let predicted_mask := squeeze (nd_map binarize probabilities) in
  ret predicted_mask.

Definition predict_mask_from_image (image : PIL.raster PIL.rgb) : M UNet.t (nd Z) :=
  input_tensor <- call (preprocess image) ;;
  infer input_tensor.

(** The upload declares a content type and it starts with image/. *)
Definition is_image (file : UploadFile) : bool :=
  match content_type file with
  | Some ct => prefix "image/" ct
  | None => false
  end.

Definition invalid_file_type : response :=
  HTTPException 400 "Invalid file type. Please upload an image.".

(** [None.startswith]: raised by the test of the content type, before the
    [try]. *)
Definition no_startswith : response :=
  Unhandled "AttributeError: 'NoneType' object has no attribute 'startswith'".

(** [try: ... except Exception as e: raise HTTPException(500, ...)] *)
Definition guarded (body : M UNet.t response) (model : UNet.t) : response * UNet.t :=
  match body model with
  | (Ok r, model') => (r, model')
  | (Raise e, model') => (HTTPException 500 ("Prediction failed: " ++ e), model')
  end.

(** The body of the [try] of [predict_segmentation]. *)
Definition predict_segmentation_try (file : UploadFile) : M UNet.t response :=
  image <- call (Image_open (contents file)) ;;
  input_tensor <- call (preprocess image) ;;
  predicted_mask <- infer input_tensor ;;
  ret (JSON (filename file) (shape predicted_mask) predicted_mask).

Definition predict_segmentation (file : UploadFile) (model : UNet.t) : response * UNet.t :=
  match content_type file with
  | None => (no_startswith, model)
  | Some content_type =>
      if negb (prefix "image/" content_type) then (invalid_file_type, model)
      else guarded (predict_segmentation_try file) model
  end.

(** [(predicted_mask * 255).astype(np.uint8)] *)
Definition to_uint8 (predicted_mask : nd Z) : nd Z :=
  nd_map (fun v => (v * 255) mod 256) predicted_mask.

Definition predict_mask_png_try (file : UploadFile) : M UNet.t response :=
  image <- call (Image_open (contents file)) ;;
  let resized_image := PIL.resize image (IMG_SIZE, IMG_SIZE) in
  predicted_mask <- predict_mask_from_image resized_image ;;
  mask_image <- call (PIL.fromarray_L (to_uint8 predicted_mask)) ;;
  ret (PNG_L mask_image).

Definition predict_mask_png (file : UploadFile) (model : UNet.t) : response * UNet.t :=
  match content_type file with
  | None => (no_startswith, model)
  | Some content_type =>
      if negb (prefix "image/" content_type) then (invalid_file_type, model)
      else guarded (predict_mask_png_try file) model
  end.

(** Lines 186 to 191: a red mask blended onto the resized image. *)
Definition composite_mask (resized_image : PIL.raster PIL.rgb) (mask_image : PIL.raster Z)
  : exc (PIL.raster PIL.rgba) :=
  let alpha := PIL.point (fun p => if p >? 0 then 120 else 0) mask_image in
  let overlay := PIL.new (PIL.size resized_image) (255, 0, 0, 0) in
  exc_bind (PIL.putalpha overlay alpha) (fun overlay =>
  PIL.alpha_composite (PIL.convert_RGBA resized_image) overlay).

(** Lines 185 to 191. *)
Definition blend_overlay (resized_image : PIL.raster PIL.rgb) (predicted_mask : nd Z)
  : exc (PIL.raster PIL.rgba) :=
  exc_bind (PIL.fromarray_L (to_uint8 predicted_mask)) (composite_mask resized_image).

Definition predict_overlay_png_try (file : UploadFile) : M UNet.t response :=
  image <- call (Image_open (contents file)) ;;
  let resized_image := PIL.resize image (IMG_SIZE, IMG_SIZE) in
  predicted_mask <- predict_mask_from_image resized_image ;;
  combined <- call (blend_overlay resized_image predicted_mask) ;;
  ret (PNG_RGBA combined).

Definition predict_overlay_png (file : UploadFile) (model : UNet.t) : response * UNet.t :=
  match content_type file with
  | None => (no_startswith, model)
  | Some content_type =>
      if negb (prefix "image/" content_type) then (invalid_file_type, model)
      else guarded (predict_overlay_png_try file) model
  end.

(** The three prediction routes, each with the body of its [try]. *)
Definition endpoints
  : list ((UploadFile -> UNet.t -> response * UNet.t) * (UploadFile -> M UNet.t response)) :=
  [(predict_segmentation, predict_segmentation_try);
   (predict_mask_png, predict_mask_png_try);
   (predict_overlay_png, predict_overlay_png_try)].

End Defs.
End Api.

(** A device that computes shapes only: what it hands back to the host is
    a buffer of zeros of the shape computed. *)
#[export] Instance ShapeDevice (A : Arith) : Device ShapeTorch A := {|
  to_device := fun t => shape t;
  cpu := fun s => mk_nd s (repeat (of_Z 0) (Z.to_nat (fold_right Z.mul 1 s)))
|}.

(** ** Vocabulary of the statements *)

(** A raster of [hn] rows of [wn] pixels. *)
Definition rectangular {P} (wn hn : nat) (im : PIL.raster P) : Prop :=
  List.length im = hn /\ Forall (fun row => List.length row = wn) im.

(** The byte [b] over 255, minus the mean [m], over the standard deviation
    [s]. *)
Definition normalized {A : Arith} (m s : Q) (b : Z) : F :=
  fdiv (fsub (fdiv (of_Z b) (of_Z 255)) (of_Q m)) (of_Q s).

(** One channel of an image, normalised, row after row. *)
Definition normalized_plane {A : Arith} (band : PIL.rgb -> Z) (m s : Q)
    (im : PIL.raster PIL.rgb) : list F :=
  flat_map (map (fun p => normalized m s (band p))) im.

(** The image of [hn] rows of [wn] pixels, all equal to [p]. *)
Definition uniform_image {P} (wn hn : nat) (p : P) : PIL.raster P :=
  repeat (repeat p wn) hn.

(** What the service decides for one logit: 1 is foreground, 0 background. *)
Definition classify {A : Arith} {Act : Activation A} (logit : F) : Z :=
  Api.binarize (sigmoid logit).

(** The alpha blend of the specification on 8-bit channels: the colour
    [fg] at opacity [alpha] / 255 over [bg], rounded to the nearest
    integer. *)
Definition alpha_blend (fg bg alpha : Z) : Z :=
  (fg * alpha + bg * (255 - alpha) + 127) / 255.

(** The overlay of the specification at one pixel: the source pixel where
    the mask is 0, red (255, 0, 0) at alpha 120 over the source pixel where
    the mask is 1; the result is opaque. *)
Definition overlay_pixel (p : PIL.rgb) (m : Z) : PIL.rgba :=
  let '(r, g, b) := p in
  if m =? 0 then (r, g, b, 255)
  else (alpha_blend 255 r 120, alpha_blend 0 g 120, alpha_blend 0 b 120, 255).

Definition overlay_of (im : PIL.raster PIL.rgb) (mask : list (list Z)) : PIL.raster PIL.rgba :=
  map (fun rm => map (fun pm => overlay_pixel (fst pm) (snd pm)) (combine (fst rm) (snd rm)))
      (combine im mask).

(** One band of [PIL.composite_pixel] for an opaque destination and a
    source of alpha 120. *)
Definition composite_band_120 (src dst : Z) : Z :=
  Z.shiftr (PIL.SHIFTFORDIV255 (src * 15360 + dst * 17280 + Z.shiftl 128 7)) 7.

(** ** Bilinear interpolation

    The resize of the specification ("resize to the fixed size using
    bilinear interpolation"), in exact arithmetic, to be compared with what
    [PIL.resize] computes in fixed point.  It is bilinear in the sense Pillow
    documents for a resize: linear interpolation on all the input samples
    that may contribute to the output sample.  Input and output samples sit
    at the centres of their cells; an output sample is the mean of the input
    samples weighted by the triangle 1 - |d|, where d is the distance of the
    centres, in input cells when the axis grows and in output cells when it
    shrinks. *)

Definition Qsum (l : list Q) : Q := fold_right Qplus 0%Q l.

Definition triangle (d : Q) : Q :=
  let a := if Qle_bool 0 d then d else (- d)%Q in
  if Qle_bool 1 a then 0%Q else (1 - a)%Q.

Definition sample_weight (inSize outSize xx x : Z) : Q :=
  let scale := (inject_Z inSize / inject_Z outSize)%Q in
  let cell := if Qle_bool 1 scale then scale else 1%Q in
  triangle ((inject_Z x + (1 # 2) - (inject_Z xx + (1 # 2)) * scale) / cell).

(** The output sample [xx] of a row of [inSize] samples [f] resized to
    [outSize] samples. *)
Definition interpolate (inSize outSize xx : Z) (f : Z -> Q) : Q :=
  (Qsum (map (fun x => sample_weight inSize outSize xx x * f x) (range inSize))
   / Qsum (map (sample_weight inSize outSize xx) (range inSize)))%Q.

(** [im.getpixel((x, y))] *)
Definition getpixel (im : PIL.raster PIL.rgb) (xy : Z * Z) : PIL.rgb :=
  nth (Z.to_nat (fst xy)) (nth (Z.to_nat (snd xy)) im []) (0, 0, 0).

(** One band of the pixel (i, j) of the image resized to (xsize, ysize):
    the interpolation along the rows, interpolated along the columns. *)
Definition bilinear_interpolation (band : PIL.rgb -> Z) (im : PIL.raster PIL.rgb)
    (sz ij : Z * Z) : Q :=
  interpolate (PIL.height im) (snd sz) (snd ij) (fun y =>
    interpolate (PIL.width im) (fst sz) (fst ij) (fun x =>
      inject_Z (band (getpixel im (x, y))))).

(** The most that the fixed point of one pass adds to the rounding of its
    result: half a unit of the coefficients, which is 2^-23, on each of the
    at most 2 * inSize / outSize + 3 samples of a window, of value 255 at
    most. *)
Definition pass_error (inSize outSize : Z) : Q :=
  ((255 # 8388608) * (2 * (inject_Z inSize / inject_Z outSize) + 3))%Q.

(** The bands of an RGB pixel. *)
Definition bands : list (PIL.rgb -> Z) := [PIL.band_R; PIL.band_G; PIL.band_B].

(** One coefficient in fixed point, as [PIL.normalize_coeffs_8bpc] rounds
    it. *)
Definition coefficient (q : Q) : Z :=
  if PIL.Qltb q 0 then PIL.trunc (- (1 # 2) + q * inject_Z (Z.shiftl 1 PIL.PRECISION_BITS))
  else PIL.trunc ((1 # 2) + q * inject_Z (Z.shiftl 1 PIL.PRECISION_BITS)).

(** The exact weighted sum of one band over a window. *)
Definition weighted (band : PIL.rgb -> Z) (win : list PIL.rgb) (k : list Q) : Q :=
  Qsum (map (fun pk => snd pk * inject_Z (band (fst pk)))%Q (combine win k)).

(** ** Sample inputs *)

Definition sample_image : PIL.raster PIL.rgb :=
  [[(0, 0, 0); (255, 100, 50)]; [(10, 20, 30); (40, 50, 60)]].

(** A decoder that knows one file. *)
Definition sample_open (b : string) : exc (PIL.raster PIL.rgb) :=
  if String.eqb b "sample" then Ok sample_image
  else Raise "cannot identify image file".

Definition sample_png : UploadFile := mk_file "a.png" (Some "image/png") "sample".
Definition sample_jpeg : UploadFile := mk_file "b.jpg" (Some "image/jpeg") "sample".
Definition broken_png : UploadFile := mk_file "c.png" (Some "image/png") "garbage".
Definition text_file : UploadFile := mk_file "d.txt" (Some "text/plain") "sample".
(** Parts whose type is in upper case, and not declared at all. *)
Definition shouting_png : UploadFile := mk_file "e.png" (Some "IMAGE/PNG") "sample".
Definition untyped_png : UploadFile := mk_file "f.png" None "sample".

(** A model built for four input channels: its first convolution refuses
    the three-channel tensor of the preprocessor. *)
Definition misbuilt : UNet.t (T := ShapeTorch) := UNet.eval (UNet.init 4 1 8).

(** ** The application as a whole

    The five routes of the module and a worker that answers the requests
    it receives one after the other, on the one model of the module. *)

Module App.
Section Defs.
Context {T : Torch} {A : Arith} {Act : Activation A} {D : Device T A}
        {P : PIL.Resample}.
Variable Image_open : string -> exc (PIL.raster PIL.rgb).

Inductive request : Type :=
| GET_health
| GET_root
| POST_predict (file : UploadFile)
| POST_predict_mask (file : UploadFile)
| POST_predict_overlay (file : UploadFile).

(** What goes back: the dictionary of one of the two GET routes, or the
    response of a prediction route. *)
Inductive reply : Type :=
| Health (status : string) (model_loaded : bool)
| Root (message docs health : string)
| Prediction (r : response).

(** [True if model else False]: a module defines neither [__bool__] nor
    [__len__], so the object is true. *)
Definition health_check (model : UNet.t) : reply := Health "ok" true.

Definition root : reply :=
  Root "Carotid IMT Segmentation API is running." "/docs" "/health".

Definition handle (req : request) (model : UNet.t) : reply * UNet.t :=
  match req with
  | GET_health => (health_check model, model)
  | GET_root => (root, model)
  | POST_predict file =>
      let (r, model') := Api.predict_segmentation Image_open file model in
      (Prediction r, model')
  | POST_predict_mask file =>
      let (r, model') := Api.predict_mask_png Image_open file model in
      (Prediction r, model')
  | POST_predict_overlay file =>
      let (r, model') := Api.predict_overlay_png Image_open file model in
      (Prediction r, model')
  end.

(** The requests are answered in order, each on the model the previous one
    left. *)
Fixpoint serve (reqs : list request) (model : UNet.t) : list reply * UNet.t :=
  match reqs with
  | [] => ([], model)
  | req :: reqs' =>
      let (r, model1) := handle req model in
      let (rs, model2) := serve reqs' model1 in
      (r :: rs, model2)
  end.

End Defs.
End App.

(** The two messages with which the forward pass refuses an input. *)
Definition too_small : string := "RuntimeError: Output size is too small".
Definition wrong_channels : string := "RuntimeError: input channels do not match the weight".
Definition sizes_differ : string :=
  "RuntimeError: Sizes of tensors must match except in the cat dimension".

(** The values of a mask, and of the image made from it. *)
Definition bit (v : Z) : Prop := v = 0 \/ v = 1.
Definition black_or_white (v : Z) : Prop := v = 0 \/ v = 255.

(** The failure response for the message [e]. *)
Definition prediction_failed (e : string) : response :=
  HTTPException 500 ("Prediction failed: " ++ e).

(** An overlay pixel [q] against its source pixel [p]: opaque, no less
    red, no more green or blue, and still made of bytes. *)
Definition reddened (p : PIL.rgb) (q : PIL.rgba) : Prop :=
  let '(r, g, b) := p in
  let '(r', g', b', a') := q in
  a' = 255 /\ r <= r' <= 255 /\ 0 <= g' <= g /\ 0 <= b' <= b.

(** * Properties *)

(** ** The state of the model in evaluation mode *)

Section Keeps.
Context {T : Torch}.

Lemma bind_keeps {S A B} (m : M S A) (k : A -> M S B) (s : S) :
  snd (m s) = s -> (forall a, snd (k a s) = s) -> snd (bind m k s) = s.
Proof.
  intros Hm Hk. unfold bind.
  destruct (m s) as [[a | e] s'] eqn:E; simpl in Hm; subst s'.
  - apply Hk.
  - reflexivity.
Qed.

Lemma sub_keeps {S U A} (get : S -> U) (set : S -> U -> S) (m : M U A) (s : S) :
  snd (m (get s)) = get s -> set s (get s) = s -> snd (sub get set m s) = s.
Proof.
  intros Hm Hs. unfold sub.
  destruct (m (get s)) as [r u] eqn:E; simpl in *. now subst u.
Qed.

Lemma bind_ok {S A B} (m : M S A) (k : A -> M S B) (s s' : S) (a : A) :
  m s = (Ok a, s') -> bind m k s = k a s'.
Proof. intros H. unfold bind. now rewrite H. Qed.

Lemma sub_ok {S U A} (get : S -> U) (set : S -> U -> S) (m : M U A) (s : S) (a : A) :
  m (get s) = (Ok a, get s) -> set s (get s) = s -> sub get set m s = (Ok a, s).
Proof. intros H Hs. unfold sub. now rewrite H, Hs. Qed.

Lemma bind_sub_ok {S U A B} (get : S -> U) (set : S -> U -> S) (m : M U A)
      (k : A -> M S B) (s : S) (a : A) :
  m (get s) = (Ok a, get s) -> set s (get s) = s -> bind (sub get set m) k s = k a s.
Proof. intros H Hs. apply bind_ok. now apply sub_ok. Qed.

Lemma BatchNorm2d_keeps (x : tensor) (self : BatchNorm2d.t) :
  BatchNorm2d.training self = false -> snd (BatchNorm2d.forward x self) = self.
Proof. intros H. unfold BatchNorm2d.forward. now rewrite H. Qed.

Lemma DoubleConv_keeps (x : tensor) (self : DoubleConv.t) :
  DoubleConv.training self = false -> snd (DoubleConv.forward x self) = self.
Proof.
  unfold DoubleConv.training. intros H. apply orb_false_elim in H as [H1 H4].
  unfold DoubleConv.forward.
  repeat (apply bind_keeps; [ | intros ? ]);
    try reflexivity;
    apply sub_keeps; try (now destruct self);
    first [ reflexivity | now apply BatchNorm2d_keeps ].
Qed.

Lemma EncoderBlock_keeps (x : tensor) (self : EncoderBlock.t) :
  EncoderBlock.training self = false -> snd (EncoderBlock.forward x self) = self.
Proof.
  unfold EncoderBlock.training. intros H. unfold EncoderBlock.forward.
  repeat (apply bind_keeps; [ | intros ? ]);
    try reflexivity;
    apply sub_keeps; try (now destruct self);
    first [ reflexivity | now apply DoubleConv_keeps ].
Qed.

Lemma DecoderBlock_keeps (x skip : tensor) (self : DecoderBlock.t) :
  DecoderBlock.training self = false -> snd (DecoderBlock.forward x skip self) = self.
Proof.
  unfold DecoderBlock.training. intros H. unfold DecoderBlock.forward.
  repeat (apply bind_keeps; [ | intros ? ]);
    try reflexivity;
    apply sub_keeps; try (now destruct self);
    first [ reflexivity | now apply DoubleConv_keeps ].
Qed.

Lemma UNet_training_false (self : UNet.t) :
  UNet.training self = false ->
  DoubleConv.training (UNet.inc self) = false
  /\ EncoderBlock.training (UNet.down1 self) = false
  /\ EncoderBlock.training (UNet.down2 self) = false
  /\ EncoderBlock.training (UNet.down3 self) = false
  /\ EncoderBlock.training (UNet.down4 self) = false
  /\ DecoderBlock.training (UNet.up1 self) = false
  /\ DecoderBlock.training (UNet.up2 self) = false
  /\ DecoderBlock.training (UNet.up3 self) = false
  /\ DecoderBlock.training (UNet.up4 self) = false.
Proof.
  unfold UNet.training. intros H.
  repeat match goal with
         | H : _ || _ = false |- _ => apply orb_false_elim in H; destruct H
         end.
  repeat split; assumption.
Qed.

(** A forward pass in evaluation mode writes no attribute of the model,
    whether it returns or raises. *)
Lemma UNet_forward_keeps (x : tensor) (self : UNet.t) :
  UNet.training self = false -> snd (UNet.forward x self) = self.
Proof.
  intros H. apply UNet_training_false in H.
  destruct H as (H0 & H1 & H2 & H3 & H4 & H5 & H6 & H7 & H8).
  unfold UNet.forward.
  repeat (apply bind_keeps; [ | intros ? ]);
    apply sub_keeps; try (now destruct self);
    first [ reflexivity
          | now apply DoubleConv_keeps
          | now apply EncoderBlock_keeps
          | now apply DecoderBlock_keeps ].
Qed.

Lemma UNet_eval_training (self : UNet.t) : UNet.training (UNet.eval self) = false.
Proof. reflexivity. Qed.

End Keeps.

(** ** Shapes through the layers *)

Lemma list_Z_eqb_refl (l : list Z) : list_Z_eqb l l = true.
Proof. unfold list_Z_eqb. now destruct (list_eq_dec Z.eq_dec l l). Qed.

Lemma list_Z_eqb_eq (a b : list Z) : list_Z_eqb a b = true <-> a = b.
Proof. unfold list_Z_eqb. destruct (list_eq_dec Z.eq_dec a b); split; congruence. Qed.

Lemma list_Z_eqb_neq (a b : list Z) : list_Z_eqb a b = false <-> a <> b.
Proof. unfold list_Z_eqb. destruct (list_eq_dec Z.eq_dec a b); split; congruence. Qed.

Lemma leb_pos_false (a : Z) : 0 < a -> (a <=? 0) = false.
Proof. intros. apply Z.leb_gt. lia. Qed.

Section ShapeLayers.
Variables n c co h w : Z.

Lemma conv2d_3x3 :
  0 < h -> 0 < w -> Shape.conv2d [n; c; h; w] [co; c; 3; 3] [co] 1 = Ok [n; co; h; w].
Proof.
  intros Hh Hw. unfold Shape.conv2d. rewrite !Z.eqb_refl. cbn [negb].
  replace (h + 2 * 1 - 3 + 1) with h by lia.
  replace (w + 2 * 1 - 3 + 1) with w by lia.
  now rewrite !leb_pos_false.
Qed.

Lemma conv2d_1x1 :
  0 < h -> 0 < w -> Shape.conv2d [n; c; h; w] [co; c; 1; 1] [co] 0 = Ok [n; co; h; w].
Proof.
  intros Hh Hw. unfold Shape.conv2d. rewrite !Z.eqb_refl. cbn [negb].
  replace (h + 2 * 0 - 1 + 1) with h by lia.
  replace (w + 2 * 0 - 1 + 1) with w by lia.
  now rewrite !leb_pos_false.
Qed.

Lemma batch_norm_eval_same (e : Q) :
  Shape.batch_norm_eval [n; c; h; w] [c] [c] [c] [c] e = Ok [n; c; h; w].
Proof.
  unfold Shape.batch_norm_eval, Shape.stats_match. now rewrite list_Z_eqb_refl.
Qed.

Lemma max_pool2d_half :
  2 <= h -> 2 <= w -> Shape.max_pool2d [n; c; h; w] 2 = Ok [n; c; h / 2; w / 2].
Proof.
  intros Hh Hw. unfold Shape.max_pool2d. cbn [Z.leb Z.compare].
  assert (E : forall a, (a - 2) / 2 + 1 = a / 2).
  { intros a. rewrite <- Z.div_add by lia. f_equal. lia. }
  rewrite !E.
  assert (0 < h / 2) by (apply Z.div_str_pos; lia).
  assert (0 < w / 2) by (apply Z.div_str_pos; lia).
  now rewrite !leb_pos_false.
Qed.

Lemma conv_transpose2d_double :
  Shape.conv_transpose2d [n; c; h; w] [c; co; 2; 2] [co] 2 = Ok [n; co; 2 * h; 2 * w].
Proof.
  unfold Shape.conv_transpose2d. rewrite !Z.eqb_refl. cbn [negb].
  replace ((h - 1) * 2 + 2) with (2 * h) by lia.
  replace ((w - 1) * 2 + 2) with (2 * w) by lia.
  reflexivity.
Qed.

(** The widths of [DecoderBlock.pad_widths] bring any size to the size of
    the skip. *)
Lemma pad_to_skip (hs ws : Z) :
  0 < hs -> 0 < ws ->
  Shape.pad [n; c; h; w] (DecoderBlock.pad_widths (ws - w) (hs - h)) = Ok [n; c; hs; ws].
Proof.
  intros Hh Hw. unfold Shape.pad, DecoderBlock.pad_widths. cbn [rev app Shape.pad_rev].
  replace (w + (ws - w) / 2 + (ws - w - (ws - w) / 2)) with ws by lia.
  replace (h + (hs - h) / 2 + (hs - h - (hs - h) / 2)) with hs by lia.
  rewrite !leb_pos_false by assumption. reflexivity.
Qed.

Lemma cat_channels (cs : Z) :
  Shape.cat [[n; cs; h; w]; [n; c; h; w]] 1 = Ok [n; cs + c; h; w].
Proof.
  unfold Shape.cat. cbn [Z.ltb Z.compare fold_left exc_bind Z.to_nat Pos.to_nat Pos.iter_op Nat.add Shape.cat2].
  now rewrite Z.eqb_refl, list_Z_eqb_refl.
Qed.

End ShapeLayers.

Lemma DoubleConv_shape (cin cout n h w : Z) :
  0 < h -> 0 < w ->
  DoubleConv.forward (T := ShapeTorch) [n; cin; h; w] (DoubleConv.eval (DoubleConv.init cin cout))
  = (Ok [n; cout; h; w], DoubleConv.eval (DoubleConv.init cin cout)).
Proof.
  intros Hh Hw.
  unfold DoubleConv.forward, bind, sub, ret, Conv2d.forward, BatchNorm2d.forward.
  cbn -[Shape.conv2d Shape.batch_norm_eval].
  rewrite conv2d_3x3 by assumption. cbn -[Shape.conv2d Shape.batch_norm_eval].
  rewrite batch_norm_eval_same. cbn -[Shape.conv2d Shape.batch_norm_eval].
  rewrite conv2d_3x3 by assumption. cbn -[Shape.conv2d Shape.batch_norm_eval].
  rewrite batch_norm_eval_same. reflexivity.
Qed.

Lemma EncoderBlock_shape (cin cout n h w : Z) :
  2 <= h -> 2 <= w ->
  EncoderBlock.forward (T := ShapeTorch) [n; cin; h; w]
    (EncoderBlock.eval (EncoderBlock.init cin cout))
  = (Ok [n; cout; h / 2; w / 2], EncoderBlock.eval (EncoderBlock.init cin cout)).
Proof.
  intros Hh Hw.
  assert (0 < h / 2) by (apply Z.div_str_pos; lia).
  assert (0 < w / 2) by (apply Z.div_str_pos; lia).
  unfold EncoderBlock.forward, MaxPool2d.forward.
  unfold bind at 1. unfold sub at 1.
  cbn -[Shape.max_pool2d DoubleConv.forward DoubleConv.eval DoubleConv.init bind sub].
  rewrite max_pool2d_half by assumption.
  unfold bind, sub, ret.
  cbn -[DoubleConv.forward DoubleConv.eval DoubleConv.init].
  rewrite DoubleConv_shape by assumption. reflexivity.
Qed.

Lemma reconcile_differ (n c cs h w hs ws : Z) :
  (h, w) <> (hs, ws) ->
  DecoderBlock.reconcile (T := ShapeTorch) [n; c; h; w] [n; cs; hs; ws]
  = Shape.pad [n; c; h; w] (DecoderBlock.pad_widths (ws - w) (hs - h)).
Proof.
  intros Hne. unfold DecoderBlock.reconcile. cbn [size ShapeTorch].
  replace (list_Z_eqb (last2 [n; c; h; w]) (last2 [n; cs; hs; ws])) with false.
  - reflexivity.
  - symmetry. apply list_Z_eqb_neq. cbn. congruence.
Qed.

Lemma reconcile_shape (n c cs h w hs ws : Z) :
  0 < hs -> 0 < ws ->
  DecoderBlock.reconcile (T := ShapeTorch) [n; c; h; w] [n; cs; hs; ws] = Ok [n; c; hs; ws].
Proof.
  intros Hh Hw.
  destruct (list_eq_dec Z.eq_dec [h; w] [hs; ws]) as [E | E].
  - injection E as -> ->. unfold DecoderBlock.reconcile. cbn [size ShapeTorch].
    now rewrite list_Z_eqb_refl.
  - rewrite reconcile_differ by congruence. now apply pad_to_skip.
Qed.

Lemma DecoderBlock_shape (cin cout cs n h w hs ws : Z) :
  cs + cout = cin -> 0 < hs -> 0 < ws ->
  DecoderBlock.forward (T := ShapeTorch) [n; cin; h; w] [n; cs; hs; ws]
    (DecoderBlock.eval (DecoderBlock.init cin cout))
  = (Ok [n; cout; hs; ws], DecoderBlock.eval (DecoderBlock.init cin cout)).
Proof.
  intros Hc Hh Hw.
  unfold DecoderBlock.forward, ConvTranspose2d.forward.
  unfold bind at 1. unfold sub at 1.
  cbn -[Shape.conv_transpose2d DoubleConv.forward DoubleConv.eval DoubleConv.init bind sub
        DecoderBlock.reconcile Shape.cat].
  rewrite conv_transpose2d_double.
  unfold bind at 1. unfold call at 1. rewrite reconcile_shape by assumption.
  unfold bind at 1. unfold call at 1. rewrite cat_channels.
  unfold sub. cbn -[DoubleConv.forward DoubleConv.eval DoubleConv.init].
  rewrite Hc, DoubleConv_shape by assumption. reflexivity.
Qed.

(** ** The assembly of the network *)

Example forward_128 :
  UNet.forward (T := ShapeTorch) [1; 3; 128; 128] (served_shapes 8)
  = (Ok [1; 1; 128; 128], served_shapes 8).
Proof. reflexivity. Qed.

Example forward_100_75 :
  fst (UNet.forward (T := ShapeTorch) [2; 3; 100; 75] (served_shapes 8))
  = Ok [2; 1; 100; 75].
Proof. reflexivity. Qed.

Example forward_15 :
  fst (UNet.forward (T := ShapeTorch) [1; 3; 15; 15] (served_shapes 8))
  = Raise "RuntimeError: Output size is too small".
Proof. reflexivity. Qed.

(** Without [model.eval()] a forward pass does write the model: every batch
    normalisation counts the batch. *)
Example forward_training_counts :
  let m := snd (UNet.forward (T := ShapeTorch) [1; 3; 128; 128] (UNet.init 3 1 8)) in
  UNet.training (UNet.init (T := ShapeTorch) 3 1 8) = true
  /\ BatchNorm2d.num_batches_tracked (DoubleConv.bn_1 (UNet.inc (UNet.init 3 1 8))) = 0
  /\ BatchNorm2d.num_batches_tracked (DoubleConv.bn_1 (UNet.inc m)) = 1.
Proof. repeat split. Qed.

(** The wiring of [UNet.forward], whatever the tensors are: if the stem,
    the encoder blocks, the decoder blocks called on the pairs
    (x5, x4), (u1, x3), (u2, x2), (u3, x1), and the last convolution return
    as named and keep their attributes, the forward pass returns the
    result of the last convolution. *)
Lemma UNet_forward_steps {T : Torch} (m : UNet.t)
      (x x1 x2 x3 x4 x5 u1 u2 u3 u4 y : tensor) :
  DoubleConv.forward x (UNet.inc m) = (Ok x1, UNet.inc m) ->
  EncoderBlock.forward x1 (UNet.down1 m) = (Ok x2, UNet.down1 m) ->
  EncoderBlock.forward x2 (UNet.down2 m) = (Ok x3, UNet.down2 m) ->
  EncoderBlock.forward x3 (UNet.down3 m) = (Ok x4, UNet.down3 m) ->
  EncoderBlock.forward x4 (UNet.down4 m) = (Ok x5, UNet.down4 m) ->
  DecoderBlock.forward x5 x4 (UNet.up1 m) = (Ok u1, UNet.up1 m) ->
  DecoderBlock.forward u1 x3 (UNet.up2 m) = (Ok u2, UNet.up2 m) ->
  DecoderBlock.forward u2 x2 (UNet.up3 m) = (Ok u3, UNet.up3 m) ->
  DecoderBlock.forward u3 x1 (UNet.up4 m) = (Ok u4, UNet.up4 m) ->
  Conv2d.forward u4 (UNet.outc m) = (Ok y, UNet.outc m) ->
  UNet.forward x m = (Ok y, m).
Proof.
  intros E0 E1 E2 E3 E4 D1 D2 D3 D4 O.
  unfold UNet.forward.
  erewrite bind_sub_ok; [ | exact E0 | now destruct m ].
  erewrite bind_sub_ok; [ | exact E1 | now destruct m ].
  erewrite bind_sub_ok; [ | exact E2 | now destruct m ].
  erewrite bind_sub_ok; [ | exact E3 | now destruct m ].
  erewrite bind_sub_ok; [ | exact E4 | now destruct m ].
  erewrite bind_sub_ok; [ | exact D1 | now destruct m ].
  erewrite bind_sub_ok; [ | exact D2 | now destruct m ].
  erewrite bind_sub_ok; [ | exact D3 | now destruct m ].
  erewrite bind_sub_ok; [ | exact D4 | now destruct m ].
  apply sub_ok; [ exact O | now destruct m ].
Qed.

(** C1: [UNet.init 3 1 base] (the service takes [base] = 8, the default)
    is a stem DoubleConv from 3 to [base] channels, four encoder blocks
    doubling the channels up to [16 * base], four decoder blocks halving
    them back to [base], and a 1 x 1 convolution to one channel.  The
    forward pass pairs the last encoder output with the first decoder
    block, whose input it is, and the four decoder blocks consume as skips,
    deepest first, the four encoder outputs of their own resolution: those
    of the third, second and first encoder blocks and of the stem.  On an
    input of at least 16 x 16 every stage has the channel count of the
    schedule and the result is one channel of the size of the input. *)
Theorem unet_assembly (base n h w : Z) :
  0 < base -> 0 < n -> 16 <= h -> 16 <= w ->
  let net := UNet.init (T := ShapeTorch) 3 1 base in
  let m := served_shapes base in
  let x := [n; 3; h; w] in
  let x1 := [n; base; h; w] in
  let x2 := [n; base * 2; h / 2; w / 2] in
  let x3 := [n; base * 4; h / 2 / 2; w / 2 / 2] in
  let x4 := [n; base * 8; h / 2 / 2 / 2; w / 2 / 2 / 2] in
  let x5 := [n; base * 16; h / 2 / 2 / 2 / 2; w / 2 / 2 / 2 / 2] in
  let u1 := [n; base * 8; h / 2 / 2 / 2; w / 2 / 2 / 2] in
  let u2 := [n; base * 4; h / 2 / 2; w / 2 / 2] in
  let u3 := [n; base * 2; h / 2; w / 2] in
  let u4 := [n; base; h; w] in
  let y := [n; 1; h; w] in
  (UNet.inc net = DoubleConv.init 3 base
   /\ UNet.down1 net = EncoderBlock.init base (base * 2)
   /\ UNet.down2 net = EncoderBlock.init (base * 2) (base * 4)
   /\ UNet.down3 net = EncoderBlock.init (base * 4) (base * 8)
   /\ UNet.down4 net = EncoderBlock.init (base * 8) (base * 16)
   /\ UNet.up1 net = DecoderBlock.init (base * 16) (base * 8)
   /\ UNet.up2 net = DecoderBlock.init (base * 8) (base * 4)
   /\ UNet.up3 net = DecoderBlock.init (base * 4) (base * 2)
   /\ UNet.up4 net = DecoderBlock.init (base * 2) base
   /\ UNet.outc net = Conv2d.init base 1 1 0)
  /\ (forall (T : Torch) (m' : UNet.t) (t t1 t2 t3 t4 t5 v1 v2 v3 v4 out : tensor),
        DoubleConv.forward t (UNet.inc m') = (Ok t1, UNet.inc m') ->
        EncoderBlock.forward t1 (UNet.down1 m') = (Ok t2, UNet.down1 m') ->
        EncoderBlock.forward t2 (UNet.down2 m') = (Ok t3, UNet.down2 m') ->
        EncoderBlock.forward t3 (UNet.down3 m') = (Ok t4, UNet.down3 m') ->
        EncoderBlock.forward t4 (UNet.down4 m') = (Ok t5, UNet.down4 m') ->
        DecoderBlock.forward t5 t4 (UNet.up1 m') = (Ok v1, UNet.up1 m') ->
        DecoderBlock.forward v1 t3 (UNet.up2 m') = (Ok v2, UNet.up2 m') ->
        DecoderBlock.forward v2 t2 (UNet.up3 m') = (Ok v3, UNet.up3 m') ->
        DecoderBlock.forward v3 t1 (UNet.up4 m') = (Ok v4, UNet.up4 m') ->
        Conv2d.forward v4 (UNet.outc m') = (Ok out, UNet.outc m') ->
        UNet.forward t m' = (Ok out, m'))
  /\ DoubleConv.forward x (UNet.inc m) = (Ok x1, UNet.inc m)
  /\ EncoderBlock.forward x1 (UNet.down1 m) = (Ok x2, UNet.down1 m)
  /\ EncoderBlock.forward x2 (UNet.down2 m) = (Ok x3, UNet.down2 m)
  /\ EncoderBlock.forward x3 (UNet.down3 m) = (Ok x4, UNet.down3 m)
  /\ EncoderBlock.forward x4 (UNet.down4 m) = (Ok x5, UNet.down4 m)
  /\ DecoderBlock.forward x5 x4 (UNet.up1 m) = (Ok u1, UNet.up1 m)
  /\ DecoderBlock.forward u1 x3 (UNet.up2 m) = (Ok u2, UNet.up2 m)
  /\ DecoderBlock.forward u2 x2 (UNet.up3 m) = (Ok u3, UNet.up3 m)
  /\ DecoderBlock.forward u3 x1 (UNet.up4 m) = (Ok u4, UNet.up4 m)
  /\ Conv2d.forward u4 (UNet.outc m) = (Ok y, UNet.outc m)
  /\ UNet.forward x m = (Ok y, m).
Proof.
  intros Hb Hn Hh Hw net m x x1 x2 x3 x4 x5 u1 u2 u3 u4 y.
  assert (H2 : forall a, 16 <= a ->
             2 <= a /\ 2 <= a / 2 /\ 2 <= a / 2 / 2 /\ 2 <= a / 2 / 2 / 2
             /\ 0 < a / 2 / 2 / 2 / 2).
  { intros a Ha. repeat split.
    - lia.
    - apply Z.div_le_lower_bound; lia.
    - repeat (apply Z.div_le_lower_bound; [ lia | ]). lia.
    - repeat (apply Z.div_le_lower_bound; [ lia | ]). lia.
    - apply Z.lt_le_trans with 1; [ lia | ].
      repeat (apply Z.div_le_lower_bound; [ lia | ]). lia. }
  destruct (H2 h Hh) as (Hh1 & Hh2 & Hh3 & Hh4 & Hh5).
  destruct (H2 w Hw) as (Hw1 & Hw2 & Hw3 & Hw4 & Hw5).
  assert (E0 : DoubleConv.forward x (UNet.inc m) = (Ok x1, UNet.inc m))
    by (apply DoubleConv_shape; lia).
  assert (E1 : EncoderBlock.forward x1 (UNet.down1 m) = (Ok x2, UNet.down1 m))
    by (apply EncoderBlock_shape; lia).
  assert (E2 : EncoderBlock.forward x2 (UNet.down2 m) = (Ok x3, UNet.down2 m))
    by (apply EncoderBlock_shape; lia).
  assert (E3 : EncoderBlock.forward x3 (UNet.down3 m) = (Ok x4, UNet.down3 m))
    by (apply EncoderBlock_shape; lia).
  assert (E4 : EncoderBlock.forward x4 (UNet.down4 m) = (Ok x5, UNet.down4 m))
    by (apply EncoderBlock_shape; lia).
  assert (D1 : DecoderBlock.forward x5 x4 (UNet.up1 m) = (Ok u1, UNet.up1 m))
    by (apply DecoderBlock_shape; lia).
  assert (D2 : DecoderBlock.forward u1 x3 (UNet.up2 m) = (Ok u2, UNet.up2 m))
    by (apply DecoderBlock_shape; lia).
  assert (D3 : DecoderBlock.forward u2 x2 (UNet.up3 m) = (Ok u3, UNet.up3 m))
    by (apply DecoderBlock_shape; lia).
  assert (D4 : DecoderBlock.forward u3 x1 (UNet.up4 m) = (Ok u4, UNet.up4 m))
    by (apply DecoderBlock_shape; lia).
  assert (O : Conv2d.forward u4 (UNet.outc m) = (Ok y, UNet.outc m)).
  { unfold Conv2d.forward, u4, y, m, served_shapes. cbn -[Shape.conv2d].
    rewrite conv2d_1x1 by lia. reflexivity. }
  split; [ repeat split | ].
  split; [ intros T m'; intros; eapply UNet_forward_steps; eassumption | ].
  repeat (split; [ assumption | ]).
  exact (@UNet_forward_steps ShapeTorch m x x1 x2 x3 x4 x5 u1 u2 u3 u4 y
           E0 E1 E2 E3 E4 D1 D2 D3 D4 O).
Qed.

Lemma unet_assembly_witness :
  (0 < 8 /\ 0 < 1 /\ 16 <= 128 /\ 16 <= 128)
  /\ DecoderBlock.forward (T := ShapeTorch) [1; 128; 8; 8] [1; 64; 16; 16]
       (UNet.up1 (served_shapes 8))
     = (Ok [1; 64; 16; 16], UNet.up1 (served_shapes 8))
  /\ UNet.forward (T := ShapeTorch) [1; 3; 128; 128] (served_shapes 8)
     = (Ok [1; 1; 128; 128], served_shapes 8).
Proof.
  split; [ lia | ].
  destruct (@unet_assembly 8 1 128 128)
    as (_ & _ & _ & _ & _ & _ & _ & D1 & _ & _ & _ & _ & E); try lia.
  split; [ exact D1 | exact E ].
Defined.

(** ** The decoder block *)

Example pad_widths_odd : DecoderBlock.pad_widths 1 1 = [0; 1; 0; 1].
Proof. reflexivity. Qed.

Example pad_widths_crop : DecoderBlock.pad_widths (-3) 0 = [-2; -1; 0; 0].
Proof. reflexivity. Qed.

Lemma reconcile_pads {T : Torch} (u skip : tensor) (n c h w n' cs hs ws : Z) :
  size u = [n; c; h; w] -> size skip = [n'; cs; hs; ws] -> (h, w) <> (hs, ws) ->
  DecoderBlock.reconcile u skip = pad u (DecoderBlock.pad_widths (ws - w) (hs - h)).
Proof.
  intros Hu Hs Hne. unfold DecoderBlock.reconcile. rewrite Hu, Hs.
  replace (list_Z_eqb (last2 [n; c; h; w]) (last2 [n'; cs; hs; ws])) with false.
  - reflexivity.
  - symmetry. apply list_Z_eqb_neq. cbn. congruence.
Qed.

(** C2: in a decoder block of any backend, when the upsampled tensor, of
    size (n, c, h, w), and the skip, of size (n', cs, hs, ws), differ in
    height or width, the upsampled tensor is handed to [F.pad] (zero
    filling by default) with the widths floor(diff_x / 2) and
    diff_x - floor(diff_x / 2) for the width, floor(diff_y / 2) and
    diff_y - floor(diff_y / 2) for the height; by the shape rule of [F.pad]
    this gives it the height and width of the skip.  The list
    [skip, padded] is then concatenated along dimension 1 and the
    DoubleConv is applied to the result. *)
Theorem decoder_pads_then_concatenates {T : Torch}
    (d : DecoderBlock.t) (x skip upsampled : tensor) (n c h w n' cs hs ws : Z) :
  ConvTranspose2d.forward x (DecoderBlock.up d) = (Ok upsampled, DecoderBlock.up d) ->
  size upsampled = [n; c; h; w] ->
  size skip = [n'; cs; hs; ws] ->
  (h, w) <> (hs, ws) -> 0 < hs -> 0 < ws ->
  let diff_y := hs - h in
  let diff_x := ws - w in
  let widths := [diff_x / 2; diff_x - diff_x / 2; diff_y / 2; diff_y - diff_y / 2] in
  (2 * (diff_x / 2) <= diff_x < 2 * (diff_x / 2) + 2)
  /\ (2 * (diff_y / 2) <= diff_y < 2 * (diff_y / 2) + 2)
  /\ DecoderBlock.reconcile upsampled skip = pad upsampled widths
  /\ Shape.pad (size upsampled) widths = Ok [n; c; hs; ws]
  /\ DecoderBlock.forward x skip d
     = (padded <- call (pad upsampled widths) ;;
        joined <- call (cat [skip; padded] 1) ;;
        sub DecoderBlock.double_conv DecoderBlock.set_double_conv
          (DoubleConv.forward joined)) d.
Proof.
  intros Hup Hu Hs Hne Hh Hw diff_y diff_x widths.
  assert (Hrec : DecoderBlock.reconcile upsampled skip = pad upsampled widths)
    by (now apply (@reconcile_pads T upsampled skip n c h w n' cs hs ws)).
  repeat split.
  - pose proof (Z.mul_div_le diff_x 2). lia.
  - pose proof (Z.mul_succ_div_gt diff_x 2). lia.
  - pose proof (Z.mul_div_le diff_y 2). lia.
  - pose proof (Z.mul_succ_div_gt diff_y 2). lia.
  - exact Hrec.
  - rewrite Hu. now apply pad_to_skip.
  - unfold DecoderBlock.forward.
    erewrite bind_sub_ok; [ | exact Hup | now destruct d ].
    now rewrite Hrec.
Qed.

Lemma decoder_pads_then_concatenates_witness :
  let d := DecoderBlock.eval (DecoderBlock.init (T := ShapeTorch) 128 64) in
  (ConvTranspose2d.forward (T := ShapeTorch) [1; 128; 6; 6] (DecoderBlock.up d)
   = (Ok [1; 64; 12; 12], DecoderBlock.up d)
   /\ (12, 12) <> (13, 13) /\ 0 < 13 /\ 0 < 13)
  /\ DecoderBlock.reconcile (T := ShapeTorch) [1; 64; 12; 12] [1; 64; 13; 13]
     = Shape.pad [1; 64; 12; 12] [0; 1; 0; 1]
  /\ Shape.pad [1; 64; 12; 12] [0; 1; 0; 1] = Ok [1; 64; 13; 13]
  /\ DecoderBlock.forward [1; 128; 6; 6] [1; 64; 13; 13] d
     = (Ok [1; 64; 13; 13], d).
Proof.
  intros d.
  assert (Hup : ConvTranspose2d.forward (T := ShapeTorch) [1; 128; 6; 6] (DecoderBlock.up d)
                = (Ok [1; 64; 12; 12], DecoderBlock.up d)) by reflexivity.
  assert (Hne : (12, 12) <> (13, 13)) by discriminate.
  split; [ repeat split; try lia; assumption | ].
  destruct (@decoder_pads_then_concatenates ShapeTorch d [1; 128; 6; 6] [1; 64; 13; 13]
              [1; 64; 12; 12] 1 64 12 12 1 64 13 13 Hup eq_refl eq_refl Hne
              ltac:(lia) ltac:(lia))
    as (_ & _ & Hrec & Hpad & Hfwd).
  split; [ exact Hrec | split; [ exact Hpad | ] ].
  rewrite Hfwd. reflexivity.
Defined.

(** ** Rasters and resizing *)

Lemma range_length (n : Z) : List.length (range n) = Z.to_nat n.
Proof. unfold range. now rewrite length_map, length_seq. Qed.

Lemma coeffs_length (a b : Z) : List.length (PIL.coeffs a b) = Z.to_nat b.
Proof. unfold PIL.coeffs. now rewrite length_map, range_length. Qed.

Lemma rectangular_width {P} (wn hn : nat) (im : PIL.raster P) :
  rectangular wn hn im -> (0 < hn)%nat -> PIL.width im = Z.of_nat wn.
Proof.
  intros [Hl Hr] Hpos. destruct im as [ | row im]; simpl in *.
  - lia.
  - inversion Hr; subst. reflexivity.
Qed.

Lemma ResampleHorizontal_rectangular (kk : list (Z * list Z)) (im : PIL.raster PIL.rgb) :
  rectangular (List.length kk) (List.length im) (PIL.ResampleHorizontal kk im).
Proof.
  unfold rectangular, PIL.ResampleHorizontal. split.
  - now rewrite length_map.
  - apply Forall_map, Forall_forall. intros row _. now rewrite length_map.
Qed.

Lemma ResampleVertical_rectangular (kk : list (Z * list Z)) (im : PIL.raster PIL.rgb) :
  rectangular (Z.to_nat (PIL.width im)) (List.length kk) (PIL.ResampleVertical kk im).
Proof.
  unfold rectangular, PIL.ResampleVertical. split.
  - now rewrite length_map.
  - apply Forall_map, Forall_forall. intros b _. now rewrite length_map, length_seq.
Qed.

Lemma valid_image_rectangular (im : PIL.raster PIL.rgb) :
  PIL.valid_image im ->
  rectangular (Z.to_nat (PIL.width im)) (Z.to_nat (PIL.height im)) im.
Proof.
  intros (Hh & Hw & Hrows & _). split.
  - unfold PIL.height. lia.
  - eapply Forall_impl; [ | exact Hrows ]. cbn beta. intros row E. lia.
Qed.

Lemma horizontal_rectangular (W xsize : Z) (hn : nat) (imIn : PIL.raster PIL.rgb) :
  rectangular (Z.to_nat W) hn imIn ->
  rectangular (Z.to_nat xsize) hn
    (if negb (xsize =? W) then PIL.ResampleHorizontal (PIL.coeffs W xsize) imIn else imIn).
Proof.
  intros Hrect. destruct (Z.eqb_spec xsize W) as [-> | _]; cbn [negb].
  - exact Hrect.
  - pose proof (ResampleHorizontal_rectangular (PIL.coeffs W xsize) imIn) as H.
    rewrite coeffs_length in H. destruct Hrect as [<- _]. exact H.
Qed.

Lemma vertical_rectangular (H ysize : Z) (wn : nat) (imIn : PIL.raster PIL.rgb) :
  rectangular wn (Z.to_nat H) imIn -> 0 < H ->
  rectangular wn (Z.to_nat ysize)
    (if negb (ysize =? H) then PIL.ResampleVertical (PIL.coeffs H ysize) imIn else imIn).
Proof.
  intros Hrect Hpos. destruct (Z.eqb_spec ysize H) as [-> | _]; cbn [negb].
  - exact Hrect.
  - pose proof (ResampleVertical_rectangular (PIL.coeffs H ysize) imIn) as Hv.
    rewrite coeffs_length in Hv.
    rewrite (rectangular_width Hrect) in Hv by lia. now rewrite Nat2Z.id in Hv.
Qed.

Lemma clip8_byte (v : Z) : PIL.byte (PIL.clip8 v).
Proof. unfold PIL.byte, PIL.clip8. lia. Qed.

Lemma resample_pixel_byte (win : list PIL.rgb) (k : list Z) :
  PIL.byte_rgb (PIL.resample_pixel win k).
Proof. unfold PIL.byte_rgb, PIL.resample_pixel. cbn. auto using clip8_byte. Qed.

Lemma horizontal_bytes (b : bool) (kk : list (Z * list Z)) (imIn : PIL.raster PIL.rgb) :
  Forall (Forall PIL.byte_rgb) imIn ->
  Forall (Forall PIL.byte_rgb) (if b then PIL.ResampleHorizontal kk imIn else imIn).
Proof.
  intros Hb. destruct b; [ | exact Hb ].
  unfold PIL.ResampleHorizontal. apply Forall_map, Forall_forall. intros row _.
  apply Forall_map, Forall_forall. intros c _. apply resample_pixel_byte.
Qed.

Lemma vertical_bytes (b : bool) (kk : list (Z * list Z)) (imIn : PIL.raster PIL.rgb) :
  Forall (Forall PIL.byte_rgb) imIn ->
  Forall (Forall PIL.byte_rgb) (if b then PIL.ResampleVertical kk imIn else imIn).
Proof.
  intros Hb. destruct b; [ | exact Hb ].
  unfold PIL.ResampleVertical. apply Forall_map, Forall_forall. intros c _.
  apply Forall_map, Forall_forall. intros x _. apply resample_pixel_byte.
Qed.

Lemma rectangular_height {P} (wn hn : nat) (im : PIL.raster P) :
  rectangular wn hn im -> PIL.height im = Z.of_nat hn.
Proof. intros [Hl _]. unfold PIL.height. now rewrite Hl. Qed.

Section Resize.
Context {P : PIL.Resample}.

(** Whatever the size of a valid image and the order of the passes, its
    resized copy has the requested width and height. *)
Lemma resize_rectangular (im : PIL.raster PIL.rgb) (xsize ysize : Z) :
  PIL.valid_image im -> 0 < xsize -> 0 < ysize ->
  rectangular (Z.to_nat xsize) (Z.to_nat ysize) (PIL.resize im (xsize, ysize)).
Proof.
  intros Hv Hx Hy. pose proof (valid_image_rectangular Hv) as Hrect.
  destruct Hv as (Hh & Hw & _ & _).
  unfold PIL.resize.
  destruct ((PIL.width im =? xsize) && (PIL.height im =? ysize)) eqn:Esame.
  - apply andb_prop in Esame as [Ex Ey].
    apply Z.eqb_eq in Ex, Ey. now subst xsize ysize.
  - clear Esame. destruct (PIL.vertical_first (PIL.size im) (xsize, ysize)).
    + apply horizontal_rectangular. now apply vertical_rectangular.
    + apply vertical_rectangular; [ | exact Hh ]. now apply horizontal_rectangular.
Qed.

Lemma resize_bytes (im : PIL.raster PIL.rgb) (sz : Z * Z) :
  Forall (Forall PIL.byte_rgb) im -> Forall (Forall PIL.byte_rgb) (PIL.resize im sz).
Proof.
  intros Hb. destruct sz as [xsize ysize]. unfold PIL.resize.
  destruct ((PIL.width im =? xsize) && (PIL.height im =? ysize)); [ exact Hb | ].
  destruct (PIL.vertical_first (PIL.size im) (xsize, ysize)).
  - apply horizontal_bytes, vertical_bytes, Hb.
  - apply vertical_bytes, horizontal_bytes, Hb.
Qed.

Lemma resize_valid (im : PIL.raster PIL.rgb) (xsize ysize : Z) :
  PIL.valid_image im -> 0 < xsize -> 0 < ysize ->
  PIL.valid_image (PIL.resize im (xsize, ysize)).
Proof.
  intros Hv Hx Hy.
  pose proof (resize_rectangular Hv Hx Hy) as Hrect.
  assert (Hw : PIL.width (PIL.resize im (xsize, ysize)) = xsize).
  { rewrite (rectangular_width Hrect) by lia. lia. }
  assert (Hh : PIL.height (PIL.resize im (xsize, ysize)) = ysize).
  { rewrite (rectangular_height Hrect). lia. }
  unfold PIL.valid_image. rewrite Hw, Hh. repeat split; try assumption.
  - destruct Hrect as [_ Hrows]. eapply Forall_impl; [ | exact Hrows ].
    cbn beta. intros row E. lia.
  - apply resize_bytes. apply Hv.
Qed.

(** Resizing an image to the size it has is a copy. *)
Lemma resize_same (im : PIL.raster PIL.rgb) (xsize ysize : Z) :
  rectangular (Z.to_nat xsize) (Z.to_nat ysize) im -> 0 < xsize -> 0 < ysize ->
  PIL.resize im (xsize, ysize) = im.
Proof.
  intros Hrect Hx Hy. unfold PIL.resize.
  rewrite (rectangular_width Hrect), (rectangular_height Hrect) by lia.
  rewrite !Z2Nat.id, !Z.eqb_refl by lia. reflexivity.
Qed.

End Resize.

(** ** Sums of rationals *)

Lemma Qsum_nil : Qsum [] = 0%Q.
Proof. reflexivity. Qed.

Lemma Qsum_cons (a : Q) (l : list Q) : Qsum (a :: l) = (a + Qsum l)%Q.
Proof. reflexivity. Qed.

Lemma Qsum_app (l1 l2 : list Q) : (Qsum (l1 ++ l2) == Qsum l1 + Qsum l2)%Q.
Proof.
  induction l1 as [ | a l1 IH]; cbn [app].
  - rewrite Qsum_nil. lra.
  - rewrite !Qsum_cons, IH. lra.
Qed.

Lemma Qsum_map_ext {B} (f g : B -> Q) (l : list B) :
  (forall x, In x l -> (f x == g x)%Q) -> (Qsum (map f l) == Qsum (map g l))%Q.
Proof.
  induction l as [ | a l IH]; intros H; cbn [map].
  - reflexivity.
  - rewrite !Qsum_cons, IH, (H a) by (intros; try apply H; cbn; auto).
    reflexivity.
Qed.

Lemma Qsum_map_scale {B} (c : Q) (f : B -> Q) (l : list B) :
  (Qsum (map (fun x => c * f x) l) == c * Qsum (map f l))%Q.
Proof.
  induction l as [ | a l IH]; cbn [map].
  - rewrite !Qsum_nil. lra.
  - rewrite !Qsum_cons, IH. lra.
Qed.

Lemma Qsum_map_zero {B} (f : B -> Q) (l : list B) :
  (forall x, In x l -> (f x == 0)%Q) -> (Qsum (map f l) == 0)%Q.
Proof.
  induction l as [ | a l IH]; intros H; cbn [map].
  - reflexivity.
  - rewrite Qsum_cons, IH, (H a) by (intros; try apply H; cbn; auto). lra.
Qed.

Lemma Qsum_map_le {B} (f g : B -> Q) (l : list B) :
  (forall x, In x l -> (f x <= g x)%Q) -> (Qsum (map f l) <= Qsum (map g l))%Q.
Proof.
  induction l as [ | a l IH]; intros H; cbn [map].
  - apply Qle_refl.
  - rewrite !Qsum_cons.
    pose proof (H a ltac:(cbn; auto)). pose proof (IH ltac:(intros; apply H; cbn; auto)).
    lra.
Qed.

Lemma Qsum_map_nonneg {B} (f : B -> Q) (l : list B) :
  (forall x, In x l -> (0 <= f x)%Q) -> (0 <= Qsum (map f l))%Q.
Proof.
  induction l as [ | a l IH]; intros H; cbn [map].
  - apply Qle_refl.
  - rewrite !Qsum_cons.
    pose proof (H a ltac:(cbn; auto)). pose proof (IH ltac:(intros; apply H; cbn; auto)).
    lra.
Qed.

Lemma Qsum_map_plus {B} (f g : B -> Q) (l : list B) :
  (Qsum (map (fun x => f x + g x) l) == Qsum (map f l) + Qsum (map g l))%Q.
Proof.
  induction l as [ | a l IH]; cbn [map].
  - rewrite !Qsum_nil. lra.
  - rewrite !Qsum_cons, IH. lra.
Qed.

Lemma fold_left_Qplus (l : list Q) (a : Q) : (fold_left Qplus l a == a + Qsum l)%Q.
Proof.
  revert a. induction l as [ | b l IH]; intros a; cbn [fold_left].
  - rewrite Qsum_nil. lra.
  - rewrite IH, Qsum_cons. lra.
Qed.

(** ** Ranges *)

Lemma In_range (n x : Z) : In x (range n) <-> 0 <= x < n.
Proof.
  unfold range. rewrite in_map_iff. split.
  - intros (i & <- & Hi). apply in_seq in Hi. lia.
  - intros H. exists (Z.to_nat x). split; [ lia | ]. apply in_seq. lia.
Qed.

Lemma range_app (a b : Z) :
  0 <= a -> 0 <= b -> range (a + b) = (range a ++ map (Z.add a) (range b))%list.
Proof.
  intros Ha Hb. unfold range.
  rewrite Z2Nat.inj_add, seq_app, map_app by lia. f_equal.
  rewrite map_map. cbn [Nat.add].
  generalize (Z.to_nat b) as n. intros n.
  replace (Z.to_nat a) with (Z.to_nat a + 0)%nat at 1 by lia.
  generalize 0%nat as s. induction n as [ | n IH]; intros s; cbn [seq map].
  - reflexivity.
  - f_equal; [ lia | ]. replace (S (Z.to_nat a + s)) with (Z.to_nat a + S s)%nat by lia.
    apply IH.
Qed.

(** ** Truncation *)

Lemma trunc_spec (q : Q) :
  (0 <= q -> inject_Z (PIL.trunc q) <= q /\ q < inject_Z (PIL.trunc q) + 1)%Q
  /\ (q <= 0 -> q <= inject_Z (PIL.trunc q) /\ inject_Z (PIL.trunc q) < q + 1)%Q.
Proof.
  destruct q as [n d]. unfold PIL.trunc, Qle, Qlt, inject_Z. cbn.
  rewrite ?Pos.mul_1_r.
  pose proof (Z.quot_rem' n (Z.pos d)) as E.
  split; intros H.
  - assert (Hn : 0 <= n) by lia.
    pose proof (Z.rem_bound_pos n (Z.pos d) Hn ltac:(lia)).
    set (t := n ÷ Z.pos d) in *. set (r := Z.rem n (Z.pos d)) in *.
    clearbody t r. set (D := Z.pos d) in *. clearbody D. split; lia.
  - assert (Hn : 0 <= - n) by lia.
    pose proof (Z.quot_rem' (- n) (Z.pos d)) as E'.
    pose proof (Z.rem_bound_pos (- n) (Z.pos d) Hn ltac:(lia)).
    rewrite Z.quot_opp_l in E' by lia.
    set (t := n ÷ Z.pos d) in *. set (r := Z.rem (- n) (Z.pos d)) in *.
    clearbody t r. set (D := Z.pos d) in *. clearbody D. split; lia.
Qed.

Lemma trunc_le (q : Q) : (0 <= q -> inject_Z (PIL.trunc q) <= q)%Q.
Proof. intros H. now apply trunc_spec. Qed.

Lemma trunc_lt_succ (q : Q) : (0 <= q -> q < inject_Z (PIL.trunc q) + 1)%Q.
Proof. intros H. now apply trunc_spec. Qed.

Lemma trunc_gt_pred (q : Q) : (q - 1 < inject_Z (PIL.trunc q))%Q.
Proof.
  destruct (Qlt_le_dec q 0) as [H | H].
  - destruct (proj2 (trunc_spec q) ltac:(lra)). lra.
  - destruct (proj1 (trunc_spec q) H). lra.
Qed.

Lemma trunc_le_max (q : Q) : (inject_Z (PIL.trunc q) <= q)%Q \/ PIL.trunc q <= 0.
Proof.
  destruct (Qlt_le_dec q 0) as [H | H].
  - right. destruct (proj2 (trunc_spec q) ltac:(lra)) as [_ H1].
    assert (H2 : (inject_Z (PIL.trunc q) < inject_Z 1)%Q) by (change (inject_Z 1) with 1%Q; lra).
    rewrite <- Zlt_Qlt in H2. lia.
  - left. now apply trunc_le.
Qed.

Lemma inject_Z_le (a b : Z) : a <= b <-> (inject_Z a <= inject_Z b)%Q.
Proof. now rewrite Zle_Qle. Qed.

Lemma inject_Z_lt (a b : Z) : a < b <-> (inject_Z a < inject_Z b)%Q.
Proof. now rewrite Zlt_Qlt. Qed.

(** ** One window in fixed point *)

Lemma normalize_coeffs_8bpc_map (k : list Q) :
  PIL.normalize_coeffs_8bpc k = map coefficient k.
Proof. reflexivity. Qed.

(** A weight in fixed point is off by at most half a unit. *)
Lemma coefficient_near (q : Q) :
  (0 <= q)%Q ->
  (- (1 # 2) <= inject_Z (coefficient q) - q * 4194304 <= 1 # 2)%Q.
Proof.
  intros Hq. unfold coefficient, PIL.Qltb.
  replace (Qle_bool 0 q) with true by (symmetry; now apply Qle_bool_iff).
  cbn [negb]. change (inject_Z (Z.shiftl 1 PIL.PRECISION_BITS)) with 4194304%Q.
  assert (H0 : (0 <= (1 # 2) + q * 4194304)%Q) by lra.
  pose proof (trunc_le H0). pose proof (trunc_lt_succ H0). lra.
Qed.

Section Window.
Variable band : PIL.rgb -> Z.

Lemma weighted_cons (p : PIL.rgb) (win : list PIL.rgb) (q : Q) (k : list Q) :
  weighted band (p :: win) (q :: k) = (q * inject_Z (band p) + weighted band win k)%Q.
Proof. reflexivity. Qed.

Lemma fold_accumulate (win : list PIL.rgb) (k : list Q) (acc : Z) :
  Forall (fun p => PIL.byte (band p)) win ->
  Forall (fun q => 0 <= q)%Q k ->
  let X := fold_left (fun ss pk => ss + band (fst pk) * snd pk)
                     (combine win (map coefficient k)) acc in
  let n := inject_Z (Z.of_nat (List.length k)) in
  (- (255 # 2) * n <= inject_Z X - inject_Z acc - 4194304 * weighted band win k
   <= (255 # 2) * n)%Q.
Proof.
  intros Hwin. revert k acc.
  induction Hwin as [ | p win Hp _ IH]; intros k acc Hk X n.
  - unfold X, n, weighted. cbn [combine fold_left map].
    rewrite Qsum_nil.
    assert (0 <= inject_Z (Z.of_nat (List.length k)))%Q.
    { change 0%Q with (inject_Z 0). rewrite <- Zle_Qle. lia. }
    lra.
  - destruct k as [ | q k].
    + unfold X, n, weighted. cbn [combine fold_left map List.length].
      rewrite Qsum_nil. change (inject_Z (Z.of_nat 0)) with 0%Q. lra.
    + inversion Hk as [ | ? ? Hq Hk']; subst.
      unfold X, n. cbn [combine fold_left map List.length fst snd].
      specialize (IH k (acc + band p * coefficient q) Hk'). cbv zeta in IH.
      rewrite weighted_cons.
      rewrite Nat2Z.inj_succ. unfold Z.succ.
      rewrite inject_Z_plus in IH |- *. rewrite inject_Z_mult in IH.
      change (inject_Z 1) with 1%Q.
      pose proof (coefficient_near Hq) as Hc.
      destruct Hp as [Hp0 Hp1].
      rewrite Zle_Qle in Hp0, Hp1.
      change (inject_Z 0) with 0%Q in Hp0. change (inject_Z 255) with 255%Q in Hp1.
      set (b := inject_Z (band p)) in *. set (c := inject_Z (coefficient q)) in *.
      assert (Hprod : (- (255 # 2) <= b * (c - q * 4194304) <= 255 # 2)%Q).
      { split; nra. }
      set (Y := inject_Z (fold_left _ _ _)) in *.
      set (N := inject_Z (Z.of_nat (List.length k))) in *.
      set (E := weighted band win k) in *.
      lra.
Qed.

Lemma weighted_range (win : list PIL.rgb) (k : list Q) :
  List.length win = List.length k ->
  Forall (fun p => PIL.byte (band p)) win ->
  Forall (fun q => 0 <= q)%Q k ->
  (0 <= weighted band win k <= 255 * Qsum k)%Q.
Proof.
  intros Hlen Hwin. revert k Hlen.
  induction Hwin as [ | p win Hp _ IH]; intros k Hlen Hk.
  - destruct k; [ | discriminate ]. unfold weighted. cbn [combine map].
    rewrite Qsum_nil. lra.
  - destruct k as [ | q k]; [ discriminate | ].
    inversion Hk as [ | ? ? Hq Hk']; subst.
    rewrite weighted_cons, Qsum_cons.
    specialize (IH k ltac:(cbn in Hlen; lia) Hk').
    destruct Hp as [Hp0 Hp1]. rewrite Zle_Qle in Hp0, Hp1.
    change (inject_Z 0) with 0%Q in Hp0. change (inject_Z 255) with 255%Q in Hp1.
    set (b := inject_Z (band p)) in *. split; nra.
Qed.

(** One band of one output pixel: the fixed-point result is within half a
    unit, and half a unit of each coefficient, of the exact weighted mean. *)
Lemma resample_band (win : list PIL.rgb) (k : list Q) :
  List.length win = List.length k ->
  Forall (fun p => PIL.byte (band p)) win ->
  Forall (fun q => 0 <= q)%Q k ->
  (Qsum k == 1)%Q ->
  let v := PIL.clip8 (PIL.accumulate band win (PIL.normalize_coeffs_8bpc k)) in
  let n := inject_Z (Z.of_nat (List.length k)) in
  (- ((1 # 2) + (255 # 8388608) * n) <= inject_Z v - weighted band win k
   <= (1 # 2) + (255 # 8388608) * n)%Q.
Proof.
  intros Hlen Hwin Hk Hsum v n.
  pose proof (weighted_range Hlen Hwin Hk) as HE. rewrite Hsum in HE.
  pose proof (@fold_accumulate win k (Z.shiftl 1 (PIL.PRECISION_BITS - 1)) Hwin Hk) as HX.
  cbv zeta in HX. fold n in HX.
  unfold v, PIL.clip8, PIL.accumulate. rewrite normalize_coeffs_8bpc_map.
  set (X := fold_left _ _ _) in *.
  change (inject_Z (Z.shiftl 1 (PIL.PRECISION_BITS - 1))) with 2097152%Q in HX.
  rewrite Z.shiftr_div_pow2 by (unfold PIL.PRECISION_BITS; lia).
  change (2 ^ PIL.PRECISION_BITS) with 4194304.
  pose proof (Z.div_mod X 4194304 ltac:(lia)) as Hdm.
  pose proof (Z.mod_pos_bound X 4194304 ltac:(lia)) as Hmod.
  set (raw := X / 4194304) in *. set (r := X mod 4194304) in *.
  assert (HXq : (inject_Z X == 4194304 * inject_Z raw + inject_Z r)%Q).
  { rewrite Hdm at 1. rewrite inject_Z_plus, inject_Z_mult. reflexivity. }
  assert (Hr : (0 <= inject_Z r < 4194304)%Q).
  { split; [ change 0%Q with (inject_Z 0); rewrite <- Zle_Qle; lia | ].
    change 4194304%Q with (inject_Z 4194304). rewrite <- Zlt_Qlt. lia. }
  set (E := weighted band win k) in *.
  assert (Hraw : (- ((1 # 2) + (255 # 8388608) * n) < inject_Z raw - E
                  <= (1 # 2) + (255 # 8388608) * n)%Q).
  { split; lra. }
  assert (Hclip : Z.max 0 (Z.min 255 raw) = raw
                  \/ (raw < 0 /\ Z.max 0 (Z.min 255 raw) = 0)
                  \/ (255 < raw /\ Z.max 0 (Z.min 255 raw) = 255)) by lia.
  destruct Hclip as [-> | [[Hneg ->] | [Hbig ->]]].
  - lra.
  - rewrite Zlt_Qlt in Hneg. change (inject_Z 0) with 0%Q in *. lra.
  - rewrite Zlt_Qlt in Hbig. change (inject_Z 255) with 255%Q in *. lra.
Qed.

End Window.

(** ** The weights of a window *)

Lemma bilinear_filter_triangle (d : Q) : PIL.bilinear_filter d = triangle d.
Proof.
  unfold PIL.bilinear_filter, triangle, PIL.Qltb.
  destruct (Qle_bool 0 d); cbn [negb];
    match goal with |- context [Qle_bool 1 ?a] => destruct (Qle_bool 1 a) end;
    reflexivity.
Qed.

Lemma triangle_cases (d : Q) :
  ((d <= -1 \/ 1 <= d) /\ triangle d == 0)%Q
  \/ (-1 < d <= 0 /\ triangle d == 1 + d)%Q
  \/ (0 <= d < 1 /\ triangle d == 1 - d)%Q.
Proof.
  unfold triangle.
  destruct (Qle_bool 0 d) eqn:E0.
  - apply Qle_bool_iff in E0.
    destruct (Qle_bool 1 d) eqn:E1.
    + apply Qle_bool_iff in E1. left. split; [ now right | reflexivity ].
    + right. right. split; [ | reflexivity ]. split; [ exact E0 | ].
      apply Qnot_le_lt. intros H. apply Qle_bool_iff in H. congruence.
  - assert (Hneg : (d < 0)%Q).
    { apply Qnot_le_lt. intros H. apply Qle_bool_iff in H. congruence. }
    destruct (Qle_bool 1 (- d)) eqn:E1.
    + apply Qle_bool_iff in E1. left. split; [ left; lra | reflexivity ].
    + right. left.
      assert (H1 : (- d < 1)%Q).
      { apply Qnot_le_lt. intros H. apply Qle_bool_iff in H. congruence. }
      split; [ split; lra | ]. lra.
Qed.

Lemma triangle_nonneg (d : Q) : (0 <= triangle d)%Q.
Proof.
  destruct (triangle_cases d) as [[_ E] | [[H E] | [H E]]]; rewrite E; lra.
Qed.

Lemma triangle_comp (a b : Q) : (a == b)%Q -> (triangle a == triangle b)%Q.
Proof.
  intros Hab.
  destruct (triangle_cases a) as [[Ha Ea] | [[Ha Ea] | [Ha Ea]]];
    destruct (triangle_cases b) as [[Hb Eb] | [[Hb Eb] | [Hb Eb]]];
    rewrite Ea, Eb; try lra; destruct Ha; try destruct Hb; lra.
Qed.

Lemma Qsum_map_ge {B} (f : B -> Q) (l : list B) (a : B) :
  (forall x, In x l -> (0 <= f x)%Q) -> In a l -> (f a <= Qsum (map f l))%Q.
Proof.
  induction l as [ | b l IH]; intros H Hin; cbn [map].
  - destruct Hin.
  - rewrite Qsum_cons.
    pose proof (@Qsum_map_nonneg _ f l ltac:(intros; apply H; cbn; auto)) as Hl.
    destruct Hin as [-> | Hin].
    + lra.
    + pose proof (IH ltac:(intros; apply H; cbn; auto) Hin).
      pose proof (H b ltac:(cbn; auto)). lra.
Qed.

Section Coefficients.
Variables inSize outSize xx : Z.
Hypothesis Hin : 0 < inSize.
Hypothesis Hout : 0 < outSize.
Hypothesis Hxx : 0 <= xx < outSize.

Lemma sample_weight_nonneg (x : Z) : (0 <= sample_weight inSize outSize xx x)%Q.
Proof. unfold sample_weight. apply triangle_nonneg. Qed.

(** The window that [precompute_coeffs] cuts is not empty, lies in the
    row, leaves out no sample of positive weight, and holds the weights of
    the interpolation, normalised. *)
Lemma precompute_coeffs_spec :
  exists (xmin n : Z) (w : Z -> Q) (ww : Q),
    PIL.precompute_coeffs inSize outSize xx
    = (xmin, map (fun x => Qred (w x / ww)) (range n))
    /\ 0 <= xmin /\ 0 < n /\ xmin + n <= inSize
    /\ (inject_Z n <= 2 * (inject_Z inSize / inject_Z outSize) + 3)%Q
    /\ (ww == Qsum (map w (range n)))%Q
    /\ (0 < ww)%Q
    /\ (forall x, (w x == sample_weight inSize outSize xx (xmin + x))%Q)
    /\ (forall x, 0 <= x < inSize -> ~ xmin <= x < xmin + n ->
                  (sample_weight inSize outSize xx x == 0)%Q).
Proof.
  unfold PIL.precompute_coeffs.
  set (scale := (inject_Z inSize / inject_Z outSize)%Q).
  set (fs := if PIL.Qltb scale 1 then 1%Q else scale).
  set (center := ((inject_Z xx + (1 # 2)) * scale)%Q).
  set (T1 := PIL.trunc (center - 1 * fs + (1 # 2))).
  set (T2 := PIL.trunc (center + 1 * fs + (1 # 2))).
  set (xmin := Z.max 0 T1).
  set (n := Z.min inSize T2 - xmin).
  set (w := fun x => PIL.bilinear_filter ((inject_Z (x + xmin) - center + (1 # 2)) * (1 / fs))).
  set (k := map w (range n)).
  set (ww := fold_left Qplus k 0%Q).
  (* the scale *)
  assert (Hi : (0 < inject_Z inSize)%Q) by (change 0%Q with (inject_Z 0); now rewrite <- Zlt_Qlt).
  assert (Ho : (0 < inject_Z outSize)%Q) by (change 0%Q with (inject_Z 0); now rewrite <- Zlt_Qlt).
  assert (Hscale : (scale * inject_Z outSize == inject_Z inSize)%Q).
  { unfold scale. field. lra. }
  assert (Hspos : (0 < scale)%Q).
  { unfold scale. apply Qlt_shift_div_l; lra. }
  assert (Hfs : (1 <= fs /\ scale <= fs /\ fs <= 1 + scale)%Q).
  { unfold fs, PIL.Qltb. destruct (Qle_bool 1 scale) eqn:E; cbn [negb].
    - apply Qle_bool_iff in E. lra.
    - assert (scale < 1)%Q by (apply Qnot_le_lt; intros H; apply Qle_bool_iff in H; congruence).
      lra. }
  assert (Hcell : (if Qle_bool 1 scale then scale else 1%Q) = fs).
  { unfold fs, PIL.Qltb. now destruct (Qle_bool 1 scale). }
  assert (Hxq : (0 <= inject_Z xx /\ inject_Z xx + 1 <= inject_Z outSize)%Q).
  { split.
    - change 0%Q with (inject_Z 0). rewrite <- Zle_Qle. lia.
    - change 1%Q with (inject_Z 1). rewrite <- inject_Z_plus, <- Zle_Qle. lia. }
  assert (Hc : (0 < center /\ center + (1 # 2) * scale <= inject_Z inSize)%Q).
  { unfold center. split; nra. }
  assert (Hss : ((1 / fs) * fs == 1 /\ 0 < 1 / fs)%Q).
  { split; [ field; lra | ]. apply Qlt_shift_div_l; lra. }
  set (ss := (1 / fs)%Q) in *.
  (* the nearest sample *)
  set (x0 := PIL.trunc center).
  assert (Hx0 : (inject_Z x0 <= center /\ center < inject_Z x0 + 1)%Q).
  { split; [ apply trunc_le | apply trunc_lt_succ ]; lra. }
  assert (Hx0in : 0 <= x0 < inSize).
  { split.
    - rewrite Zle_Qle.
      assert (inject_Z 0 - 1 < inject_Z x0)%Q by (change (inject_Z 0) with 0%Q; lra).
      assert (H' : (inject_Z (0 - 1) < inject_Z x0)%Q) by (change (inject_Z (0 - 1)) with (- 1 # 1)%Q; change (inject_Z 0) with 0%Q in *; lra).
      rewrite <- Zlt_Qlt in H'. rewrite <- Zle_Qle. lia.
    - rewrite Zlt_Qlt. lra. }
  assert (HT1 : T1 <= x0).
  { destruct (trunc_le_max (center - 1 * fs + (1 # 2))) as [H | H]; fold T1 in H.
    - assert (H' : (inject_Z T1 < inject_Z (x0 + 1))%Q).
      { rewrite inject_Z_plus. change (inject_Z 1) with 1%Q. lra. }
      rewrite <- Zlt_Qlt in H'. lia.
    - lia. }
  assert (HT2 : x0 < T2).
  { pose proof (trunc_gt_pred (center + 1 * fs + (1 # 2))) as H. fold T2 in H.
    rewrite Zlt_Qlt. lra. }
  assert (Hxmin : 0 <= xmin <= x0) by (unfold xmin; lia).
  assert (Hn : 0 < n /\ xmin + n <= inSize /\ x0 < xmin + n) by (unfold n; lia).
  assert (Hnq : (inject_Z n <= 2 * scale + 3)%Q).
  { assert (HT2le : (inject_Z T2 <= center + 1 * fs + (1 # 2))%Q).
    { apply trunc_le. lra. }
    pose proof (trunc_gt_pred (center - 1 * fs + (1 # 2))) as HT1gt. fold T1 in HT1gt.
    assert (Hle : n <= T2 - T1) by (unfold n, xmin; lia).
    rewrite Zle_Qle in Hle. unfold Zminus in Hle.
    rewrite inject_Z_plus, inject_Z_opp in Hle. lra. }
  (* the weights *)
  assert (Hw : forall x, (w x == sample_weight inSize outSize xx (xmin + x))%Q).
  { intros x. unfold w, sample_weight. fold scale. rewrite Hcell.
    rewrite bilinear_filter_triangle. apply triangle_comp.
    rewrite Z.add_comm, inject_Z_plus. fold center.
    unfold ss. field. lra. }
  assert (Hzero : forall x, 0 <= x < inSize -> ~ xmin <= x < xmin + n ->
                            (sample_weight inSize outSize xx x == 0)%Q).
  { intros x Hx Hout'. unfold sample_weight. fold scale. rewrite Hcell. fold center.
    set (d := ((inject_Z x + (1 # 2) - center) / fs)%Q).
    assert (Hd : (d * fs == inject_Z x + (1 # 2) - center)%Q) by (unfold d; field; lra).
    destruct (triangle_cases d) as [[_ E] | Hmid]; [ exact E | exfalso ].
    assert (Hdm : (-1 < d < 1)%Q) by (destruct Hmid as [[H _] | [H _]]; lra).
    assert (Hnear : (- fs < inject_Z x + (1 # 2) - center < fs)%Q) by (split; nra).
    apply Hout'. split.
    - unfold xmin. apply Z.max_lub; [ lia | ].
      destruct (trunc_le_max (center - 1 * fs + (1 # 2))) as [H | H]; fold T1 in H.
      + assert (H' : (inject_Z T1 < inject_Z (x + 1))%Q).
        { rewrite inject_Z_plus. change (inject_Z 1) with 1%Q. lra. }
        rewrite <- Zlt_Qlt in H'. lia.
      + lia.
    - unfold n. replace (xmin + (Z.min inSize T2 - xmin)) with (Z.min inSize T2) by lia.
      apply Z.min_glb_lt; [ lia | ].
      pose proof (trunc_gt_pred (center + 1 * fs + (1 # 2))) as H. fold T2 in H.
      rewrite Zlt_Qlt. lra. }
  assert (Hww : (ww == Qsum (map w (range n)))%Q).
  { unfold ww, k. rewrite fold_left_Qplus. lra. }
  assert (Hwpos : (0 < ww)%Q).
  { rewrite Hww.
    assert (Hx0w : ((1 # 2) <= w (x0 - xmin)%Z)%Q).
    { rewrite Hw. replace (xmin + (x0 - xmin)) with x0 by lia.
      unfold sample_weight. fold scale. rewrite Hcell. fold center.
      set (d := ((inject_Z x0 + (1 # 2) - center) / fs)%Q).
      assert (Hd : (d * fs == inject_Z x0 + (1 # 2) - center)%Q) by (unfold d; field; lra).
      assert (Hdm : (- (1 # 2) <= d <= 1 # 2)%Q) by (split; nra).
      destruct (triangle_cases d) as [[H E] | [[H E] | [H E]]]; rewrite E; lra. }
    pose proof (@Qsum_map_ge _ w (range n) (x0 - xmin)
                  ltac:(intros; rewrite Hw; apply sample_weight_nonneg)
                  ltac:(apply In_range; lia)).
    lra. }
  exists xmin, n, w, ww.
  split.
  { f_equal. unfold k. rewrite map_map. apply map_ext. intros x.
    replace (Qeq_bool ww 0) with false; [ reflexivity | ].
    symmetry. apply not_true_iff_false. intros H. apply Qeq_bool_iff in H. lra. }
  repeat split; try lia; try assumption.
Qed.

End Coefficients.

(** ** One output sample *)

Lemma window_sum (g : Z -> Q) (inSize xmin n : Z) :
  0 <= xmin -> 0 <= n -> xmin + n <= inSize ->
  (forall x, 0 <= x < inSize -> ~ xmin <= x < xmin + n -> (g x == 0)%Q) ->
  (Qsum (map g (range inSize)) == Qsum (map (fun x => g (xmin + x)%Z) (range n)))%Q.
Proof.
  intros Hx Hn Hle Hzero.
  replace inSize with (xmin + (n + (inSize - xmin - n))) by lia.
  rewrite (@range_app xmin), (@range_app n) by lia.
  rewrite !map_app, !Qsum_app, !map_map.
  rewrite (@Qsum_map_zero _ g (range xmin)).
  2:{ intros x Hin. apply In_range in Hin. apply Hzero; lia. }
  rewrite (@Qsum_map_zero _ (fun x => g (xmin + (n + x))%Z) (range (inSize - xmin - n))).
  2:{ intros x Hin. apply In_range in Hin. apply Hzero; lia. }
  lra.
Qed.

Lemma combine_map_range {A B} (a : Z -> A) (b : Z -> B) (n : Z) :
  combine (map a (range n)) (map b (range n)) = map (fun x => (a x, b x)) (range n).
Proof.
  induction (range n) as [ | x l IH]; cbn [map combine].
  - reflexivity.
  - now rewrite IH.
Qed.

Lemma band_resample_pixel (band : PIL.rgb -> Z) (win : list PIL.rgb) (kz : list Z) :
  In band bands ->
  band (PIL.resample_pixel win kz) = PIL.clip8 (PIL.accumulate band win kz).
Proof.
  intros [<- | [<- | [<- | []]]]; reflexivity.
Qed.

Lemma band_byte (band : PIL.rgb -> Z) (p : PIL.rgb) :
  In band bands -> PIL.byte_rgb p -> PIL.byte (band p).
Proof.
  intros [<- | [<- | [<- | []]]] H; apply H.
Qed.

Section Sample.
Variable band : PIL.rgb -> Z.
Hypothesis Hband : In band bands.
Variables inSize outSize xx : Z.
Hypothesis Hin : 0 < inSize.
Hypothesis Hout : 0 < outSize.
Hypothesis Hxx : 0 <= xx < outSize.
Variable px : Z -> PIL.rgb.
Hypothesis Hpx : forall x, 0 <= x < inSize -> PIL.byte_rgb (px x).

(** The output sample that a pass computes from the window cut by
    [precompute_coeffs] is within half a unit and [pass_error] of the
    interpolation of the whole row. *)
Lemma resample_pixel_accurate :
  let xmin := fst (PIL.precompute_coeffs inSize outSize xx) in
  let kz := PIL.normalize_coeffs_8bpc (snd (PIL.precompute_coeffs inSize outSize xx)) in
  let win := map (fun t => px (xmin + t)) (range (Z.of_nat (List.length kz))) in
  let exact := interpolate inSize outSize xx (fun x => inject_Z (band (px x))) in
  0 <= xmin /\ xmin + Z.of_nat (List.length kz) <= inSize
  /\ (- ((1 # 2) + pass_error inSize outSize)
      <= inject_Z (band (PIL.resample_pixel win kz)) - exact
      <= (1 # 2) + pass_error inSize outSize)%Q
  /\ (0 <= exact <= 255)%Q.
Proof.
  destruct (precompute_coeffs_spec Hin Hout Hxx)
    as (xmin & n & w & ww & E & Hxmin & Hn & Hle & Hnq & Hww & Hwpos & Hw & Hzero).
  cbv zeta. rewrite E. cbn [fst snd].
  set (k := map (fun x => Qred (w x / ww)) (range n)).
  set (kz := PIL.normalize_coeffs_8bpc k).
  set (exact := interpolate inSize outSize xx (fun x => inject_Z (band (px x)))).
  assert (Hlen : List.length kz = Z.to_nat n).
  { unfold kz, k. rewrite normalize_coeffs_8bpc_map, !length_map, range_length.
    reflexivity. }
  assert (Hlenz : Z.of_nat (List.length kz) = n) by (rewrite Hlen; lia).
  split; [ exact Hxmin | ]. split; [ lia | ].
  rewrite Hlenz.
  set (win := map (fun t => px (xmin + t)) (range n)).
  assert (Hk0 : Forall (fun q => 0 <= q)%Q k).
  { unfold k. apply Forall_map, Forall_forall. intros x _.
    rewrite Qred_correct. apply Qle_shift_div_l; [ exact Hwpos | ].
    rewrite Hw. pose proof (sample_weight_nonneg inSize outSize xx (xmin + x)). lra. }
  assert (Hk1 : (Qsum k == 1)%Q).
  { unfold k.
    rewrite (@Qsum_map_ext _ _ (fun x => (/ ww) * w x)%Q).
    2:{ intros x _. rewrite Qred_correct. field. lra. }
    rewrite Qsum_map_scale, <- Hww. field. lra. }
  assert (Hwin : Forall (fun p => PIL.byte (band p)) win).
  { unfold win. apply Forall_map, Forall_forall. intros t Ht. apply In_range in Ht.
    apply band_byte; [ exact Hband | ]. apply Hpx. lia. }
  assert (Hlenw : List.length win = List.length k).
  { unfold win, k. now rewrite !length_map. }
  pose proof (@resample_band band win k Hlenw Hwin Hk0 Hk1) as Hacc.
  cbv zeta in Hacc.
  assert (Hkn : inject_Z (Z.of_nat (List.length k)) = inject_Z n).
  { f_equal. unfold k. rewrite length_map, range_length. lia. }
  rewrite Hkn in Hacc.
  assert (Hexact : (weighted band win k == exact)%Q).
  { unfold weighted, win, k, exact, interpolate.
    rewrite combine_map_range, map_map. cbn [fst snd].
    rewrite (@window_sum (fun x => sample_weight inSize outSize xx x
                                   * inject_Z (band (px x)))%Q inSize xmin n)
      by (try lia; intros x Hx Hnot; rewrite (Hzero x Hx Hnot); lra).
    rewrite (@window_sum (sample_weight inSize outSize xx) inSize xmin n)
      by (try lia; exact Hzero).
    rewrite (@Qsum_map_ext _ (fun x => sample_weight inSize outSize xx (xmin + x)) w)
      by (intros x _; now rewrite Hw).
    rewrite <- Hww.
    rewrite (@Qsum_map_ext _ (fun x => Qred (w x / ww) * inject_Z (band (px (xmin + x)%Z)))%Q
               (fun x => (/ ww) * (sample_weight inSize outSize xx (xmin + x)%Z
                                   * inject_Z (band (px (xmin + x)%Z))))%Q).
    2:{ intros x _. rewrite Qred_correct, Hw. field. lra. }
    rewrite Qsum_map_scale. field. lra. }
  pose proof (@weighted_range band win k Hlenw Hwin Hk0) as Hrange. rewrite Hk1 in Hrange.
  rewrite band_resample_pixel by exact Hband.
  unfold pass_error. set (scale := (inject_Z inSize / inject_Z outSize)%Q) in *.
  clearbody scale. rewrite <- Hexact.
  set (v := inject_Z (PIL.clip8 _)) in *. set (E' := weighted band win k) in *.
  clearbody v E'. split; lra.
Qed.

End Sample.

(** The interpolation of the row (0, 255) at four samples, to be compared
    with the bytes 0, 64, 191, 255 of [resize_upscale_row]; and of a row of
    four samples reduced to two, where each output sample averages over
    three input samples. *)
Example interpolation_upscale_row :
  map (fun i => Qred (bilinear_interpolation PIL.band_R
                        [[(0, 0, 0); (255, 255, 255)]] (4, 1) (i, 0)))
      [0; 1; 2; 3]
  = [0%Q; (255 # 4)%Q; (765 # 4)%Q; 255%Q].
Proof. vm_compute. reflexivity. Qed.

Example interpolation_reduce_row :
  map (fun i => Qred (bilinear_interpolation PIL.band_R
                        [[(0, 0, 0); (100, 0, 0); (200, 0, 0); (40, 0, 0)]] (2, 1) (i, 0)))
      [0; 1]
  = [(500 # 7)%Q; (820 # 7)%Q].
Proof. vm_compute. reflexivity. Qed.

(** ** The two passes *)

Lemma skipn_cons_nth {A} (d : A) (a : nat) (l : list A) :
  (a < List.length l)%nat -> skipn a l = nth a l d :: skipn (S a) l.
Proof.
  revert l. induction a as [ | a IH]; intros l H; destruct l as [ | x l];
    cbn [List.length] in H; try lia.
  - reflexivity.
  - cbn [skipn nth]. apply IH. lia.
Qed.

Lemma firstn_skipn_nth {A} (d : A) (n a : nat) (l : list A) :
  (a + n <= List.length l)%nat ->
  firstn n (skipn a l) = map (fun i => nth (a + i) l d) (seq 0 n).
Proof.
  revert a. induction n as [ | n IH]; intros a H.
  - reflexivity.
  - rewrite (skipn_cons_nth d) by lia. cbn [firstn seq map].
    rewrite Nat.add_0_r. f_equal.
    rewrite IH by lia. rewrite <- seq_shift, map_map.
    apply map_ext. intros i. f_equal. lia.
Qed.

Lemma window_map {A} (d : A) (xmin : Z) (kz : list Z) (l : list A) :
  0 <= xmin -> xmin + Z.of_nat (List.length kz) <= Z.of_nat (List.length l) ->
  PIL.window xmin kz l
  = map (fun t => nth (Z.to_nat (xmin + t)) l d) (range (Z.of_nat (List.length kz))).
Proof.
  intros Hx Hle. unfold PIL.window, range.
  rewrite (firstn_skipn_nth d) by lia.
  rewrite Nat2Z.id, map_map. apply map_ext. intros i. f_equal. lia.
Qed.

Lemma nth_range (n : Z) (i : nat) : (i < Z.to_nat n)%nat -> nth i (range n) 0 = Z.of_nat i.
Proof.
  intros H. unfold range.
  rewrite (nth_indep _ 0 (Z.of_nat 0)) by (now rewrite length_map, length_seq).
  rewrite map_nth, seq_nth by exact H. reflexivity.
Qed.

Lemma nth_map_in {A B} (f : A -> B) (l : list A) (i : nat) (d : A) (d' : B) :
  (i < List.length l)%nat -> nth i (map f l) d' = f (nth i l d).
Proof.
  intros H. rewrite (nth_indep _ d' (f d)) by (now rewrite length_map).
  apply map_nth.
Qed.

Lemma nth_coeffs (inSize outSize xx : Z) :
  0 <= xx < outSize ->
  nth (Z.to_nat xx) (PIL.coeffs inSize outSize) (0, [])
  = (fst (PIL.precompute_coeffs inSize outSize xx),
     PIL.normalize_coeffs_8bpc (snd (PIL.precompute_coeffs inSize outSize xx))).
Proof.
  intros H. unfold PIL.coeffs.
  rewrite (nth_map_in _ _ 0) by (rewrite range_length; lia).
  rewrite nth_range, Z2Nat.id by lia.
  now destruct (PIL.precompute_coeffs inSize outSize xx).
Qed.

Lemma getpixel_byte (im : PIL.raster PIL.rgb) (x y : Z) :
  Forall (Forall PIL.byte_rgb) im ->
  0 <= y < PIL.height im ->
  0 <= x < Z.of_nat (List.length (nth (Z.to_nat y) im [])) ->
  PIL.byte_rgb (getpixel im (x, y)).
Proof.
  intros Hb Hy Hx. unfold getpixel. cbn [fst snd].
  rewrite Forall_forall in Hb.
  assert (Hrow : In (nth (Z.to_nat y) im []) im).
  { apply nth_In. unfold PIL.height in Hy. lia. }
  specialize (Hb _ Hrow). rewrite Forall_forall in Hb.
  apply Hb. apply nth_In. lia.
Qed.

Section Passes.
Variable band : PIL.rgb -> Z.
Hypothesis Hband : In band bands.
Variable im : PIL.raster PIL.rgb.
Variables W H : Z.
Hypothesis HW : 0 < W.
Hypothesis HH : 0 < H.
Hypothesis Hrect : rectangular (Z.to_nat W) (Z.to_nat H) im.
Hypothesis Hbytes : Forall (Forall PIL.byte_rgb) im.

Lemma row_length (y : Z) :
  0 <= y < H -> Z.of_nat (List.length (nth (Z.to_nat y) im [])) = W.
Proof.
  intros Hy. destruct Hrect as [Hl Hrows]. rewrite Forall_forall in Hrows.
  rewrite (Hrows (nth (Z.to_nat y) im [])) by (apply nth_In; lia). lia.
Qed.

Lemma pixel_byte (x y : Z) : 0 <= x < W -> 0 <= y < H -> PIL.byte_rgb (getpixel im (x, y)).
Proof.
  intros Hx Hy. apply getpixel_byte; [ exact Hbytes | | ].
  - rewrite (rectangular_height Hrect). lia.
  - now rewrite row_length.
Qed.

Lemma ResampleHorizontal_accurate (xsize i y : Z) :
  0 < xsize -> 0 <= i < xsize -> 0 <= y < H ->
  (- ((1 # 2) + pass_error W xsize)
   <= inject_Z (band (getpixel (PIL.ResampleHorizontal (PIL.coeffs W xsize) im) (i, y)))
      - interpolate W xsize i (fun x => inject_Z (band (getpixel im (x, y))))
   <= (1 # 2) + pass_error W xsize)%Q.
Proof.
  intros Hx Hi Hy.
  pose proof (@resample_pixel_accurate band Hband W xsize i HW Hx Hi
                (fun x => getpixel im (x, y)) (fun x Hx' => pixel_byte Hx' Hy)) as Hacc.
  cbv zeta in Hacc. destruct Hacc as (Hmin & Hmax & Hacc & _).
  match type of Hacc with
  | context [PIL.resample_pixel ?w ?k] =>
      assert (E : getpixel (PIL.ResampleHorizontal (PIL.coeffs W xsize) im) (i, y)
                  = PIL.resample_pixel w k)
  end.
  { unfold getpixel at 1. cbn [fst snd]. unfold PIL.ResampleHorizontal.
    destruct Hrect as [Hl Hrows].
    rewrite (nth_map_in _ _ []) by lia.
    rewrite (nth_map_in _ _ (0, [])) by (rewrite coeffs_length; lia).
    rewrite nth_coeffs by exact Hi. cbn [fst snd].
    rewrite (window_map (0, 0, 0)) by (try rewrite row_length; lia).
    reflexivity. }
  rewrite E. exact Hacc.
Qed.

Lemma ResampleVertical_accurate (ysize x j : Z) :
  0 < ysize -> 0 <= x < W -> 0 <= j < ysize ->
  (- ((1 # 2) + pass_error H ysize)
   <= inject_Z (band (getpixel (PIL.ResampleVertical (PIL.coeffs H ysize) im) (x, j)))
      - interpolate H ysize j (fun y => inject_Z (band (getpixel im (x, y))))
   <= (1 # 2) + pass_error H ysize)%Q.
Proof.
  intros Hy Hx Hj.
  pose proof (@resample_pixel_accurate band Hband H ysize j HH Hy Hj
                (fun y => getpixel im (x, y)) (fun y Hy' => pixel_byte Hx Hy')) as Hacc.
  cbv zeta in Hacc. destruct Hacc as (Hmin & Hmax & Hacc & _).
  match type of Hacc with
  | context [PIL.resample_pixel ?w ?k] =>
      assert (E : getpixel (PIL.ResampleVertical (PIL.coeffs H ysize) im) (x, j)
                  = PIL.resample_pixel w k)
  end.
  { unfold getpixel at 1. cbn [fst snd]. unfold PIL.ResampleVertical.
    rewrite (nth_map_in _ _ (0, [])) by (rewrite coeffs_length; lia).
    rewrite (rectangular_width Hrect) by lia.
    rewrite (nth_map_in _ _ 0%nat) by (rewrite length_seq; lia).
    rewrite seq_nth by lia. cbn [Nat.add].
    rewrite nth_coeffs by exact Hj. cbn [fst snd].
    destruct Hrect as [Hl Hrows].
    rewrite (window_map []) by lia.
    rewrite map_map. reflexivity. }
  rewrite E. exact Hacc.
Qed.

End Passes.

(** ** Interpolation as a weighted mean *)

Lemma Qsum_swap {A B} (F : A -> B -> Q) (la : list A) (lb : list B) :
  (Qsum (map (fun x => Qsum (map (fun y => F x y) lb)) la)
   == Qsum (map (fun y => Qsum (map (fun x => F x y) la)) lb))%Q.
Proof.
  induction la as [ | a la IH]; cbn [map].
  - symmetry. apply (@Qsum_map_zero _ (fun y => Qsum (map (fun x => F x y) []))).
    intros y _. reflexivity.
  - rewrite Qsum_cons, IH.
    rewrite <- Qsum_map_plus. apply Qsum_map_ext. intros y _. now rewrite Qsum_cons.
Qed.

Lemma pass_error_nonneg (inSize outSize : Z) :
  0 < inSize -> 0 < outSize -> (0 <= pass_error inSize outSize)%Q.
Proof.
  intros Hi Ho. unfold pass_error.
  assert (0 < inject_Z inSize / inject_Z outSize)%Q.
  { apply Qlt_shift_div_l.
    - change 0%Q with (inject_Z 0). now rewrite <- Zlt_Qlt.
    - rewrite Qmult_0_l. change 0%Q with (inject_Z 0). now rewrite <- Zlt_Qlt. }
  set (s := (inject_Z inSize / inject_Z outSize)%Q) in *. clearbody s. lra.
Qed.

Section Mean.
Variables inSize outSize xx : Z.
Hypothesis Hin : 0 < inSize.
Hypothesis Hout : 0 < outSize.
Hypothesis Hxx : 0 <= xx < outSize.

Lemma total_weight_pos :
  (0 < Qsum (map (sample_weight inSize outSize xx) (range inSize)))%Q.
Proof.
  destruct (precompute_coeffs_spec Hin Hout Hxx)
    as (xmin & n & w & ww & _ & Hxmin & Hn & Hle & _ & Hww & Hwpos & Hw & Hzero).
  rewrite (@window_sum (sample_weight inSize outSize xx) inSize xmin n)
    by (try lia; exact Hzero).
  rewrite (@Qsum_map_ext _ (fun x => sample_weight inSize outSize xx (xmin + x)) w)
    by (intros x _; now rewrite Hw).
  now rewrite <- Hww.
Qed.

Lemma interpolate_ext (f g : Z -> Q) :
  (forall x, 0 <= x < inSize -> (f x == g x)%Q) ->
  (interpolate inSize outSize xx f == interpolate inSize outSize xx g)%Q.
Proof.
  intros H. unfold interpolate.
  rewrite (@Qsum_map_ext _ (fun x => sample_weight inSize outSize xx x * f x)%Q
             (fun x => sample_weight inSize outSize xx x * g x)%Q).
  - reflexivity.
  - intros x Hx. apply In_range in Hx. now rewrite (H x Hx).
Qed.

(** A weighted mean moves by no more than its samples do. *)
Lemma interpolate_bound (f g : Z -> Q) (delta : Q) :
  (forall x, 0 <= x < inSize -> (- delta <= f x - g x <= delta)%Q) ->
  (- delta <= interpolate inSize outSize xx f - interpolate inSize outSize xx g
   <= delta)%Q.
Proof.
  intros H. unfold interpolate.
  pose proof total_weight_pos as Hpos.
  set (sw := sample_weight inSize outSize xx) in *.
  set (Wt := Qsum (map sw (range inSize))) in *.
  assert (Hup : forall f g : Z -> Q,
             (forall x, 0 <= x < inSize -> (f x <= g x + delta)%Q) ->
             (Qsum (map (fun x => sw x * f x) (range inSize))
              <= Qsum (map (fun x => sw x * g x) (range inSize)) + delta * Wt)%Q).
  { intros f' g' H'. unfold Wt.
    rewrite <- Qsum_map_scale, <- Qsum_map_plus.
    apply Qsum_map_le. intros x Hx. apply In_range in Hx.
    pose proof (sample_weight_nonneg inSize outSize xx x) as Hw. fold sw in Hw.
    pose proof (H' x Hx). nra. }
  pose proof (Hup f g ltac:(intros x Hx; pose proof (H x Hx); lra)) as H1.
  pose proof (Hup g f ltac:(intros x Hx; pose proof (H x Hx); lra)) as H2.
  set (A := Qsum (map (fun x => sw x * f x)%Q (range inSize))) in *.
  set (B := Qsum (map (fun x => sw x * g x)%Q (range inSize))) in *.
  assert (HA : (A / Wt * Wt == A)%Q) by (field; lra).
  assert (HB : (B / Wt * Wt == B)%Q) by (field; lra).
  set (a := (A / Wt)%Q) in *. set (b := (B / Wt)%Q) in *.
  clearbody a b A B Wt. split; nra.
Qed.

Lemma interpolate_range (f : Z -> Q) (lo hi : Q) :
  (forall x, 0 <= x < inSize -> (lo <= f x <= hi)%Q) ->
  (lo <= interpolate inSize outSize xx f <= hi)%Q.
Proof.
  intros H. unfold interpolate.
  pose proof total_weight_pos as Hpos.
  set (sw := sample_weight inSize outSize xx) in *.
  set (Wt := Qsum (map sw (range inSize))) in *.
  assert (Hlo : (lo * Wt <= Qsum (map (fun x => sw x * f x) (range inSize)))%Q).
  { unfold Wt. rewrite <- Qsum_map_scale. apply Qsum_map_le. intros x Hx.
    apply In_range in Hx.
    pose proof (sample_weight_nonneg inSize outSize xx x) as Hw. fold sw in Hw.
    pose proof (H x Hx). nra. }
  assert (Hhi : (Qsum (map (fun x => sw x * f x) (range inSize)) <= hi * Wt)%Q).
  { unfold Wt. rewrite <- Qsum_map_scale. apply Qsum_map_le. intros x Hx.
    apply In_range in Hx.
    pose proof (sample_weight_nonneg inSize outSize xx x) as Hw. fold sw in Hw.
    pose proof (H x Hx). nra. }
  set (A := Qsum (map (fun x => sw x * f x)%Q (range inSize))) in *.
  assert (HA : (A / Wt * Wt == A)%Q) by (field; lra).
  set (a := (A / Wt)%Q) in *. clearbody a A Wt. split; nra.
Qed.

End Mean.

(** The two interpolations commute. *)
Lemma interpolate_swap (in1 out1 xx1 in2 out2 xx2 : Z) (f : Z -> Z -> Q) :
  0 < in1 -> 0 < out1 -> 0 <= xx1 < out1 ->
  0 < in2 -> 0 < out2 -> 0 <= xx2 < out2 ->
  (interpolate in1 out1 xx1 (fun x => interpolate in2 out2 xx2 (fun y => f x y))
   == interpolate in2 out2 xx2 (fun y => interpolate in1 out1 xx1 (fun x => f x y)))%Q.
Proof.
  intros Hi1 Ho1 Hx1 Hi2 Ho2 Hx2. unfold interpolate.
  pose proof (total_weight_pos Hi1 Ho1 Hx1) as Hp1.
  pose proof (total_weight_pos Hi2 Ho2 Hx2) as Hp2.
  set (w1 := sample_weight in1 out1 xx1) in *.
  set (w2 := sample_weight in2 out2 xx2) in *.
  set (W1 := Qsum (map w1 (range in1))) in *.
  set (W2 := Qsum (map w2 (range in2))) in *.
  rewrite (@Qsum_map_ext _
             (fun x => w1 x * (Qsum (map (fun y => w2 y * f x y) (range in2)) / W2))%Q
             (fun x => (/ W2) * Qsum (map (fun y => w1 x * (w2 y * f x y)) (range in2)))%Q).
  2:{ intros x _. rewrite Qsum_map_scale. field. lra. }
  rewrite (@Qsum_map_ext _
             (fun y => w2 y * (Qsum (map (fun x => w1 x * f x y) (range in1)) / W1))%Q
             (fun y => (/ W1) * Qsum (map (fun x => w1 x * (w2 y * f x y)) (range in1)))%Q).
  2:{ intros y _.
      rewrite (@Qsum_map_ext _ (fun x => w1 x * (w2 y * f x y))%Q
                 (fun x => w2 y * (w1 x * f x y))%Q) by (intros; ring).
      rewrite Qsum_map_scale. field. lra. }
  rewrite !Qsum_map_scale.
  rewrite (Qsum_swap (fun x y => w1 x * (w2 y * f x y))%Q).
  field. split; lra.
Qed.

(** Where the size does not change there is nothing to interpolate. *)
Lemma interpolate_same (n xx : Z) (f : Z -> Q) :
  0 <= xx < n -> (interpolate n n xx f == f xx)%Q.
Proof.
  intros Hxx.
  assert (Hn : (0 < inject_Z n)%Q).
  { change 0%Q with (inject_Z 0). rewrite <- Zlt_Qlt. lia. }
  assert (Hw : forall x, (sample_weight n n xx x == triangle (inject_Z x - inject_Z xx))%Q).
  { intros x. unfold sample_weight. apply triangle_comp.
    assert (Hs : (inject_Z n / inject_Z n == 1)%Q) by (field; lra).
    destruct (Qle_bool 1 (inject_Z n / inject_Z n)); field; lra. }
  assert (Hxx1 : (sample_weight n n xx xx == 1)%Q).
  { rewrite Hw. destruct (triangle_cases (inject_Z xx - inject_Z xx))
      as [[H E] | [[H E] | [H E]]]; rewrite E; lra. }
  assert (Hzero : forall x, 0 <= x < n -> ~ xx <= x < xx + 1 ->
                            (sample_weight n n xx x == 0)%Q).
  { intros x Hx Hne. rewrite Hw.
    destruct (triangle_cases (inject_Z x - inject_Z xx)) as [[_ E] | Hmid];
      [ exact E | exfalso ].
    assert (Hd : (-1 < inject_Z x - inject_Z xx < 1)%Q)
      by (destruct Hmid as [[H _] | [H _]]; lra).
    assert (H1 : (inject_Z (xx - 1) < inject_Z x)%Q).
    { unfold Zminus. rewrite inject_Z_plus. change (inject_Z (- (1))) with (- (1))%Q. lra. }
    assert (H2 : (inject_Z x < inject_Z (xx + 1))%Q).
    { rewrite inject_Z_plus. change (inject_Z 1) with 1%Q. lra. }
    rewrite <- Zlt_Qlt in H1, H2. lia. }
  unfold interpolate.
  rewrite (@window_sum (fun x => sample_weight n n xx x * f x)%Q n xx 1)
    by (try lia; intros x Hx Hne; rewrite (Hzero x Hx Hne); lra).
  rewrite (@window_sum (sample_weight n n xx) n xx 1) by (try lia; exact Hzero).
  change (range 1) with [0]. cbn [map]. rewrite !Qsum_cons, !Qsum_nil, Z.add_0_r, Hxx1.
  field.
Qed.

(** ** The resize against the interpolation *)

Section MaybePass.
Variable band : PIL.rgb -> Z.
Hypothesis Hband : In band bands.
Variable im : PIL.raster PIL.rgb.
Variables W H : Z.
Hypothesis HW : 0 < W.
Hypothesis HH : 0 < H.
Hypothesis Hrect : rectangular (Z.to_nat W) (Z.to_nat H) im.
Hypothesis Hbytes : Forall (Forall PIL.byte_rgb) im.

Lemma horizontal_accurate (xsize i y : Z) :
  0 < xsize -> 0 <= i < xsize -> 0 <= y < H ->
  (- ((1 # 2) + pass_error W xsize)
   <= inject_Z (band (getpixel (if negb (xsize =? W)
                                then PIL.ResampleHorizontal (PIL.coeffs W xsize) im
                                else im) (i, y)))
      - interpolate W xsize i (fun x => inject_Z (band (getpixel im (x, y))))
   <= (1 # 2) + pass_error W xsize)%Q.
Proof.
  intros Hx Hi Hy. destruct (Z.eqb_spec xsize W) as [-> | Hne]; cbn [negb].
  - rewrite interpolate_same by exact Hi.
    pose proof (pass_error_nonneg HW HW). lra.
  - now apply ResampleHorizontal_accurate with (H := H).
Qed.

Lemma vertical_accurate (ysize x j : Z) :
  0 < ysize -> 0 <= x < W -> 0 <= j < ysize ->
  (- ((1 # 2) + pass_error H ysize)
   <= inject_Z (band (getpixel (if negb (ysize =? H)
                                then PIL.ResampleVertical (PIL.coeffs H ysize) im
                                else im) (x, j)))
      - interpolate H ysize j (fun y => inject_Z (band (getpixel im (x, y))))
   <= (1 # 2) + pass_error H ysize)%Q.
Proof.
  intros Hy Hx Hj. destruct (Z.eqb_spec ysize H) as [-> | Hne]; cbn [negb].
  - rewrite interpolate_same by exact Hj.
    pose proof (pass_error_nonneg HH HH). lra.
  - now apply ResampleVertical_accurate with (W := W).
Qed.

End MaybePass.

Section ResizeAccuracy.
Context {P : PIL.Resample}.

(** Whichever pass runs first, every band of every pixel of the resized
    image is the bilinear interpolation of the image at that pixel, up to
    the two roundings to a byte, half a unit each, and the error of the
    fixed-point coefficients of the two passes. *)
Lemma resize_accurate (band : PIL.rgb -> Z) (im : PIL.raster PIL.rgb)
      (xsize ysize i j : Z) :
  In band bands -> PIL.valid_image im ->
  0 < xsize -> 0 < ysize -> 0 <= i < xsize -> 0 <= j < ysize ->
  let bound :=
    (1 + pass_error (PIL.width im) xsize + pass_error (PIL.height im) ysize)%Q in
  (- bound
   <= inject_Z (band (getpixel (PIL.resize im (xsize, ysize)) (i, j)))
      - bilinear_interpolation band im (xsize, ysize) (i, j)
   <= bound)%Q.
Proof.
  intros Hband Hv Hx Hy Hi Hj bound.
  pose proof (valid_image_rectangular Hv) as Hrect.
  destruct Hv as (HH & HW & _ & Hbytes).
  set (W := PIL.width im) in *. set (H := PIL.height im) in *.
  pose proof (pass_error_nonneg HW Hx) as Hph.
  pose proof (pass_error_nonneg HH Hy) as Hpv.
  unfold bilinear_interpolation. cbn [fst snd]. fold W H.
  set (c := interpolate H ysize j (fun y =>
              interpolate W xsize i (fun x => inject_Z (band (getpixel im (x, y)))))).
  unfold PIL.resize. fold W H.
  destruct ((W =? xsize) && (H =? ysize)) eqn:Esame.
  - apply andb_prop in Esame as [Ex Ey]. apply Z.eqb_eq in Ex, Ey. subst xsize ysize.
    unfold c. rewrite interpolate_same by exact Hj. rewrite interpolate_same by exact Hi.
    unfold bound. lra.
  - clear Esame. destruct (PIL.vertical_first (PIL.size im) (xsize, ysize)).
    + set (imV := if negb (ysize =? H)
                  then PIL.ResampleVertical (PIL.coeffs H ysize) im else im).
      assert (HrectV : rectangular (Z.to_nat W) (Z.to_nat ysize) imV)
        by (now apply vertical_rectangular).
      assert (HbytesV : Forall (Forall PIL.byte_rgb) imV)
        by (now apply vertical_bytes).
      pose proof (@horizontal_accurate band Hband imV W ysize HW Hy HrectV HbytesV
                    xsize i j Hx Hi Hj) as H1.
      pose proof (@interpolate_bound W xsize i HW Hx Hi
                    (fun x => inject_Z (band (getpixel imV (x, j))))
                    (fun x => interpolate H ysize j (fun y =>
                                inject_Z (band (getpixel im (x, y)))))
                    ((1 # 2) + pass_error H ysize)%Q
                    (fun x Hx' => @vertical_accurate band Hband im W H HW HH Hrect Hbytes
                                   ysize x j Hy Hx' Hj)) as H2.
      pose proof (@interpolate_swap W xsize i H ysize j
                    (fun x y => inject_Z (band (getpixel im (x, y))))
                    HW Hx Hi HH Hy Hj) as H3.
      cbv beta in H3. fold c in H3. unfold bound.
      set (v := inject_Z (band (getpixel _ (i, j)))) in *.
      set (a := interpolate W xsize i (fun x => inject_Z (band (getpixel imV (x, j))))) in *.
      set (b := interpolate W xsize i _) in H2, H3.
      clearbody v a b c. split; lra.
    + set (imH := if negb (xsize =? W)
                  then PIL.ResampleHorizontal (PIL.coeffs W xsize) im else im).
      assert (HrectH : rectangular (Z.to_nat xsize) (Z.to_nat H) imH)
        by (now apply horizontal_rectangular).
      assert (HbytesH : Forall (Forall PIL.byte_rgb) imH)
        by (now apply horizontal_bytes).
      pose proof (@vertical_accurate band Hband imH xsize H Hx HH HrectH HbytesH
                    ysize i j Hy Hi Hj) as H1.
      pose proof (@interpolate_bound H ysize j HH Hy Hj
                    (fun y => inject_Z (band (getpixel imH (i, y))))
                    (fun y => interpolate W xsize i (fun x =>
                                inject_Z (band (getpixel im (x, y)))))
                    ((1 # 2) + pass_error W xsize)%Q
                    (fun y Hy' => @horizontal_accurate band Hband im W H HW HH Hrect Hbytes
                                    xsize i y Hx Hi Hy')) as H2.
      fold c in H2. unfold bound.
      set (v := inject_Z (band (getpixel _ (i, j)))) in *.
      set (a := interpolate H ysize j (fun y => inject_Z (band (getpixel imH (i, y))))) in *.
      clearbody v a c. split; lra.
Qed.

End ResizeAccuracy.

(** ** The preprocessing pipeline *)

Lemma chunks_concat {A} (n : nat) (ls : list (list A)) :
  Forall (fun l => List.length l = n) ls ->
  chunks n (List.length ls) (List.concat ls) = ls.
Proof.
  induction 1 as [ | l ls Hl _ IH]; cbn [List.length List.concat chunks].
  - reflexivity.
  - subst n. rewrite firstn_app, Nat.sub_diag, firstn_all, firstn_O, app_nil_r.
    rewrite skipn_app, Nat.sub_diag, skipn_all. cbn [app skipn]. now rewrite IH.
Qed.

Lemma plane_length {P B} (f : P -> B) (wn hn : nat) (im : PIL.raster P) :
  rectangular wn hn im -> List.length (flat_map (map f) im) = (hn * wn)%nat.
Proof.
  intros [Hl Hr]. subst hn. induction Hr as [ | row im Hrow _ IH]; cbn [flat_map List.length].
  - reflexivity.
  - rewrite length_app, length_map, IH, Hrow. lia.
Qed.

Lemma map_flat_map_map {P B C} (f : P -> B) (g : B -> C) (im : list (list P)) :
  map g (flat_map (map f) im) = flat_map (map (fun p => g (f p))) im.
Proof.
  induction im as [ | row im IH]; cbn [flat_map map].
  - reflexivity.
  - now rewrite map_app, map_map, IH.
Qed.

Section Preprocess.
Context {A : Arith} {P : PIL.Resample}.

Lemma normalize_to_tensor (im : PIL.raster PIL.rgb) :
  rectangular 128 128 im ->
  Transforms.normalize IMG_MEAN IMG_STD (Transforms.to_tensor im)
  = Ok (mk_nd [3; 128; 128]
          (normalized_plane PIL.band_R 0.485 0.229 im
           ++ normalized_plane PIL.band_G 0.456 0.224 im
           ++ normalized_plane PIL.band_B 0.406 0.225 im)).
Proof.
  intros Hrect.
  unfold Transforms.normalize, Transforms.to_tensor. cbn [shape data].
  rewrite (rectangular_height Hrect), (rectangular_width Hrect) by lia.
  change (Z.of_nat 128) with 128.
  change (existsb (fun s : Q => Qeq_bool s 0) IMG_STD) with false.
  change (negb ((Z.of_nat (List.length IMG_MEAN) =? 3) && (Z.of_nat (List.length IMG_STD) =? 3)))
    with false.
  cbv iota. do 2 f_equal.
  set (g := fun band : PIL.rgb -> Z =>
              flat_map (map (fun p => fdiv (of_Z (band p)) (of_Z 255))) im).
  change (flat_map g [PIL.band_R; PIL.band_G; PIL.band_B])
    with (List.concat [g PIL.band_R; g PIL.band_G; g PIL.band_B]).
  change (Z.to_nat 3) with (List.length [g PIL.band_R; g PIL.band_G; g PIL.band_B]).
  rewrite chunks_concat.
  - cbn [combine map List.concat IMG_MEAN IMG_STD fst snd]. rewrite app_nil_r.
    unfold g, normalized_plane, normalized.
    now rewrite !map_flat_map_map.
  - assert (E : forall band, List.length (g band) = Z.to_nat (128 * 128)).
    { intros band. unfold g. rewrite (plane_length _ Hrect). lia. }
    repeat constructor; apply E.
Qed.

(** The preprocessed tensor of any valid image: three planes of 128 x 128
    normalised values of its resized copy. *)
Lemma preprocess_value (im : PIL.raster PIL.rgb) :
  PIL.valid_image im ->
  let resized := Transforms.resize (IMG_SIZE, IMG_SIZE) im in
  Api.preprocess im
  = Ok (mk_nd [3; 128; 128]
          (normalized_plane PIL.band_R 0.485 0.229 resized
           ++ normalized_plane PIL.band_G 0.456 0.224 resized
           ++ normalized_plane PIL.band_B 0.406 0.225 resized)).
Proof.
  intros Hv resized. unfold Api.preprocess. fold resized.
  apply normalize_to_tensor.
  apply (@resize_rectangular _ im 128 128 Hv); lia.
Qed.

End Preprocess.

Lemma sample_image_valid : PIL.valid_image sample_image.
Proof.
  unfold PIL.valid_image, PIL.byte_rgb, PIL.byte. cbn.
  repeat split; try lia; repeat constructor; cbn; lia.
Qed.

(** ** The pipeline in floating point *)

Lemma exact_rounding (p emin emax : Z) :
  0 <= p -> 0 <= emax -> emin <= 0 -> rounds_to_nearest p emin emax (fun x => x).
Proof.
  intros Hp He Hm. split.
  - intros x y H. exact H.
  - reflexivity.
  - intros x _. replace (x - x)%R with 0%R by ring. rewrite Rabs_R0.
    assert (H1 : (0 < IZR (2 ^ p))%R) by (apply IZR_lt, Z.pow_pos_nonneg; lia).
    assert (H2 : (0 < IZR (2 ^ (1 - emin)))%R) by (apply IZR_lt, Z.pow_pos_nonneg; lia).
    pose proof (Rabs_pos x). pose proof (Rinv_0_lt_compat _ H1).
    pose proof (Rinv_0_lt_compat _ H2).
    unfold Rdiv. nra.
Qed.

Lemma Rabs_le_inv (a b : R) : (Rabs a <= b)%R -> (- b <= a <= b)%R.
Proof. unfold Rabs. destruct (Rcase_abs a); lra. Qed.

Lemma Rle_div_lower (a b c : R) : (0 < c)%R -> (a * c <= b)%R -> (a <= b / c)%R.
Proof.
  intros Hc H. unfold Rdiv. apply Rmult_le_reg_r with c; [ exact Hc | ].
  rewrite Rmult_assoc, Rinv_l by lra. lra.
Qed.

Lemma Rle_div_upper (a b c : R) : (0 < c)%R -> (a <= b * c)%R -> (a / c <= b)%R.
Proof.
  intros Hc H. unfold Rdiv. apply Rmult_le_reg_r with c; [ exact Hc | ].
  rewrite Rmult_assoc, Rinv_l by lra. lra.
Qed.

Section Rounded.
Context {P : PIL.Resample}.
Variables rnd dbl : R -> R.
Hypothesis H32 : binary32 rnd.
Hypothesis H64 : binary64 dbl.

Lemma inv_pow2_small (k : Z) :
  30 <= k -> (0 < / IZR (2 ^ k) <= 1 / 1000000000)%R.
Proof.
  intros Hk.
  assert (H : (1000000000 <= IZR (2 ^ k))%R).
  { apply IZR_le. apply Z.le_trans with (2 ^ 30).
    - apply Z.leb_le. reflexivity.
    - apply Z.pow_le_mono_r; lia. }
  split.
  - apply Rinv_0_lt_compat. lra.
  - unfold Rdiv. rewrite Rmult_1_l. apply Rinv_le_contravar; lra.
Qed.

(** On values of magnitude up to 8, binary32 is off by less than
    5 / 10^7. *)
Lemma rnd_near (x : R) : (Rabs x <= 8)%R -> (Rabs (rnd x - x) <= 5 / 10000000)%R.
Proof.
  intros Hx. destruct H32 as [_ _ He].
  assert (Hbig : (8 <= IZR (2 ^ 127))%R).
  { apply (IZR_le 8). apply Z.leb_le. reflexivity. }
  specialize (He x ltac:(lra)).
  pose proof (@inv_pow2_small (1 - -149) ltac:(lia)) as Heta.
  change (IZR (2 ^ 24)) with 16777216%R in He.
  set (eta := (/ IZR (2 ^ (1 - -149)))%R) in *. lra.
Qed.

(** Reading a literal of magnitude up to 1 as a Python float is off by less
    than 2 / 10^9. *)
Lemma dbl_near (x : R) : (Rabs x <= 1)%R -> (Rabs (dbl x - x) <= 2 / 1000000000)%R.
Proof.
  intros Hx. destruct H64 as [_ _ He].
  assert (Hbig : (1 <= IZR (2 ^ 1023))%R).
  { apply (IZR_le 1). apply Z.leb_le. reflexivity. }
  specialize (He x ltac:(lra)).
  pose proof (@inv_pow2_small (1 - -1074) ltac:(lia)) as Heta.
  pose proof (@inv_pow2_small 53 ltac:(lia)) as Heps.
  set (eta := (/ IZR (2 ^ (1 - -1074)))%R) in *.
  unfold Rdiv in He. set (eps := (/ IZR (2 ^ 53))%R) in *.
  assert (Rabs x * eps <= 1 * (1 / 1000000000))%R.
  { apply Rmult_le_compat; try lra. apply Rabs_pos. }
  lra.
Qed.

Lemma literal_near (q : Q) :
  (0 <= Q2R q <= 1)%R ->
  (Rabs (of_Q (Arith := Rounded_ops rnd dbl) q - Q2R q) <= 6 / 10000000)%R.
Proof.
  intros Hq. cbn [of_Q Rounded_ops].
  assert (Hd : (Rabs (dbl (Q2R q) - Q2R q) <= 2 / 1000000000)%R).
  { apply dbl_near. rewrite Rabs_pos_eq; lra. }
  assert (Hr : (Rabs (rnd (dbl (Q2R q)) - dbl (Q2R q)) <= 5 / 10000000)%R).
  { apply rnd_near. apply Rabs_le. apply Rabs_le_inv in Hd. lra. }
  apply Rabs_le. apply Rabs_le_inv in Hd, Hr. lra.
Qed.

(** [ToTensor]: a byte over 255 lands in the unit interval, rounding
    included. *)
Lemma scaled_unit_interval (b : Z) :
  PIL.byte b ->
  (0 <= fdiv (Arith := Rounded_ops rnd dbl) (of_Z b) (of_Z 255) <= 1)%R.
Proof.
  intros [H0 H1]. cbn [fdiv of_Z Rounded_ops].
  destruct H32 as [Hm Hi _].
  rewrite (Hi b), (Hi 255) by (change (2 ^ 24) with 16777216; lia).
  pose proof (Hi 0 ltac:(change (2 ^ 24) with 16777216; lia)) as E0.
  pose proof (Hi 1 ltac:(change (2 ^ 24) with 16777216; lia)) as E1.
  apply IZR_le in H0, H1.
  split.
  - rewrite <- E0. apply Hm. lra.
  - rewrite <- E1. apply Hm. lra.
Qed.

Lemma to_tensor_unit_interval (im : PIL.raster PIL.rgb) :
  Forall (Forall PIL.byte_rgb) im ->
  Forall (fun v : R => (0 <= v <= 1)%R)
         (data (Transforms.to_tensor (A := Rounded_ops rnd dbl) im)).
Proof.
  intros Hb. unfold Transforms.to_tensor. cbn [data].
  apply Forall_flat_map. repeat constructor;
    apply Forall_flat_map; (eapply Forall_impl; [ | exact Hb ]); intros row Hrow;
    apply Forall_map; (eapply Forall_impl; [ | exact Hrow ]);
    intros p (Hr & Hg & Hbl); now apply scaled_unit_interval.
Qed.

Lemma pass_error_128 (inSize : Z) :
  0 < inSize <= 32768 -> (0 <= pass_error inSize 128 <= 1 # 32)%Q.
Proof.
  intros [H0 H1]. split; [ apply pass_error_nonneg; lia | ].
  unfold pass_error.
  assert (Hs : (inject_Z inSize / inject_Z 128 <= 256)%Q).
  { apply Qle_shift_div_r; [ reflexivity | ].
    change (256 * inject_Z 128)%Q with (inject_Z 32768). now rewrite <- Zle_Qle. }
  set (s := (inject_Z inSize / inject_Z 128)%Q) in *. clearbody s. lra.
Qed.

(** C3: for every valid RGB image, of any width and height, the
    preprocessor carries out three steps in this order, in the arithmetic
    of the service.  It resizes the image to 128 x 128 by bilinear
    interpolation: whichever pass of the resize runs first, every band of
    every pixel of the resized image is the bilinear interpolation of the
    image at that pixel, up to two roundings to a byte and the error of the
    fixed-point coefficients, which for an image of up to 32768 pixels a
    side make less than 17/16 of a gray level.  It turns the bytes into
    floats of [0, 1] (byte / 255), laid out channel first.  It subtracts the
    mean of the channel and divides by its standard deviation.  The result
    is a tensor of shape (3, 128, 128). *)
Theorem preprocess_resize_scale_normalize (im : PIL.raster PIL.rgb) :
  PIL.valid_image im ->
  let resized := Transforms.resize (IMG_SIZE, IMG_SIZE) im in
  let scaled := Transforms.to_tensor (A := Rounded_ops rnd dbl) resized in
  rectangular 128 128 resized
  /\ Forall (Forall PIL.byte_rgb) resized
  /\ (forall band i j,
        In band bands -> 0 <= i < 128 -> 0 <= j < 128 ->
        let error :=
          (inject_Z (band (getpixel resized (i, j)))
           - bilinear_interpolation band im (128, 128)%Z (i, j))%Q in
        let bound :=
          (1 + pass_error (PIL.width im) 128 + pass_error (PIL.height im) 128)%Q in
        (- bound <= error <= bound)%Q
        /\ (PIL.width im <= 32768 -> PIL.height im <= 32768 ->
            (- (17 # 16) <= error <= 17 # 16)%Q))
  /\ shape scaled = [3; 128; 128]
  /\ Forall (fun v : R => (0 <= v <= 1)%R) (data scaled)
  /\ exists out,
       Api.preprocess im = Ok out
       /\ Transforms.normalize IMG_MEAN IMG_STD scaled = Ok out
       /\ shape out = [3; IMG_SIZE; IMG_SIZE]
       /\ List.length (data out) = (3 * (128 * 128))%nat
       /\ data out
          = (normalized_plane PIL.band_R 0.485 0.229 resized
             ++ normalized_plane PIL.band_G 0.456 0.224 resized
             ++ normalized_plane PIL.band_B 0.406 0.225 resized)%list.
Proof.
  intros Hv resized scaled.
  assert (Hrect : rectangular 128 128 resized)
    by (apply (@resize_rectangular _ im 128 128 Hv); lia).
  assert (Hbytes : Forall (Forall PIL.byte_rgb) resized)
    by (apply resize_bytes; apply Hv).
  split; [ exact Hrect | ]. split; [ exact Hbytes | ]. split.
  { intros band i j Hband Hi Hj error bound.
    pose proof (@resize_accurate _ band im 128 128 i j Hband Hv
                  ltac:(lia) ltac:(lia) Hi Hj) as Hacc.
    cbv zeta in Hacc. fold bound in Hacc.
    change (PIL.resize im (128, 128)) with resized in Hacc. fold error in Hacc.
    split; [ exact Hacc | ].
    intros Hw Hh. destruct Hv as (Hh0 & Hw0 & _).
    pose proof (@pass_error_128 (PIL.width im) ltac:(lia)) as Ew.
    pose proof (@pass_error_128 (PIL.height im) ltac:(lia)) as Eh.
    unfold bound in Hacc.
    set (ew := pass_error (PIL.width im) 128) in *.
    set (eh := pass_error (PIL.height im) 128) in *.
    clearbody error ew eh. lra. }
  split.
  { unfold scaled, Transforms.to_tensor. cbn [shape].
    now rewrite (rectangular_height Hrect), (rectangular_width Hrect) by lia. }
  split; [ now apply to_tensor_unit_interval | ].
  eexists. split; [ apply (preprocess_value Hv) | ].
  split; [ apply (normalize_to_tensor Hrect) | ].
  split; [ reflexivity | ]. split; [ | reflexivity ].
  cbn [data]. unfold normalized_plane.
  rewrite !length_app, !(plane_length _ Hrect). lia.
Qed.

(** *** The range of the network input *)

Lemma normalized_rounded_bounds (m s : Q) (lo hi : R) (b : Z) :
  PIL.byte b ->
  (0 <= Q2R m <= 1)%R -> (1 / 5 <= Q2R s <= 1)%R ->
  (lo <= 0)%R -> (0 <= hi)%R ->
  ((lo + 1 / 1000000) * (Q2R s - 1 / 1000000) <= 0 - Q2R m - 2 / 1000000)%R ->
  (1 - Q2R m + 2 / 1000000 <= (hi - 1 / 1000000) * (Q2R s - 1 / 1000000))%R ->
  (lo <= normalized (A := Rounded_ops rnd dbl) m s b <= hi)%R.
Proof.
  intros Hb Hm Hs Hlo Hhi Hlow Hupp. unfold normalized.
  pose proof (scaled_unit_interval Hb) as Hp.
  pose proof (literal_near Hm) as Em. pose proof (literal_near (q := s) ltac:(lra)) as Es.
  set (p := fdiv (of_Z b) (of_Z 255)) in *.
  set (m' := of_Q m) in *. set (s' := of_Q s) in *.
  apply Rabs_le_inv in Em, Es.
  cbn [fdiv fsub Rounded_ops].
  assert (Ed : (Rabs (rnd (p - m') - (p - m')) <= 5 / 10000000)%R).
  { apply rnd_near. apply Rabs_le. lra. }
  apply Rabs_le_inv in Ed.
  set (d := rnd (p - m')) in *.
  assert (Hs' : (0 < s')%R) by lra.
  assert (Hq : (lo + 1 / 1000000 <= d / s' <= hi - 1 / 1000000)%R).
  { split.
    - apply Rle_div_lower; [ exact Hs' | ].
      assert ((lo + 1 / 1000000) * s' <= (lo + 1 / 1000000) * (Q2R s - 1 / 1000000))%R.
      { destruct (Rle_dec (lo + 1 / 1000000) 0) as [Hneg | Hpos'].
        - apply Rmult_le_compat_neg_l; lra.
        - nra. }
      lra.
    - apply Rle_div_upper; [ exact Hs' | ].
      assert ((hi - 1 / 1000000) * (Q2R s - 1 / 1000000) <= (hi - 1 / 1000000) * s')%R.
      { destruct (Rle_dec 0 (hi - 1 / 1000000)) as [Hpos' | Hneg].
        - apply Rmult_le_compat_l; lra.
        - nra. }
      lra. }
  assert (Eq : (Rabs (rnd (d / s') - d / s') <= 5 / 10000000)%R).
  { apply rnd_near. apply Rabs_le.
    assert (- 8 * s' <= d <= 8 * s')%R by lra.
    split.
    - apply Rle_div_lower; [ exact Hs' | lra ].
    - apply Rle_div_upper; [ exact Hs' | lra ]. }
  apply Rabs_le_inv in Eq. lra.
Qed.

Lemma normalized_plane_rounded (band : PIL.rgb -> Z) (m s : Q) (lo hi : R)
      (im : PIL.raster PIL.rgb) :
  (forall p, PIL.byte_rgb p -> PIL.byte (band p)) ->
  (0 <= Q2R m <= 1)%R -> (1 / 5 <= Q2R s <= 1)%R ->
  (lo <= 0)%R -> (0 <= hi)%R ->
  ((lo + 1 / 1000000) * (Q2R s - 1 / 1000000) <= 0 - Q2R m - 2 / 1000000)%R ->
  (1 - Q2R m + 2 / 1000000 <= (hi - 1 / 1000000) * (Q2R s - 1 / 1000000))%R ->
  Forall (Forall PIL.byte_rgb) im ->
  Forall (fun v : R => (lo <= v <= hi)%R)
         (normalized_plane (A := Rounded_ops rnd dbl) band m s im).
Proof.
  intros Hband Hm Hs Hlo Hhi Hlow Hupp Hb. unfold normalized_plane.
  apply Forall_flat_map. eapply Forall_impl; [ | exact Hb ]. intros row Hrow.
  apply Forall_map. eapply Forall_impl; [ | exact Hrow ]. intros p Hp.
  now apply normalized_rounded_bounds; [ apply Hband | .. ].
Qed.

(** X12: the range of what the network is given, in the arithmetic of
    the service (binary32, the configuration read as Python floats).  For
    every valid image the preprocessed tensor holds, channel by channel,
    values within [-2.118, 2.249] for red, [-2.036, 2.429] for green and
    [-1.805, 2.641] for blue: the exact bounds (0 - mean) / std and
    (1 - mean) / std, which are -2.1179 and 2.2489, -2.0357 and 2.4286,
    -1.8044 and 2.64, widened by more than the rounding can add. *)
Theorem preprocess_range (im : PIL.raster PIL.rgb) :
  PIL.valid_image im ->
  exists red green blue : list R,
    Api.preprocess (A := Rounded_ops rnd dbl) im
    = Ok (mk_nd [3; 128; 128] (red ++ green ++ blue))
    /\ List.length red = (128 * 128)%nat
    /\ List.length green = (128 * 128)%nat
    /\ List.length blue = (128 * 128)%nat
    /\ Forall (fun v => (-2.118 <= v <= 2.249)%R) red
    /\ Forall (fun v => (-2.036 <= v <= 2.429)%R) green
    /\ Forall (fun v => (-1.805 <= v <= 2.641)%R) blue.
Proof.
  intros Hv.
  set (resized := Transforms.resize (IMG_SIZE, IMG_SIZE) im).
  assert (Hrect : rectangular 128 128 resized)
    by (apply (@resize_rectangular _ im 128 128 Hv); lia).
  assert (Hb : Forall (Forall PIL.byte_rgb) resized) by (apply resize_bytes; apply Hv).
  exists (normalized_plane (A := Rounded_ops rnd dbl) PIL.band_R 0.485 0.229 resized),
         (normalized_plane (A := Rounded_ops rnd dbl) PIL.band_G 0.456 0.224 resized),
         (normalized_plane (A := Rounded_ops rnd dbl) PIL.band_B 0.406 0.225 resized).
  split; [ exact (preprocess_value (A := Rounded_ops rnd dbl) Hv) | ].
  unfold normalized_plane at 1 2 3. rewrite !(plane_length _ Hrect).
  repeat (split; [ reflexivity | ]).
  split; [ | split ]; apply normalized_plane_rounded;
    try exact Hb; try (intros p Hp; apply Hp);
    unfold Q2R; cbn [Qnum Qden]; lra.
Qed.

End Rounded.

Lemma preprocess_range_witness :
  PIL.valid_image sample_image
  /\ exists out,
       Api.preprocess (A := Rounded_ops (fun x => x) (fun x => x)) sample_image = Ok out
       /\ Forall (fun v => (-2.118 <= v <= 2.641)%R) (data out).
Proof.
  split; [ exact sample_image_valid | ].
  destruct (@preprocess_range _ (fun x => x) (fun x => x)
              (@exact_rounding 24 (-149) 127 ltac:(lia) ltac:(lia) ltac:(lia))
              (@exact_rounding 53 (-1074) 1023 ltac:(lia) ltac:(lia) ltac:(lia))
              sample_image sample_image_valid)
    as (red & green & blue & Hout & _ & _ & _ & Hr & Hg & Hb).
  eexists. split; [ exact Hout | ]. cbn [data].
  repeat (apply Forall_app; split);
    (eapply Forall_impl; [ | eassumption ]); cbn beta; intros v Hvb; lra.
Defined.

Lemma preprocess_resize_scale_normalize_witness :
  PIL.valid_image sample_image
  /\ (exists out,
        Api.preprocess (A := Rounded_ops (fun x => x) (fun x => x)) sample_image = Ok out
        /\ shape out = [3; 128; 128]
        /\ List.length (data out) = (3 * (128 * 128))%nat)
  /\ (- (17 # 16)
      <= inject_Z (PIL.band_G (getpixel (Transforms.resize (IMG_SIZE, IMG_SIZE) sample_image)
                                        (127, 0)%Z))
         - bilinear_interpolation PIL.band_G sample_image (128, 128)%Z (127, 0)%Z
      <= 17 # 16)%Q.
Proof.
  split; [ exact sample_image_valid | ].
  destruct (@preprocess_resize_scale_normalize _ (fun x => x) (fun x => x)
              (@exact_rounding 24 (-149) 127 ltac:(lia) ltac:(lia) ltac:(lia))
              sample_image sample_image_valid)
    as (_ & _ & Hacc & _ & _ & out & Hout & _ & Hshape & Hlen & _).
  split.
  - exists out. split; [ exact Hout | ]. split; [ exact Hshape | exact Hlen ].
  - apply (Hacc PIL.band_G 127 0); cbn; auto; lia.
Defined.

Ltac resize_by_computation :=
  unfold PIL.resize;
  match goal with
  | |- context [PIL.vertical_first ?a ?b] => destruct (PIL.vertical_first a b)
  end;
  vm_compute; reflexivity.

(** Upscaling the row (0, 255) to four pixels: the known values of Pillow. *)
Example resize_upscale_row (P : PIL.Resample) :
  PIL.resize [[(0, 0, 0); (255, 255, 255)]] (4, 1)
  = [[(0, 0, 0); (64, 64, 64); (191, 191, 191); (255, 255, 255)]].
Proof. resize_by_computation. Qed.

(** The order of the passes shows: the intermediate image is rounded. *)
Example resize_order_shows :
  let im := [[(0, 0, 0); (0, 0, 0)]; [(1, 1, 1); (3, 3, 3)]] in
  PIL.resize (P := horizontal_first) im (3, 1) = [[(1, 1, 1); (1, 1, 1); (2, 2, 2)]]
  /\ PIL.resize (P := vertical_then_horizontal) im (3, 1)
     = [[(1, 1, 1); (2, 2, 2); (2, 2, 2)]].
Proof. split; vm_compute; reflexivity. Qed.

(** ** A uniform gray image *)

(** Resampling the uniform 256 x 256 image of value 128 gives the uniform
    128 x 128 image of value 128: the fixed-point weights of every window
    add up to one. *)
Lemma resize_uniform_gray (P : PIL.Resample) :
  PIL.resize (uniform_image 256 256 (128, 128, 128)) (IMG_SIZE, IMG_SIZE)
  = uniform_image 128 128 (128, 128, 128).
Proof. resize_by_computation. Qed.

Lemma uniform_rectangular {P} (wn hn : nat) (p : P) :
  rectangular wn hn (uniform_image wn hn p).
Proof.
  unfold rectangular, uniform_image. split.
  - apply repeat_length.
  - apply Forall_forall. intros row Hin. apply repeat_spec in Hin. subst row.
    apply repeat_length.
Qed.

Lemma normalized_plane_uniform {A : Arith} (band : PIL.rgb -> Z) (m s : Q)
    (wn hn : nat) (p : PIL.rgb) :
  normalized_plane band m s (uniform_image wn hn p)
  = repeat (normalized m s (band p)) (hn * wn).
Proof.
  unfold normalized_plane, uniform_image.
  induction hn as [ | hn IH]; cbn [repeat flat_map Nat.mul].
  - reflexivity.
  - rewrite IH, repeat_app. f_equal.
    apply map_repeat.
Qed.

(** C6: the uniform gray 256 x 256 image of value 128, preprocessed with
    the mean (0.485, 0.456, 0.406), the standard deviation
    (0.229, 0.224, 0.225) and the side 128, gives the tensor of shape
    (3, 128, 128) whose channel c holds (128 / 255 - mean_c) / std_c at
    every position, in whatever arithmetic the operations are carried out
    and whichever pass of the resize runs first. *)
Theorem preprocess_uniform_gray (A : Arith) (P : PIL.Resample) :
  Api.preprocess (uniform_image 256 256 (128, 128, 128))
  = Ok (mk_nd [3; 128; 128]
          (repeat (fdiv (fsub (fdiv (of_Z 128) (of_Z 255)) (of_Q 0.485)) (of_Q 0.229))
                  (128 * 128)
           ++ repeat (fdiv (fsub (fdiv (of_Z 128) (of_Z 255)) (of_Q 0.456)) (of_Q 0.224))
                     (128 * 128)
           ++ repeat (fdiv (fsub (fdiv (of_Z 128) (of_Z 255)) (of_Q 0.406)) (of_Q 0.225))
                     (128 * 128))).
Proof.
  unfold Api.preprocess, Transforms.resize. cbn [fst snd].
  rewrite resize_uniform_gray.
  rewrite (normalize_to_tensor (uniform_rectangular 128 128 (128, 128, 128))).
  now rewrite !normalized_plane_uniform.
Qed.


(** In exact rationals the three values are 865 / 11679, 293 / 1428 and
    4894 / 11475. *)
Example uniform_gray_values :
  map Qred
      [normalized (A := QArith_ops) 0.485 0.229 128;
       normalized (A := QArith_ops) 0.456 0.224 128;
       normalized (A := QArith_ops) 0.406 0.225 128]
  = [(865 # 11679)%Q; (293 # 1428)%Q; (4894 # 11475)%Q].
Proof. vm_compute. reflexivity. Qed.

(** ** Sigmoid and threshold *)

Lemma mask_data {A : Arith} {Act : Activation A} (logits : nd F) :
  data (squeeze (nd_map Api.binarize (nd_map sigmoid logits)))
  = map classify (data logits).
Proof. unfold squeeze, nd_map, classify. cbn [data]. apply map_map. Qed.

Lemma Rsigmoid_0 : Rsigmoid 0 = (1 / 2)%R.
Proof. unfold Rsigmoid. rewrite Ropp_0, exp_0. lra. Qed.

Lemma exp_le (a b : R) : (a <= b)%R -> (exp a <= exp b)%R.
Proof.
  intros [Hlt | ->].
  - left. now apply exp_increasing.
  - right. reflexivity.
Qed.

Lemma Rsigmoid_monotone (a b : R) : (a <= b)%R -> (Rsigmoid a <= Rsigmoid b)%R.
Proof.
  intros Hab. unfold Rsigmoid.
  assert (He : (exp (- b) <= exp (- a))%R) by (apply exp_le; lra).
  pose proof (exp_pos (- a)). pose proof (exp_pos (- b)).
  unfold Rdiv. rewrite !Rmult_1_l.
  apply Rinv_le_contravar; lra.
Qed.

Lemma threshold_half : Q2R 0.5 = (1 / 2)%R.
Proof. unfold Q2R. cbn. lra. Qed.

Lemma binarize_foreground (p : R) :
  Api.binarize (A := RArith_ops) p = 1 <-> (p > 1 / 2)%R.
Proof.
  unfold Api.binarize. cbn [fgtb of_Q RActivation RArith_ops]. unfold Rgtb.
  rewrite threshold_half. destruct (Rlt_dec (1 / 2) p); split; intros; try lra; try lia.
Qed.

Lemma binarize_background (p : R) :
  Api.binarize (A := RArith_ops) p = 0 <-> (p <= 1 / 2)%R.
Proof.
  unfold Api.binarize. cbn [fgtb of_Q RActivation RArith_ops]. unfold Rgtb.
  rewrite threshold_half. destruct (Rlt_dec (1 / 2) p); split; intros; try lra; try lia.
Qed.

(** C5: the decision is monotone in the logit: if [a <= b] and [a] is
    foreground then [b] is foreground. *)
Theorem classify_monotone (a b : R) :
  (a <= b)%R -> classify a = 1 -> classify b = 1.
Proof.
  intros Hab Ha. unfold classify in *.
  apply binarize_foreground in Ha. apply binarize_foreground.
  cbn [sigmoid RActivation] in *.
  pose proof (Rsigmoid_monotone Hab). lra.
Qed.

Lemma classify_one : classify 1%R = 1.
Proof.
  unfold classify. apply binarize_foreground. cbn [sigmoid RActivation].
  unfold Rsigmoid.
  assert (H : (exp (Ropp 1) < exp 0)%R) by (apply exp_increasing; lra).
  rewrite exp_0 in H.
  pose proof (exp_pos (Ropp 1)).
  unfold Rdiv, Rgt. rewrite !Rmult_1_l.
  apply Rinv_lt_contravar; lra.
Qed.

Lemma classify_monotone_witness :
  (1 <= 2)%R /\ classify 1%R = 1 /\ classify 2%R = 1.
Proof.
  assert (H12 : (1 <= 2)%R) by lra.
  split; [ exact H12 | ]. split; [ exact classify_one | ].
  exact (classify_monotone H12 classify_one).
Defined.

(** ** The overlay *)

Lemma byte_cases (P : Z -> bool) :
  forallb P (range 256) = true -> forall v, PIL.byte v -> P v = true.
Proof.
  intros H v [H0 H1]. rewrite forallb_forall in H. apply H.
  unfold range. replace v with (Z.of_nat (Z.to_nat v)) by lia.
  apply in_map, in_seq. lia.
Qed.

Lemma composite_band_120_blend (src : Z) :
  src = 255 \/ src = 0 ->
  forall v, PIL.byte v -> composite_band_120 src v = alpha_blend src v 120.
Proof.
  intros Hsrc v Hv. apply Z.eqb_eq.
  destruct Hsrc as [-> | ->].
  - apply (byte_cases (fun v => composite_band_120 255 v =? alpha_blend 255 v 120));
      [ vm_compute; reflexivity | exact Hv ].
  - apply (byte_cases (fun v => composite_band_120 0 v =? alpha_blend 0 v 120));
      [ vm_compute; reflexivity | exact Hv ].
Qed.

Lemma composite_red_120 (p : PIL.rgb) :
  PIL.byte_rgb p ->
  PIL.composite_pixel (let '(r, g, b) := p in (r, g, b, 255)) (255, 0, 0, 120)
  = overlay_pixel p 1.
Proof.
  destruct p as [[r g] b]. intros (Hr & Hg & Hb). cbn in Hr, Hg, Hb.
  unfold overlay_pixel. cbn [Z.eqb].
  rewrite <- (composite_band_120_blend (or_introl eq_refl) Hr).
  rewrite <- (composite_band_120_blend (or_intror eq_refl) Hg).
  rewrite <- (composite_band_120_blend (or_intror eq_refl) Hb).
  reflexivity.
Qed.

Lemma composite_transparent (p : PIL.rgb) :
  PIL.composite_pixel (let '(r, g, b) := p in (r, g, b, 255)) (255, 0, 0, 0)
  = overlay_pixel p 0.
Proof. destruct p as [[r g] b]. reflexivity. Qed.

Lemma chunks_map {A B} (f : A -> B) (n k : nat) (l : list A) :
  chunks n k (map f l) = map (map f) (chunks n k l).
Proof.
  revert l. induction k as [ | k IH]; intros l; cbn [chunks map].
  - reflexivity.
  - now rewrite firstn_map, skipn_map, IH.
Qed.

Lemma chunks_rectangular {A} (n k : nat) (l : list A) :
  List.length l = (k * n)%nat -> rectangular n k (chunks n k l).
Proof.
  unfold rectangular. revert l. induction k as [ | k IH]; intros l Hl; cbn [chunks].
  - split; [ reflexivity | constructor ].
  - destruct (IH (skipn n l)) as [IH1 IH2].
    { rewrite length_skipn. lia. }
    split; [ cbn; now rewrite IH1 | ].
    constructor; [ | exact IH2 ]. rewrite length_firstn. lia.
Qed.

Lemma chunks_In {A} (n k : nat) (l row : list A) (x : A) :
  In row (chunks n k l) -> In x row -> In x l.
Proof.
  revert l. induction k as [ | k IH]; intros l Hrow Hx; cbn [chunks] in Hrow.
  - destruct Hrow.
  - destruct Hrow as [<- | Hrow].
    + rewrite <- (firstn_skipn n l). apply in_or_app. now left.
    + rewrite <- (firstn_skipn n l). apply in_or_app. right. now apply IH.
Qed.

Lemma combine_repeat {A B} (x : A) (n : nat) (l : list B) :
  List.length l = n -> combine (repeat x n) l = map (pair x) l.
Proof.
  intros <-. induction l as [ | b l IH]; cbn [List.length repeat combine map].
  - reflexivity.
  - now rewrite IH.
Qed.

Lemma combine_map_map {A B C D} (f : A -> C) (g : B -> D) (l : list A) (l' : list B) :
  combine (map f l) (map g l') = map (fun ab => (f (fst ab), g (snd ab))) (combine l l').
Proof.
  revert l'. induction l as [ | a l IH]; intros [ | b l']; cbn [map combine fst snd];
    try reflexivity.
  now rewrite IH.
Qed.

Lemma combine_rectangular {A B C} (f : list (A * B) -> list C) (wn hn : nat)
    (a : list (list A)) (b : list (list B)) :
  (forall l, List.length (f l) = List.length l) ->
  rectangular wn hn a -> rectangular wn hn b ->
  rectangular wn hn (map (fun ab => f (combine (fst ab) (snd ab))) (combine a b)).
Proof.
  intros Hf [Ha1 Ha2] [Hb1 Hb2]. split.
  - rewrite length_map, length_combine. lia.
  - apply Forall_map, Forall_forall. intros [ra rb] Hin. cbn [fst snd].
    rewrite Hf, length_combine.
    rewrite Forall_forall in Ha2, Hb2.
    rewrite (Ha2 ra (in_combine_l _ _ _ _ Hin)), (Hb2 rb (in_combine_r _ _ _ _ Hin)). lia.
Qed.

(** The alpha band of the overlay: 120 where the mask is 1, 0 where it is 0. *)
Lemma alpha_of_mask (m : Z) :
  m = 0 \/ m = 1 ->
  (if (m * 255) mod 256 >? 0 then 120 else 0) = (if m =? 0 then 0 else 120).
Proof. intros [-> | ->]; reflexivity. Qed.

Lemma same_size_rectangular {P1 P2} (wn hn : nat) (a : PIL.raster P1) (b : PIL.raster P2) :
  (0 < hn)%nat -> rectangular wn hn a -> rectangular wn hn b -> PIL.same_size a b = true.
Proof.
  intros Hpos Ha Hb. unfold PIL.same_size.
  rewrite (rectangular_width Ha), (rectangular_width Hb) by assumption.
  rewrite (rectangular_height Ha), (rectangular_height Hb).
  now rewrite !Z.eqb_refl.
Qed.

Lemma map_map_rectangular {A B} (f : A -> B) (wn hn : nat) (im : list (list A)) :
  rectangular wn hn im -> rectangular wn hn (map (map f) im).
Proof.
  intros [H1 H2]. split.
  - now rewrite length_map.
  - apply Forall_map. eapply Forall_impl; [ | exact H2 ].
    intros row Hrow. now rewrite length_map.
Qed.

Lemma map_map_map {A B C} (f : B -> C) (g : A -> B) (l : list (list A)) :
  map (map f) (map (map g) l) = map (map (fun x => f (g x))) l.
Proof. rewrite map_map. apply map_ext. intros row. apply map_map. Qed.

Lemma zip2_ext {A B C} (f g : A -> B -> C) (a : list (list A)) (b : list (list B)) :
  (forall ra rb p m, In (ra, rb) (combine a b) -> In (p, m) (combine ra rb) -> f p m = g p m) ->
  map (fun rm => map (fun pm => f (fst pm) (snd pm)) (combine (fst rm) (snd rm))) (combine a b)
  = map (fun rm => map (fun pm => g (fst pm) (snd pm)) (combine (fst rm) (snd rm))) (combine a b).
Proof.
  intros H. apply map_ext_in. intros [ra rb] Hrows. cbn [fst snd].
  apply map_ext_in. intros [p m] Hpm. cbn [fst snd]. now apply (H ra rb).
Qed.

(** Setting the alpha band of a fresh image of one colour. *)
Lemma putalpha_new (wn hn : nat) (c : PIL.rgba) (alpha : PIL.raster Z) :
  (0 < hn)%nat -> rectangular wn hn alpha ->
  PIL.putalpha (PIL.new (Z.of_nat wn, Z.of_nat hn) c) alpha
  = Ok (map (map (PIL.set_alpha c)) alpha).
Proof.
  intros Hpos Halpha. unfold PIL.putalpha, PIL.new. cbn [fst snd].
  rewrite !Nat2Z.id.
  change (repeat (repeat c wn) hn) with (uniform_image wn hn c).
  rewrite (same_size_rectangular Hpos (uniform_rectangular wn hn c) Halpha).
  unfold uniform_image. f_equal. destruct Halpha as [Hl Hrows].
  rewrite (@combine_repeat _ _ _ _ _ Hl), map_map. cbn [fst snd].
  apply map_ext_in. intros arow Hin.
  rewrite Forall_forall in Hrows.
  now rewrite (@combine_repeat _ _ _ _ _ (Hrows arow Hin)), map_map.
Qed.

(** C7: the overlay of a mask of zeros and ones on the resized image is a
    four-channel raster of the size of the resized image; where the mask is
    0 the pixel is the source pixel (opaque), and where the mask is 1 each
    channel is the blend of red (255, 0, 0) at alpha 120 of 255 over the
    source channel, rounded to the nearest integer. *)
Theorem overlay_blends_red (resized : PIL.raster PIL.rgb) (mask : nd Z) (wn hn : nat) :
  (0 < hn)%nat ->
  rectangular wn hn resized ->
  Forall (Forall PIL.byte_rgb) resized ->
  shape mask = [Z.of_nat hn; Z.of_nat wn] ->
  List.length (data mask) = (hn * wn)%nat ->
  Forall (fun m => m = 0 \/ m = 1) (data mask) ->
  Api.blend_overlay resized mask = Ok (overlay_of resized (chunks wn hn (data mask)))
  /\ rectangular wn hn (overlay_of resized (chunks wn hn (data mask)))
  /\ (forall r g b, overlay_pixel (r, g, b) 0 = (r, g, b, 255))
  /\ (forall r g b,
        overlay_pixel (r, g, b) 1
        = ((255 * 120 + r * 135 + 127) / 255, (g * 135 + 127) / 255,
           (b * 135 + 127) / 255, 255))
  /\ (forall fg bg,
        - 127 <= 255 * alpha_blend fg bg 120 - (fg * 120 + bg * (255 - 120)) <= 127).
Proof.
  intros Hpos Hrect Hbytes Hshape Hlen Hbits.
  pose proof (chunks_rectangular wn hn (data mask) Hlen) as Hrows.
  split; [ | split; [ | split; [ | split ] ] ].
  - unfold Api.blend_overlay, Api.composite_mask, PIL.fromarray_L, Api.to_uint8.
    cbn [shape nd_map data]. rewrite Hshape, !Nat2Z.id. cbn [exc_bind].
    rewrite chunks_map. unfold PIL.point. rewrite map_map_map.
    unfold PIL.size.
    rewrite (rectangular_width Hrect), (rectangular_height Hrect) by assumption.
    rewrite putalpha_new by (try assumption; now apply map_map_rectangular).
    cbn [exc_bind]. rewrite map_map_map.
    unfold PIL.alpha_composite, PIL.convert_RGBA.
    rewrite (@same_size_rectangular _ _ wn hn) by
      (try assumption; now apply map_map_rectangular).
    f_equal. unfold overlay_of.
    rewrite combine_map_map, map_map. cbn [fst snd].
    erewrite map_ext; [ | intros rm; rewrite combine_map_map, map_map; reflexivity ].
    cbn [fst snd].
    apply (zip2_ext
             (fun p m => PIL.composite_pixel (let '(r, g, b) := p in (r, g, b, 255))
                           (PIL.set_alpha (255, 0, 0, 0)
                              (if (m * 255) mod 256 >? 0 then 120 else 0)))
             overlay_pixel).
    intros ra rb p m Hin Hpm.
    assert (Hp : PIL.byte_rgb p).
    { rewrite Forall_forall in Hbytes.
      pose proof (Hbytes ra (in_combine_l _ _ _ _ Hin)) as Hra.
      rewrite Forall_forall in Hra. exact (Hra p (in_combine_l _ _ _ _ Hpm)). }
    assert (Hm : m = 0 \/ m = 1).
    { rewrite Forall_forall in Hbits. apply Hbits.
      eapply chunks_In; [ exact (in_combine_r _ _ _ _ Hin) | exact (in_combine_r _ _ _ _ Hpm) ]. }
    destruct Hm as [-> | ->].
    + apply composite_transparent.
    + now apply composite_red_120.
  - unfold overlay_of.
    apply (combine_rectangular
             (fun l => map (fun pm : PIL.rgb * Z => overlay_pixel (fst pm) (snd pm)) l));
      [ intros l; apply length_map | assumption | assumption ].
  - reflexivity.
  - reflexivity.
  - intros fg bg. unfold alpha_blend.
    pose proof (Z.mul_div_le (fg * 120 + bg * (255 - 120) + 127) 255).
    pose proof (Z.mul_succ_div_gt (fg * 120 + bg * (255 - 120) + 127) 255).
    lia.
Qed.

(** ** The request handlers *)

Section Requests.
Context {T : Torch} {A : Arith} {Act : Activation A} {D : Device T A}
        {P : PIL.Resample}.
Variable Image_open : string -> exc (PIL.raster PIL.rgb).

Lemma call_keeps {S B} (r : exc B) (s : S) : snd (call r s) = s.
Proof. reflexivity. Qed.

Lemma infer_keeps (t : nd F) (model : UNet.t) :
  UNet.training model = false -> snd (Api.infer t model) = model.
Proof.
  intros H. unfold Api.infer. apply bind_keeps.
  - now apply UNet_forward_keeps.
  - reflexivity.
Qed.

Lemma predict_mask_from_image_keeps (image : PIL.raster PIL.rgb) (model : UNet.t) :
  UNet.training model = false -> snd (Api.predict_mask_from_image image model) = model.
Proof.
  intros H. unfold Api.predict_mask_from_image. apply bind_keeps.
  - apply call_keeps.
  - intros t. now apply infer_keeps.
Qed.

Lemma try_keeps (endpoint : UploadFile -> UNet.t -> response * UNet.t)
      (body : UploadFile -> M UNet.t response) (file : UploadFile) (model : UNet.t) :
  In (endpoint, body) (Api.endpoints Image_open) ->
  UNet.training model = false -> snd (body file model) = model.
Proof.
  intros Hin H. cbn in Hin.
  destruct Hin as [E | [E | [E | []]]]; injection E as <- <-.
  - unfold Api.predict_segmentation_try.
    apply bind_keeps; [ apply call_keeps | intros image ].
    apply bind_keeps; [ apply call_keeps | intros t ].
    apply bind_keeps; [ now apply infer_keeps | reflexivity ].
  - unfold Api.predict_mask_png_try.
    apply bind_keeps; [ apply call_keeps | intros image ].
    apply bind_keeps; [ now apply predict_mask_from_image_keeps | intros mask ].
    apply bind_keeps; [ apply call_keeps | reflexivity ].
  - unfold Api.predict_overlay_png_try.
    apply bind_keeps; [ apply call_keeps | intros image ].
    apply bind_keeps; [ now apply predict_mask_from_image_keeps | intros mask ].
    apply bind_keeps; [ apply call_keeps | reflexivity ].
Qed.

Lemma endpoint_unfold (endpoint : UploadFile -> UNet.t -> response * UNet.t)
      (body : UploadFile -> M UNet.t response) (file : UploadFile) (model : UNet.t) :
  In (endpoint, body) (Api.endpoints Image_open) ->
  endpoint file model
  = match content_type file with
    | None => (Api.no_startswith, model)
    | Some declared =>
        if negb (prefix "image/" declared) then (Api.invalid_file_type, model)
        else Api.guarded (body file) model
    end.
Proof.
  intros Hin. cbn in Hin.
  destruct Hin as [E | [E | [E | []]]]; injection E as <- <-; reflexivity.
Qed.

Lemma is_image_declared (file : UploadFile) :
  Api.is_image file = true ->
  exists declared, content_type file = Some declared /\ prefix "image/" declared = true.
Proof.
  unfold Api.is_image. destruct (content_type file) as [declared | ]; [ | discriminate ].
  intros H. now exists declared.
Qed.

Lemma endpoint_image (endpoint : UploadFile -> UNet.t -> response * UNet.t)
      (body : UploadFile -> M UNet.t response) (file : UploadFile) (model : UNet.t) :
  In (endpoint, body) (Api.endpoints Image_open) ->
  Api.is_image file = true ->
  endpoint file model = Api.guarded (body file) model.
Proof.
  intros Hin H. rewrite (endpoint_unfold file model Hin).
  destruct (@is_image_declared file H) as (declared & -> & ->). reflexivity.
Qed.

Lemma try_decode_error (endpoint : UploadFile -> UNet.t -> response * UNet.t)
      (body : UploadFile -> M UNet.t response) (file : UploadFile) (model : UNet.t)
      (e : string) :
  In (endpoint, body) (Api.endpoints Image_open) ->
  Image_open (contents file) = Raise e -> body file model = (Raise e, model).
Proof.
  intros Hin He. cbn in Hin.
  destruct Hin as [E | [E | [E | []]]]; injection E as <- <-;
    unfold Api.predict_segmentation_try, Api.predict_mask_png_try,
      Api.predict_overlay_png_try, bind, call; now rewrite He.
Qed.

Lemma endpoint_keeps
    (endpoint : UploadFile -> UNet.t -> response * UNet.t)
    (body : UploadFile -> M UNet.t response) (file : UploadFile) (model : UNet.t) :
  In (endpoint, body) (Api.endpoints Image_open) ->
  UNet.training model = false -> snd (endpoint file model) = model.
Proof.
  intros Hin Heval. rewrite (endpoint_unfold file model Hin).
  destruct (content_type file) as [declared | ]; [ | reflexivity ].
  destruct (negb (prefix "image/" declared)); [ reflexivity | ].
  unfold Api.guarded. pose proof (@try_keeps endpoint body file model Hin Heval) as Hk.
  destruct (body file model) as [[r | e] model']; exact Hk.
Qed.

(** C9: on each of the three prediction routes, a file whose declared
    content type does not start with image/ is answered 400 at once,
    whatever the decoder and the model would do, and the model is left as
    it was; for an image type, whatever the body of the [try] raises, a
    decoding error in particular, is answered by the one failure response,
    status 500 with the detail "Prediction failed: " followed by the
    message; and a model in evaluation mode is the same after the request,
    whether it succeeded or failed. *)
Theorem request_errors_are_contained
    (endpoint : UploadFile -> UNet.t -> response * UNet.t)
    (body : UploadFile -> M UNet.t response) (file : UploadFile) (model : UNet.t) :
  In (endpoint, body) (Api.endpoints Image_open) ->
  (forall declared, content_type file = Some declared ->
   prefix "image/" declared = false ->
   endpoint file model
   = (HTTPException 400 "Invalid file type. Please upload an image.", model))
  /\ (Api.is_image file = true ->
      forall e model', body file model = (Raise e, model') ->
      endpoint file model = (HTTPException 500 ("Prediction failed: " ++ e), model'))
  /\ (Api.is_image file = true ->
      forall e, Image_open (contents file) = Raise e ->
      endpoint file model = (HTTPException 500 ("Prediction failed: " ++ e), model))
  /\ (Api.is_image file = true ->
      forall r model', body file model = (Ok r, model') ->
      endpoint file model = (r, model'))
  /\ (UNet.training model = false -> snd (endpoint file model) = model).
Proof.
  intros Hin.
  split; [ | split; [ | split; [ | split ] ] ].
  - intros declared Hd Hp. rewrite (endpoint_unfold file model Hin), Hd, Hp. reflexivity.
  - intros H e model' E. rewrite (endpoint_image file model Hin H).
    unfold Api.guarded. now rewrite E.
  - intros H e E. rewrite (endpoint_image file model Hin H).
    unfold Api.guarded. now rewrite (try_decode_error file model Hin E).
  - intros H r model' E. rewrite (endpoint_image file model Hin H).
    unfold Api.guarded. now rewrite E.
  - intros Heval. now apply (@endpoint_keeps endpoint body).
Qed.

Lemma run_keeps {B} (m : M UNet.t B) (model : UNet.t) (r : exc B) :
  snd (m model) = model -> fst (m model) = r -> m model = (r, model).
Proof. destruct (m model) as [r' model']. cbn. now intros -> ->. Qed.

(** C10: for an upload that decodes to an image, the mask route and the
    overlay route resize it alike and call [predict_mask_from_image] on the
    resized image; when that returns a mask, the PNG of the mask route is
    the image [mask_image] made from it and the overlay route composites
    the very same [mask_image] onto the resized image, also when it runs
    after the mask route; when it raises, both routes answer with the same
    failure. *)
Theorem mask_and_overlay_share_the_mask
    (file : UploadFile) (model : UNet.t) (image : PIL.raster PIL.rgb) :
  UNet.training model = false ->
  Api.is_image file = true ->
  Image_open (contents file) = Ok image ->
  let resized := PIL.resize image (IMG_SIZE, IMG_SIZE) in
  (forall mask mask_image,
     fst (Api.predict_mask_from_image resized model) = Ok mask ->
     PIL.fromarray_L (Api.to_uint8 mask) = Ok mask_image ->
     let overlay :=
       match Api.composite_mask resized mask_image with
       | Ok combined => PNG_RGBA combined
       | Raise e => HTTPException 500 ("Prediction failed: " ++ e)
       end in
     Api.predict_mask_png Image_open file model = (PNG_L mask_image, model)
     /\ Api.predict_overlay_png Image_open file model = (overlay, model)
     /\ Api.predict_overlay_png Image_open file
          (snd (Api.predict_mask_png Image_open file model))
        = (overlay, model))
  /\ (forall e,
        fst (Api.predict_mask_from_image resized model) = Raise e ->
        Api.predict_mask_png Image_open file model
        = (HTTPException 500 ("Prediction failed: " ++ e), model)
        /\ Api.predict_overlay_png Image_open file model
           = (HTTPException 500 ("Prediction failed: " ++ e), model)).
Proof.
  intros Heval Himg Hopen resized.
  destruct (@is_image_declared file Himg) as (declared & Hd & Hp).
  assert (Hk : snd (Api.predict_mask_from_image resized model) = model)
    by (now apply predict_mask_from_image_keeps).
  split.
  - intros mask mask_image Hmask Himage overlay.
    pose proof (@run_keeps _ _ _ _ Hk Hmask) as Hrun.
    assert (E1 : Api.predict_mask_png Image_open file model = (PNG_L mask_image, model)).
    { unfold Api.predict_mask_png, Api.predict_mask_png_try, Api.guarded, bind, call, ret.
      rewrite Hd. cbn [negb]. rewrite Hp, Hopen. cbn [negb]. fold resized. now rewrite Hrun, Himage. }
    assert (E2 : Api.predict_overlay_png Image_open file model = (overlay, model)).
    { unfold Api.predict_overlay_png, Api.predict_overlay_png_try, Api.guarded, bind, call, ret.
      rewrite Hd. cbn [negb]. rewrite Hp, Hopen. cbn [negb]. fold resized. rewrite Hrun.
      unfold Api.blend_overlay. rewrite Himage. cbn [exc_bind]. unfold overlay.
      now destruct (Api.composite_mask resized mask_image). }
    split; [ exact E1 | ]. split; [ exact E2 | ]. now rewrite E1.
  - intros e He. pose proof (@run_keeps _ _ _ _ Hk He) as Hrun.
    split.
    + unfold Api.predict_mask_png, Api.predict_mask_png_try, Api.guarded, bind, call, ret.
      rewrite Hd. cbn [negb]. rewrite Hp, Hopen. cbn [negb]. fold resized. now rewrite Hrun.
    + unfold Api.predict_overlay_png, Api.predict_overlay_png_try, Api.guarded, bind, call, ret.
      rewrite Hd. cbn [negb]. rewrite Hp, Hopen. cbn [negb]. fold resized. now rewrite Hrun.
Qed.

End Requests.

(** ** The service on sample inputs *)

(** A service that came up holds a model in evaluation mode. *)
Lemma startup_eval {T : Torch} (state_dict : Type) (is_file : string -> bool)
      (torch_load : string -> exc state_dict)
      (load_state_dict : UNet.t -> state_dict -> exc UNet.t) (model : UNet.t) :
  Api.startup is_file torch_load load_state_dict = Ok model ->
  UNet.training model = false.
Proof.
  unfold Api.startup.
  destruct (negb (is_file Api.model_path)); [ discriminate | ].
  destruct (exc_bind (torch_load Api.model_path) (load_state_dict (UNet.init 3 1 8)));
    [ | discriminate ].
  intros E. injection E as <-. apply UNet_eval_training.
Qed.

Lemma overlay_blends_red_witness :
  Forall (fun m => m = 0 \/ m = 1) [0; 1; 1; 0]
  /\ Api.blend_overlay sample_image (mk_nd [2; 2] [0; 1; 1; 0])
     = Ok [[(0, 0, 0, 255); (255, 53, 26, 255)]; [(125, 11, 16, 255); (40, 50, 60, 255)]].
Proof.
  assert (Hbits : Forall (fun m => m = 0 \/ m = 1) [0; 1; 1; 0])
    by (repeat constructor; auto).
  split; [ exact Hbits | ].
  destruct (@overlay_blends_red sample_image (mk_nd [2; 2] [0; 1; 1; 0]) 2 2) as (H & _).
  - lia.
  - split; [ reflexivity | repeat constructor ].
  - apply sample_image_valid.
  - reflexivity.
  - reflexivity.
  - exact Hbits.
  - rewrite H. reflexivity.
Defined.

Lemma sample_resized_valid :
  PIL.valid_image (PIL.resize sample_image (IMG_SIZE, IMG_SIZE)).
Proof. apply resize_valid; [ exact sample_image_valid | reflexivity | reflexivity ]. Qed.

Lemma classify_zero : classify 0%R = 0.
Proof.
  unfold classify. apply binarize_background. cbn [sigmoid RActivation].
  rewrite Rsigmoid_0. lra.
Qed.

(** On the shape-only device the logits read back are zeros, so the mask is
    all background. *)
Lemma infer_served (t : nd (@F RArith_ops)) :
  shape t = [3; 128; 128] ->
  Api.infer (T := ShapeTorch) (A := RArith_ops) t (served_shapes 8)
  = (Ok (mk_nd [128; 128] (repeat 0 (Z.to_nat (1 * (1 * (128 * (128 * 1))))))),
     served_shapes 8).
Proof.
  intros Hshape. unfold Api.infer.
  erewrite bind_ok.
  2:{ cbn [to_device ShapeDevice]. unfold unsqueeze0. cbn [shape]. rewrite Hshape.
      exact forward_128. }
  cbn [cpu ShapeDevice]. unfold ret, nd_map, squeeze. cbn [shape data].
  rewrite !map_repeat. do 2 f_equal. f_equal.
  change (Api.binarize (sigmoid (of_Z 0))) with (classify 0%R). now rewrite classify_zero.
Qed.

Lemma predict_mask_served (image : PIL.raster PIL.rgb) :
  PIL.valid_image image ->
  Api.predict_mask_from_image (T := ShapeTorch) (A := RArith_ops) image (served_shapes 8)
  = (Ok (mk_nd [128; 128] (repeat 0 (Z.to_nat (1 * (1 * (128 * (128 * 1))))))),
     served_shapes 8).
Proof.
  intros Hv. unfold Api.predict_mask_from_image, bind, call.
  rewrite (preprocess_value Hv). now apply infer_served.
Qed.

(** ** The threshold *)

Section Threshold.
Context {T : Torch} {A : Arith} {Act : Activation A} {D : Device T A}
        {P : PIL.Resample}.

Lemma nth_error_mask (logits : list F) (i : nat) (logit : F) :
  nth_error logits i = Some logit ->
  nth_error (map Api.binarize (map sigmoid logits)) i
  = Some (Api.binarize (sigmoid logit)).
Proof.
  intros H. do 2 apply map_nth_error. exact H.
Qed.

(** C4: in whatever arithmetic the service runs, provided its comparison
    [a > a] is false: when the forward pass returns, the mask that
    [predict_mask_from_image] returns (lines 152 and 153, and the same
    statements at lines 137 and 138) has one value per logit read back, and
    the value is 1 exactly when the sigmoid of the logit compares greater
    than 0.5 and 0 otherwise; so a logit whose sigmoid is exactly 0.5 is
    background, and the logit 0 is one when its sigmoid is 0.5. *)
Theorem threshold_is_strict (image : PIL.raster PIL.rgb) (input : nd F)
    (model model' : UNet.t) (outputs : tensor) :
  (forall p : F, fgtb p p = false) ->
  Api.preprocess image = Ok input ->
  UNet.forward (to_device (unsqueeze0 input)) model = (Ok outputs, model') ->
  exists mask,
    Api.infer input model = (Ok mask, model')
    /\ Api.predict_mask_from_image image model = (Ok mask, model')
    /\ List.length (data mask) = List.length (data (cpu outputs))
    /\ forall i logit,
         nth_error (data (cpu outputs)) i = Some logit ->
         exists m,
           nth_error (data mask) i = Some m
           /\ (m = 1 <-> fgtb (sigmoid logit) (of_Q 0.5) = true)
           /\ (m = 0 <-> fgtb (sigmoid logit) (of_Q 0.5) = false)
           /\ (sigmoid logit = of_Q 0.5 -> m = 0)
           /\ (sigmoid (of_Z 0) = of_Q 0.5 -> logit = of_Z 0 -> m = 0).
Proof.
  intros Hirr Hpre Hfwd.
  exists (squeeze (nd_map Api.binarize (nd_map sigmoid (cpu outputs)))).
  assert (Hinfer : Api.infer input model
                   = (Ok (squeeze (nd_map Api.binarize (nd_map sigmoid (cpu outputs)))),
                      model')).
  { unfold Api.infer, bind. rewrite Hfwd. reflexivity. }
  split; [ exact Hinfer | ].
  split; [ unfold Api.predict_mask_from_image, bind, call; now rewrite Hpre | ].
  unfold squeeze, nd_map. cbn [data].
  split; [ now rewrite !length_map | ].
  intros i logit Hi. exists (Api.binarize (sigmoid logit)).
  split; [ now apply nth_error_mask | ].
  assert (Hhalf : forall p, p = of_Q 0.5 -> Api.binarize p = 0).
  { intros p ->. unfold Api.binarize. now rewrite Hirr. }
  unfold Api.binarize.
  destruct (fgtb (sigmoid logit) (of_Q 0.5)) eqn:E.
  - repeat split; intros; try reflexivity; try discriminate.
    + rewrite H, Hirr in E. discriminate.
    + subst logit. rewrite H, Hirr in E. discriminate.
  - repeat split; intros; try reflexivity; discriminate.
Qed.

End Threshold.

Lemma Rgtb_irrefl (p : R) : Rgtb p p = false.
Proof. unfold Rgtb. destruct (Rlt_dec p p); [ lra | reflexivity ]. Qed.

Lemma threshold_is_strict_witness :
  exists mask,
    Api.predict_mask_from_image (T := ShapeTorch) (A := RArith_ops)
      sample_image (served_shapes 8)
    = (Ok mask, served_shapes 8)
    /\ nth_error (data mask) 0 = Some 0.
Proof.
  destruct (@threshold_is_strict ShapeTorch RArith_ops RActivation (ShapeDevice RArith_ops) _
              sample_image _ (served_shapes 8) (served_shapes 8) [1; 1; 128; 128]
              Rgtb_irrefl (preprocess_value (A := RArith_ops) sample_image_valid)
              forward_128)
    as (mask & _ & Hmask & _ & Hpix).
  exists mask. split; [ exact Hmask | ].
  destruct (Hpix 0%nat 0%R eq_refl) as (m & Hm & _ & _ & _ & H0).
  rewrite Hm. f_equal. apply H0; [ | reflexivity ].
  cbn [sigmoid RActivation of_Z of_Q RArith_ops]. rewrite Rsigmoid_0, threshold_half.
  reflexivity.
Defined.

Lemma forward_misbuilt :
  UNet.forward (T := ShapeTorch) [1; 3; 128; 128] misbuilt
  = (Raise "RuntimeError: input channels do not match the weight", misbuilt).
Proof. reflexivity. Qed.

Lemma predict_mask_png_try_misbuilt :
  Api.predict_mask_png_try (A := RArith_ops) sample_open sample_png misbuilt
  = (Raise "RuntimeError: input channels do not match the weight", misbuilt).
Proof.
  unfold Api.predict_mask_png_try.
  erewrite bind_ok; [ | reflexivity ].
  unfold bind at 1. unfold Api.predict_mask_from_image, bind, call.
  rewrite (preprocess_value sample_resized_valid).
  unfold Api.infer, bind. cbn [to_device ShapeDevice]. unfold unsqueeze0. cbn [shape].
  now rewrite forward_misbuilt.
Qed.

Lemma request_errors_are_contained_witness :
  In (Api.predict_mask_png (A := RArith_ops) sample_open,
      Api.predict_mask_png_try (A := RArith_ops) sample_open)
     (Api.endpoints sample_open)
  /\ Api.predict_mask_png (A := RArith_ops) sample_open text_file (served_shapes 8)
     = (HTTPException 400 "Invalid file type. Please upload an image.", served_shapes 8)
  /\ Api.predict_mask_png (A := RArith_ops) sample_open broken_png (served_shapes 8)
     = (HTTPException 500 "Prediction failed: cannot identify image file", served_shapes 8)
  /\ Api.predict_mask_png (A := RArith_ops) sample_open sample_png misbuilt
     = (HTTPException 500
          "Prediction failed: RuntimeError: input channels do not match the weight",
        misbuilt).
Proof.
  assert (Hin : In (Api.predict_mask_png (A := RArith_ops) sample_open,
                    Api.predict_mask_png_try (A := RArith_ops) sample_open)
                   (Api.endpoints sample_open)) by (right; left; reflexivity).
  split; [ exact Hin | ]. split; [ | split ].
  - destruct (@request_errors_are_contained ShapeTorch RArith_ops RActivation
                (ShapeDevice RArith_ops) _ sample_open _ _ text_file (served_shapes 8) Hin)
      as (H & _).
    exact (H "text/plain" eq_refl eq_refl).
  - destruct (@request_errors_are_contained ShapeTorch RArith_ops RActivation
                (ShapeDevice RArith_ops) _ sample_open _ _ broken_png (served_shapes 8) Hin)
      as (_ & _ & H & _).
    exact (H eq_refl _ eq_refl).
  - destruct (@request_errors_are_contained ShapeTorch RArith_ops RActivation
                (ShapeDevice RArith_ops) _ sample_open _ _ sample_png misbuilt Hin)
      as (_ & H & _).
    exact (H eq_refl _ _ predict_mask_png_try_misbuilt).
Defined.

Lemma mask_and_overlay_share_the_mask_witness :
  (UNet.training (served_shapes 8) = false
   /\ Api.is_image sample_png = true
   /\ sample_open (contents sample_png) = Ok sample_image)
  /\ exists mask_image,
       Api.predict_mask_png (A := RArith_ops) sample_open sample_png (served_shapes 8)
       = (PNG_L mask_image, served_shapes 8)
       /\ Api.predict_overlay_png (A := RArith_ops) sample_open sample_png (served_shapes 8)
          = (match Api.composite_mask (PIL.resize sample_image (IMG_SIZE, IMG_SIZE))
                     mask_image with
             | Ok combined => PNG_RGBA combined
             | Raise e => HTTPException 500 ("Prediction failed: " ++ e)
             end, served_shapes 8).
Proof.
  split; [ repeat split | ].
  destruct (@mask_and_overlay_share_the_mask ShapeTorch RArith_ops RActivation
              (ShapeDevice RArith_ops) _ sample_open sample_png (served_shapes 8)
              sample_image eq_refl eq_refl eq_refl) as (H & _).
  pose proof (predict_mask_served sample_resized_valid) as Hmask.
  apply (f_equal fst) in Hmask. cbn [fst] in Hmask.
  eexists.
  destruct (H _ _ Hmask eq_refl) as (H1 & H2 & _).
  split; [ exact H1 | exact H2 ].
Defined.

(** * Further properties of the code *)

(** ** When the forward pass returns *)

Lemma bind_raise {S A B} (m : M S A) (k : A -> M S B) (s s' : S) (e : string) :
  m s = (Raise e, s') -> bind m k s = (Raise e, s').
Proof. intros H. unfold bind. now rewrite H. Qed.

Lemma sub_raise {S U A} (get : S -> U) (set : S -> U -> S) (m : M U A) (s : S) (e : string) :
  m (get s) = (Raise e, get s) -> set s (get s) = s -> sub get set m s = (Raise e, s).
Proof. intros H Hs. unfold sub. now rewrite H, Hs. Qed.

Lemma bind_sub_raise {S U A B} (get : S -> U) (set : S -> U -> S) (m : M U A)
      (k : A -> M S B) (s : S) (e : string) :
  m (get s) = (Raise e, get s) -> set s (get s) = s ->
  bind (sub get set m) k s = (Raise e, s).
Proof. intros H Hs. apply bind_raise. now apply sub_raise. Qed.

Lemma max_pool2d_small (n c h w : Z) :
  h < 2 \/ w < 2 -> Shape.max_pool2d [n; c; h; w] 2 = Raise too_small.
Proof.
  intros Hs. unfold Shape.max_pool2d. cbn [Z.leb Z.compare].
  assert (E : forall a, (a - 2) / 2 + 1 = a / 2).
  { intros a. rewrite <- Z.div_add by lia. f_equal. lia. }
  rewrite !E.
  replace ((h / 2 <=? 0) || (w / 2 <=? 0)) with true; [ reflexivity | ].
  symmetry. apply orb_true_iff.
  destruct Hs as [Hs | Hs]; [ left | right ]; apply Z.leb_le;
    apply Z.lt_succ_r; apply Z.div_lt_upper_bound; lia.
Qed.

Lemma EncoderBlock_small (cin cout n h w : Z) :
  h < 2 \/ w < 2 ->
  EncoderBlock.forward (T := ShapeTorch) [n; cin; h; w]
    (EncoderBlock.eval (EncoderBlock.init cin cout))
  = (Raise too_small, EncoderBlock.eval (EncoderBlock.init cin cout)).
Proof.
  intros Hs. unfold EncoderBlock.forward.
  apply bind_sub_raise; [ | reflexivity ].
  unfold MaxPool2d.forward. cbn -[Shape.max_pool2d].
  now rewrite max_pool2d_small.
Qed.

Lemma DoubleConv_wrong_channels (cin cout n c h w : Z) :
  c <> cin ->
  DoubleConv.forward (T := ShapeTorch) [n; c; h; w] (DoubleConv.eval (DoubleConv.init cin cout))
  = (Raise wrong_channels, DoubleConv.eval (DoubleConv.init cin cout)).
Proof.
  intros Hc. unfold DoubleConv.forward.
  apply bind_sub_raise; [ | reflexivity ].
  unfold Conv2d.forward. cbn -[Shape.conv2d]. unfold Shape.conv2d.
  apply Z.eqb_neq in Hc. now rewrite Hc.
Qed.

Lemma half_bounds (a : Z) : 2 * (a / 2) <= a < 2 * (a / 2) + 2.
Proof.
  pose proof (Z.mul_div_le a 2). pose proof (Z.mul_succ_div_gt a 2). lia.
Qed.

(** X1: on a four-dimensional input of positive height and width the
    network of the service returns exactly when the input has three
    channels and is at least 16 x 16, and then the result is one channel
    of the size of the input; a wrong channel count is refused by the first
    convolution, and a smaller input by a pooling layer.  In either case
    the model in evaluation mode is left as it was. *)
Theorem forward_returns_iff (base n c h w : Z) :
  0 < h -> 0 < w ->
  UNet.forward (T := ShapeTorch) [n; c; h; w] (served_shapes base)
  = (if negb (c =? 3) then Raise wrong_channels
     else if (h <? 16) || (w <? 16) then Raise too_small
     else Ok [n; 1; h; w],
     served_shapes base).
Proof.
  intros Hh Hw. set (m := served_shapes base).
  destruct (Z.eqb_spec c 3) as [-> | Hc]; cbn [negb].
  2:{ unfold UNet.forward. apply bind_sub_raise; [ | reflexivity ].
      now apply DoubleConv_wrong_channels. }
  pose proof (half_bounds h) as Bh1. pose proof (half_bounds (h / 2)) as Bh2.
  pose proof (half_bounds (h / 2 / 2)) as Bh3.
  pose proof (half_bounds (h / 2 / 2 / 2)) as Bh4.
  pose proof (half_bounds w) as Bw1. pose proof (half_bounds (w / 2)) as Bw2.
  pose proof (half_bounds (w / 2 / 2)) as Bw3.
  pose proof (half_bounds (w / 2 / 2 / 2)) as Bw4.
  assert (E0 : DoubleConv.forward [n; 3; h; w] (UNet.inc m)
               = (Ok [n; base; h; w], UNet.inc m))
    by (apply DoubleConv_shape; lia).
  destruct (Z_lt_dec h 2) as [S1 | L1];
    [ | destruct (Z_lt_dec w 2) as [S1 | M1] ].
  1,2: replace ((h <? 16) || (w <? 16)) with true
         by (symmetry; apply orb_true_iff; rewrite !Z.ltb_lt; lia);
       unfold UNet.forward;
       (erewrite bind_sub_ok; [ | exact E0 | reflexivity ]);
       (apply bind_sub_raise; [ | reflexivity ]);
       apply EncoderBlock_small; lia.
  assert (E1 : EncoderBlock.forward [n; base; h; w] (UNet.down1 m)
               = (Ok [n; base * 2; h / 2; w / 2], UNet.down1 m))
    by (apply EncoderBlock_shape; lia).
  destruct (Z_lt_dec (h / 2) 2) as [S2 | L2];
    [ | destruct (Z_lt_dec (w / 2) 2) as [S2 | M2] ].
  1,2: replace ((h <? 16) || (w <? 16)) with true
         by (symmetry; apply orb_true_iff; rewrite !Z.ltb_lt; lia);
       unfold UNet.forward;
       (erewrite bind_sub_ok; [ | exact E0 | reflexivity ]);
       (erewrite bind_sub_ok; [ | exact E1 | reflexivity ]);
       (apply bind_sub_raise; [ | reflexivity ]);
       apply EncoderBlock_small; lia.
  assert (E2 : EncoderBlock.forward [n; base * 2; h / 2; w / 2] (UNet.down2 m)
               = (Ok [n; base * 4; h / 2 / 2; w / 2 / 2], UNet.down2 m))
    by (apply EncoderBlock_shape; lia).
  destruct (Z_lt_dec (h / 2 / 2) 2) as [S3 | L3];
    [ | destruct (Z_lt_dec (w / 2 / 2) 2) as [S3 | M3] ].
  1,2: replace ((h <? 16) || (w <? 16)) with true
         by (symmetry; apply orb_true_iff; rewrite !Z.ltb_lt; lia);
       unfold UNet.forward;
       (erewrite bind_sub_ok; [ | exact E0 | reflexivity ]);
       (erewrite bind_sub_ok; [ | exact E1 | reflexivity ]);
       (erewrite bind_sub_ok; [ | exact E2 | reflexivity ]);
       (apply bind_sub_raise; [ | reflexivity ]);
       apply EncoderBlock_small; lia.
  assert (E3 : EncoderBlock.forward [n; base * 4; h / 2 / 2; w / 2 / 2] (UNet.down3 m)
               = (Ok [n; base * 8; h / 2 / 2 / 2; w / 2 / 2 / 2], UNet.down3 m))
    by (apply EncoderBlock_shape; lia).
  destruct (Z_lt_dec (h / 2 / 2 / 2) 2) as [S4 | L4];
    [ | destruct (Z_lt_dec (w / 2 / 2 / 2) 2) as [S4 | M4] ].
  1,2: replace ((h <? 16) || (w <? 16)) with true
         by (symmetry; apply orb_true_iff; rewrite !Z.ltb_lt; lia);
       unfold UNet.forward;
       (erewrite bind_sub_ok; [ | exact E0 | reflexivity ]);
       (erewrite bind_sub_ok; [ | exact E1 | reflexivity ]);
       (erewrite bind_sub_ok; [ | exact E2 | reflexivity ]);
       (erewrite bind_sub_ok; [ | exact E3 | reflexivity ]);
       (apply bind_sub_raise; [ | reflexivity ]);
       apply EncoderBlock_small; lia.
  replace ((h <? 16) || (w <? 16)) with false
    by (symmetry; apply orb_false_iff; rewrite !Z.ltb_ge; lia).
  pose proof (half_bounds (h / 2 / 2 / 2 / 2)) as Bh5.
  pose proof (half_bounds (w / 2 / 2 / 2 / 2)) as Bw5.
  eapply (@UNet_forward_steps ShapeTorch m); try eassumption.
  - apply EncoderBlock_shape; lia.
  - apply DecoderBlock_shape; lia.
  - apply DecoderBlock_shape; lia.
  - apply DecoderBlock_shape; lia.
  - apply DecoderBlock_shape; lia.
  - unfold Conv2d.forward, m, served_shapes. cbn -[Shape.conv2d].
    rewrite conv2d_1x1 by lia. reflexivity.
Qed.

Lemma forward_returns_iff_witness :
  (0 < 15 /\ 0 < 200)
  /\ UNet.forward (T := ShapeTorch) [1; 3; 15; 200] (served_shapes 8)
     = (Raise too_small, served_shapes 8).
Proof.
  split; [ lia | ].
  exact (@forward_returns_iff 8 1 3 15 200 ltac:(lia) ltac:(lia)).
Defined.

(** ** Blocks that fit together *)

(** X2: an encoder block followed by the matching decoder block, with the
    input of the encoder as skip, gives back the shape of that input, for
    odd heights and widths as well as even ones. *)
Theorem encoder_then_decoder_restores (c n h w : Z) :
  2 <= h -> 2 <= w ->
  let enc := EncoderBlock.eval (EncoderBlock.init (T := ShapeTorch) c (c * 2)) in
  let dec := DecoderBlock.eval (DecoderBlock.init (T := ShapeTorch) (c * 2) c) in
  let x := [n; c; h; w] in
  let down := [n; c * 2; h / 2; w / 2] in
  EncoderBlock.forward x enc = (Ok down, enc)
  /\ DecoderBlock.forward down x dec = (Ok x, dec).
Proof.
  intros Hh Hw enc dec x down. split.
  - apply EncoderBlock_shape; lia.
  - apply DecoderBlock_shape; lia.
Qed.

Lemma encoder_then_decoder_restores_witness :
  (2 <= 25 /\ 2 <= 37)
  /\ DecoderBlock.forward (T := ShapeTorch) [1; 16; 12; 18] [1; 8; 25; 37]
       (DecoderBlock.eval (DecoderBlock.init 16 8))
     = (Ok [1; 8; 25; 37], DecoderBlock.eval (DecoderBlock.init 16 8)).
Proof.
  split; [ lia | ].
  exact (proj2 (@encoder_then_decoder_restores 8 1 25 37 ltac:(lia) ltac:(lia))).
Defined.

Lemma cat_batches (n n' c cs h w : Z) :
  Shape.cat [[n'; cs; h; w]; [n; c; h; w]] 1
  = if n' =? n then Ok [n'; cs + c; h; w] else Raise sizes_differ.
Proof.
  unfold Shape.cat.
  cbn [Z.ltb Z.compare fold_left exc_bind Z.to_nat Pos.to_nat Pos.iter_op Nat.add Shape.cat2].
  destruct (n' =? n); [ | reflexivity ]. now rewrite list_Z_eqb_refl.
Qed.

(** X3: a decoder block built for [cin] input and [cout] output channels
    takes a skip of the batch size of its input and of exactly
    [cin - cout] channels, whatever its height and width; a skip of
    another batch size is refused by the concatenation and a skip of
    another channel count by the first convolution. *)
Theorem decoder_accepts_skip_iff (cin cout n h w n' cs hs ws : Z) :
  0 < hs -> 0 < ws ->
  DecoderBlock.forward (T := ShapeTorch) [n; cin; h; w] [n'; cs; hs; ws]
    (DecoderBlock.eval (DecoderBlock.init cin cout))
  = (if negb (n' =? n) then Raise sizes_differ
     else if negb (cs + cout =? cin) then Raise wrong_channels
     else Ok [n; cout; hs; ws],
     DecoderBlock.eval (DecoderBlock.init cin cout)).
Proof.
  intros Hh Hw.
  unfold DecoderBlock.forward, ConvTranspose2d.forward.
  unfold bind at 1. unfold sub at 1.
  cbn -[Shape.conv_transpose2d DoubleConv.forward DoubleConv.eval DoubleConv.init bind sub
        DecoderBlock.reconcile Shape.cat].
  rewrite conv_transpose2d_double.
  unfold bind at 1. unfold call at 1.
  assert (Hrec : DecoderBlock.reconcile (T := ShapeTorch)
                   [n; cout; 2 * h; 2 * w] [n'; cs; hs; ws] = Ok [n; cout; hs; ws]).
  { destruct (list_eq_dec Z.eq_dec [2 * h; 2 * w] [hs; ws]) as [E | E].
    - injection E as <- <-. unfold DecoderBlock.reconcile. cbn [size ShapeTorch].
      now rewrite list_Z_eqb_refl.
    - rewrite (@reconcile_pads ShapeTorch _ _ n cout (2 * h) (2 * w) n' cs hs ws)
        by (try reflexivity; congruence).
      now apply pad_to_skip. }
  rewrite Hrec. unfold bind at 1. unfold call at 1. rewrite cat_batches.
  destruct (Z.eqb_spec n' n) as [-> | Hn]; cbn [negb]; [ | reflexivity ].
  unfold sub. cbn -[DoubleConv.forward DoubleConv.eval DoubleConv.init].
  destruct (Z.eqb_spec (cs + cout) cin) as [<- | Hc]; cbn [negb].
  - rewrite DoubleConv_shape by assumption. reflexivity.
  - rewrite DoubleConv_wrong_channels by assumption. reflexivity.
Qed.

Lemma decoder_accepts_skip_iff_witness :
  (0 < 16 /\ 0 < 16)
  /\ DecoderBlock.forward (T := ShapeTorch) [1; 128; 8; 8] [1; 128; 16; 16]
       (DecoderBlock.eval (DecoderBlock.init 128 64))
     = (Raise wrong_channels, DecoderBlock.eval (DecoderBlock.init 128 64)).
Proof.
  split; [ lia | ].
  exact (@decoder_accepts_skip_iff 128 64 1 8 8 1 128 16 16 ltac:(lia) ltac:(lia)).
Defined.

(** ** Where the padding goes *)

(** X4: the widths of line 48 split any difference into two shares that add
    up to it and differ by at most one, the larger one on the right or at
    the bottom; for a positive difference nothing is cropped, for a
    negative one nothing is added. *)
Theorem pad_widths_shares (diff_x diff_y : Z) :
  exists l r t b,
    DecoderBlock.pad_widths diff_x diff_y = [l; r; t; b]
    /\ l + r = diff_x /\ t + b = diff_y
    /\ l <= r <= l + 1 /\ t <= b <= t + 1
    /\ (0 <= diff_x -> 0 <= l) /\ (0 <= diff_y -> 0 <= t)
    /\ (diff_x <= 0 -> r <= 0) /\ (diff_y <= 0 -> b <= 0).
Proof.
  exists (diff_x / 2), (diff_x - diff_x / 2), (diff_y / 2), (diff_y - diff_y / 2).
  pose proof (half_bounds diff_x). pose proof (half_bounds diff_y).
  split; [ reflexivity | ]. repeat split; lia.
Qed.

(** X5: inside the network the upsampled tensor has twice the halved
    height and width of its skip, and the reconciliation of lines 45 to 48
    then leaves it alone when both are even and otherwise adds one column
    on the right for an odd width and one row at the bottom for an odd
    height, never anything on the left or at the top. *)
Theorem reconcile_pads_right_and_bottom {T : Torch}
    (upsampled skip : tensor) (n c n' cs h w : Z) :
  size upsampled = [n; c; 2 * (h / 2); 2 * (w / 2)] ->
  size skip = [n'; cs; h; w] ->
  (0 <= h mod 2 <= 1) /\ (0 <= w mod 2 <= 1)
  /\ DecoderBlock.reconcile upsampled skip
     = if (h mod 2 =? 0) && (w mod 2 =? 0) then Ok upsampled
       else pad upsampled [0; w mod 2; 0; h mod 2].
Proof.
  intros Hu Hs.
  pose proof (Z.mod_pos_bound h 2 ltac:(lia)) as Bh.
  pose proof (Z.mod_pos_bound w 2 ltac:(lia)) as Bw.
  pose proof (Z.div_mod h 2 ltac:(lia)) as Eh.
  pose proof (Z.div_mod w 2 ltac:(lia)) as Ew.
  split; [ lia | ]. split; [ lia | ].
  destruct (Z.eqb_spec (h mod 2) 0) as [Zh | Nh];
    [ destruct (Z.eqb_spec (w mod 2) 0) as [Zw | Nw] | ]; cbn [andb].
  - unfold DecoderBlock.reconcile. rewrite Hu, Hs.
    replace (2 * (h / 2)) with h by lia. replace (2 * (w / 2)) with w by lia.
    now rewrite list_Z_eqb_refl.
  - rewrite (@reconcile_pads T _ _ n c (2 * (h / 2)) (2 * (w / 2)) n' cs h w Hu Hs)
      by (intros E; apply pair_equal_spec in E as [E1 E2]; lia).
    unfold DecoderBlock.pad_widths.
    replace (w - 2 * (w / 2)) with (w mod 2) by lia.
    replace (h - 2 * (h / 2)) with (h mod 2) by lia.
    replace (w mod 2) with 1 by lia. now rewrite Zh.
  - rewrite (@reconcile_pads T _ _ n c (2 * (h / 2)) (2 * (w / 2)) n' cs h w Hu Hs)
      by (intros E; apply pair_equal_spec in E as [E1 E2]; lia).
    unfold DecoderBlock.pad_widths.
    replace (w - 2 * (w / 2)) with (w mod 2) by lia.
    replace (h - 2 * (h / 2)) with (h mod 2) by lia.
    replace (h mod 2) with 1 by lia.
    assert (Hw2 : w mod 2 = 0 \/ w mod 2 = 1) by lia.
    now destruct Hw2 as [-> | ->].
Qed.

Lemma reconcile_pads_right_and_bottom_witness :
  DecoderBlock.reconcile (T := ShapeTorch) [1; 8; 24; 36] [1; 8; 25; 36]
  = Shape.pad [1; 8; 24; 36] [0; 0; 0; 1].
Proof.
  exact (proj2 (proj2 (@reconcile_pads_right_and_bottom ShapeTorch
                         [1; 8; 24; 36] [1; 8; 25; 36] 1 8 1 8 25 36 eq_refl eq_refl))).
Defined.

(** ** The service over many requests *)

Section Service.
Context {T : Torch} {A : Arith} {Act : Activation A} {D : Device T A}
        {P : PIL.Resample}.
Variable Image_open : string -> exc (PIL.raster PIL.rgb).

Lemma handle_keeps (req : App.request) (model : UNet.t) :
  UNet.training model = false -> snd (App.handle Image_open req model) = model.
Proof.
  intros Heval. destruct req as [ | | file | file | file]; cbn [App.handle];
    try reflexivity.
  - pose proof (@endpoint_keeps T A Act D P Image_open _ _ file model
                  (or_introl eq_refl) Heval) as H.
    destruct (Api.predict_segmentation Image_open file model). exact H.
  - pose proof (@endpoint_keeps T A Act D P Image_open _ _ file model
                  (or_intror (or_introl eq_refl)) Heval) as H.
    destruct (Api.predict_mask_png Image_open file model). exact H.
  - pose proof (@endpoint_keeps T A Act D P Image_open _ _ file model
                  (or_intror (or_intror (or_introl eq_refl))) Heval) as H.
    destruct (Api.predict_overlay_png Image_open file model). exact H.
Qed.

Lemma serve_eval (reqs : list App.request) (model : UNet.t) :
  UNet.training model = false ->
  App.serve Image_open reqs model
  = (map (fun req => fst (App.handle Image_open req model)) reqs, model).
Proof.
  intros Heval. induction reqs as [ | req reqs IH]; cbn [App.serve map].
  - reflexivity.
  - pose proof (@handle_keeps req model Heval) as Hk.
    destruct (App.handle Image_open req model) as [r model1]. cbn [fst snd] in *.
    subst model1. now rewrite IH.
Qed.

(** X6: once the module has come up (lines 88 to 99), whatever requests
    the worker answers and in whatever order, the model stays the one that
    was loaded, and every request is answered as it would be if it were the
    first: no request influences a later one. *)
Theorem requests_do_not_interfere
    (state_dict : Type) (is_file : string -> bool)
    (torch_load : string -> exc state_dict)
    (load_state_dict : UNet.t -> state_dict -> exc UNet.t)
    (model : UNet.t) (reqs : list App.request) :
  Api.startup is_file torch_load load_state_dict = Ok model ->
  App.serve Image_open reqs model
  = (map (fun req => fst (App.handle Image_open req model)) reqs, model).
Proof.
  intros Hup. apply serve_eval. eapply startup_eval. exact Hup.
Qed.

End Service.

Lemma requests_do_not_interfere_witness :
  let up := Api.startup (T := ShapeTorch) (fun _ => true) (fun _ => Ok tt)
                        (fun m _ => Ok m) in
  up = Ok (served_shapes 8)
  /\ snd (App.serve (A := RArith_ops) sample_open
            [App.POST_predict_mask sample_png; App.GET_health;
             App.POST_predict_overlay broken_png; App.POST_predict text_file]
            (served_shapes 8))
     = served_shapes 8.
Proof.
  intros up. assert (Hup : up = Ok (served_shapes 8)) by reflexivity.
  split; [ exact Hup | ].
  rewrite (@requests_do_not_interfere ShapeTorch RArith_ops RActivation
             (ShapeDevice RArith_ops) _ sample_open unit (fun _ => true) (fun _ => Ok tt)
             (fun m _ => Ok m) (served_shapes 8) _ Hup).
  reflexivity.
Defined.

(** ** What the routes answer *)

Lemma chunks_Forall {B} (P : B -> Prop) (n k : nat) (l : list B) :
  Forall P l -> Forall (Forall P) (chunks n k l).
Proof.
  revert l. induction k as [ | k IH]; intros l Hl; cbn [chunks]; constructor.
  - rewrite Forall_forall in *. intros x Hx. apply Hl.
    rewrite <- (firstn_skipn n l). apply in_or_app. now left.
  - apply IH. rewrite Forall_forall in *. intros x Hx. apply Hl.
    rewrite <- (firstn_skipn n l). apply in_or_app. now right.
Qed.

Section Routes.
Context {T : Torch} {A : Arith} {Act : Activation A} {D : Device T A}
        {P : PIL.Resample}.
Variable Image_open : string -> exc (PIL.raster PIL.rgb).

Lemma binarize_bit (p : F) : bit (Api.binarize p).
Proof. unfold bit, Api.binarize. destruct (fgtb p (of_Q 0.5)); auto. Qed.

Lemma infer_bits (t : nd F) (model model' : UNet.t) (mask : nd Z) :
  Api.infer t model = (Ok mask, model') -> Forall bit (data mask).
Proof.
  unfold Api.infer, bind, ret.
  destruct (UNet.forward (to_device (unsqueeze0 t)) model) as [[outputs | e] m1];
    [ | discriminate ].
  intros E. injection E as <- _. unfold squeeze, nd_map. cbn [data].
  apply Forall_map, Forall_forall. intros p _. apply binarize_bit.
Qed.

Lemma predict_mask_from_image_bits (image : PIL.raster PIL.rgb)
      (model model' : UNet.t) (mask : nd Z) :
  Api.predict_mask_from_image image model = (Ok mask, model') -> Forall bit (data mask).
Proof.
  unfold Api.predict_mask_from_image, bind, call.
  destruct (Api.preprocess image) as [t | e]; [ | discriminate ].
  apply infer_bits.
Qed.

Lemma fromarray_black_or_white (mask : nd Z) (im : PIL.raster Z) :
  Forall bit (data mask) ->
  PIL.fromarray_L (Api.to_uint8 mask) = Ok im -> Forall (Forall black_or_white) im.
Proof.
  intros Hbits. unfold PIL.fromarray_L, Api.to_uint8, nd_map. cbn [shape data].
  destruct (shape mask) as [ | h [ | w [ | ? ?]]]; try discriminate.
  intros E. injection E as <-. apply chunks_Forall, Forall_map.
  eapply Forall_impl; [ | exact Hbits ].
  intros v [-> | ->]; [ left | right ]; reflexivity.
Qed.

(** X7: what each prediction route answers.  For an upload that declares
    no content type all three raise the [AttributeError] of the test of
    the type, which no handler catches; for a declared type that does not
    start with image/ all three answer the same 400.  Otherwise each
    answers either the failure response (500, "Prediction failed: ...")
    or the body of its own kind: the JSON route the file name, the shape of
    the mask and a mask of zeros and ones; the mask route a grayscale image
    whose pixels are all 0 or 255; the overlay route an RGBA image. *)
Theorem responses_by_route (file : UploadFile) (model : UNet.t) :
  let json := fst (Api.predict_segmentation Image_open file model) in
  let png := fst (Api.predict_mask_png Image_open file model) in
  let overlay := fst (Api.predict_overlay_png Image_open file model) in
  match content_type file with
  | None =>
      json = Api.no_startswith /\ png = Api.no_startswith
      /\ overlay = Api.no_startswith
  | Some declared =>
      if prefix "image/" declared then
        ((exists e, json = prediction_failed e)
         \/ (exists mask, json = JSON (filename file) (shape mask) mask
                          /\ Forall bit (data mask)))
        /\ ((exists e, png = prediction_failed e)
            \/ (exists im, png = PNG_L im /\ Forall (Forall black_or_white) im))
        /\ ((exists e, overlay = prediction_failed e)
            \/ (exists im, overlay = PNG_RGBA im))
      else
        json = Api.invalid_file_type /\ png = Api.invalid_file_type
        /\ overlay = Api.invalid_file_type
  end.
Proof.
  intros json png overlay. subst json png overlay.
  unfold Api.predict_segmentation, Api.predict_mask_png, Api.predict_overlay_png.
  destruct (content_type file) as [declared | ]; [ | repeat split ].
  destruct (prefix "image/" declared); cbn [negb]; [ | repeat split ].
  unfold Api.guarded, Api.predict_segmentation_try, Api.predict_mask_png_try,
    Api.predict_overlay_png_try, bind, call, ret.
  destruct (Image_open (contents file)) as [image | e];
    [ | repeat split; left; exists e; reflexivity ].
  split; [ | split ].
  - destruct (Api.preprocess image) as [t | e]; [ | left; exists e; reflexivity ].
    destruct (Api.infer t model) as [[mask | e] m1] eqn:E;
      [ | left; exists e; reflexivity ].
    right. exists mask. split; [ reflexivity | exact (infer_bits _ _ E) ].
  - destruct (Api.predict_mask_from_image (PIL.resize image (IMG_SIZE, IMG_SIZE)) model)
      as [[mask | e] m1] eqn:E; [ | left; exists e; reflexivity ].
    destruct (PIL.fromarray_L (Api.to_uint8 mask)) as [im | e] eqn:Eim;
      [ | left; exists e; reflexivity ].
    right. exists im. split; [ reflexivity | ].
    exact (fromarray_black_or_white _ (predict_mask_from_image_bits _ _ E) Eim).
  - destruct (Api.predict_mask_from_image (PIL.resize image (IMG_SIZE, IMG_SIZE)) model)
      as [[mask | e] m1]; [ | left; exists e; reflexivity ].
    destruct (Api.blend_overlay (PIL.resize image (IMG_SIZE, IMG_SIZE)) mask) as [im | e];
      [ right; exists im; reflexivity | left; exists e; reflexivity ].
Qed.

End Routes.

(** ** The mask image and the overlay *)

Lemma concat_chunks {B} (n k : nat) (l : list B) :
  List.length l = (k * n)%nat -> List.concat (chunks n k l) = l.
Proof.
  revert l. induction k as [ | k IH]; intros l Hl; cbn [chunks List.concat].
  - destruct l; [ reflexivity | discriminate ].
  - rewrite IH by (rewrite length_skipn; lia). apply firstn_skipn.
Qed.

(** X8: the mask image is a lossless encoding of the mask: for a mask of
    zeros and ones of shape (h, w), line 166 gives an image of h rows of w
    pixels, and dividing its pixels by 255 gives the mask back. *)
Theorem mask_image_round_trip (mask : nd Z) (wn hn : nat) :
  shape mask = [Z.of_nat hn; Z.of_nat wn] ->
  List.length (data mask) = (hn * wn)%nat ->
  Forall bit (data mask) ->
  exists im,
    PIL.fromarray_L (Api.to_uint8 mask) = Ok im
    /\ rectangular wn hn im
    /\ List.concat (map (map (fun v => v / 255)) im) = data mask.
Proof.
  intros Hshape Hlen Hbits.
  exists (chunks wn hn (map (fun v => (v * 255) mod 256) (data mask))).
  split; [ | split ].
  - unfold PIL.fromarray_L, Api.to_uint8, nd_map. cbn [shape data].
    now rewrite Hshape, !Nat2Z.id.
  - apply chunks_rectangular. now rewrite length_map.
  - rewrite <- chunks_map, map_map, concat_chunks by (now rewrite length_map).
    rewrite <- (map_id (data mask)) at 2. apply map_ext_in. intros v Hv.
    rewrite Forall_forall in Hbits. now destruct (Hbits v Hv) as [-> | ->].
Qed.

Lemma mask_image_round_trip_witness :
  Forall bit [0; 1; 1; 0; 0; 1]
  /\ PIL.fromarray_L (Api.to_uint8 (mk_nd [2; 3] [0; 1; 1; 0; 0; 1]))
     = Ok [[0; 255; 255]; [0; 0; 255]].
Proof.
  assert (Hbits : Forall bit [0; 1; 1; 0; 0; 1])
    by (repeat constructor; unfold bit; auto).
  split; [ exact Hbits | ].
  destruct (@mask_image_round_trip (mk_nd [2; 3] [0; 1; 1; 0; 0; 1]) 3 2
              eq_refl eq_refl Hbits) as (im & Him & _).
  reflexivity.
Defined.

(** What lines 185 to 191 compute, pixel by pixel. *)
Lemma blend_overlay_value (resized : PIL.raster PIL.rgb) (mask : nd Z) (wn hn : nat) :
  (0 < hn)%nat ->
  rectangular wn hn resized ->
  Forall (Forall PIL.byte_rgb) resized ->
  shape mask = [Z.of_nat hn; Z.of_nat wn] ->
  List.length (data mask) = (hn * wn)%nat ->
  Forall bit (data mask) ->
  Api.blend_overlay resized mask = Ok (overlay_of resized (chunks wn hn (data mask))).
Proof.
  intros Hpos Hrect Hbytes Hshape Hlen Hbits.
  pose proof (chunks_rectangular wn hn (data mask) Hlen) as Hrows.
  unfold Api.blend_overlay, Api.composite_mask, PIL.fromarray_L, Api.to_uint8.
  cbn [shape nd_map data]. rewrite Hshape, !Nat2Z.id. cbn [exc_bind].
  rewrite chunks_map. unfold PIL.point. rewrite map_map_map.
  unfold PIL.size.
  rewrite (rectangular_width Hrect), (rectangular_height Hrect) by assumption.
  rewrite putalpha_new by (try assumption; now apply map_map_rectangular).
  cbn [exc_bind]. rewrite map_map_map.
  unfold PIL.alpha_composite, PIL.convert_RGBA.
  rewrite (@same_size_rectangular _ _ wn hn) by
    (try assumption; now apply map_map_rectangular).
  f_equal. unfold overlay_of.
  rewrite combine_map_map, map_map. cbn [fst snd].
  erewrite map_ext; [ | intros rm; rewrite combine_map_map, map_map; reflexivity ].
  cbn [fst snd].
  apply (zip2_ext
           (fun p m => PIL.composite_pixel (let '(r, g, b) := p in (r, g, b, 255))
                         (PIL.set_alpha (255, 0, 0, 0)
                            (if (m * 255) mod 256 >? 0 then 120 else 0)))
           overlay_pixel).
  intros ra rb p m Hin Hpm.
  assert (Hp : PIL.byte_rgb p).
  { rewrite Forall_forall in Hbytes.
    pose proof (Hbytes ra (in_combine_l _ _ _ _ Hin)) as Hra.
    rewrite Forall_forall in Hra. exact (Hra p (in_combine_l _ _ _ _ Hpm)). }
  assert (Hm : bit m).
  { rewrite Forall_forall in Hbits. apply Hbits.
    eapply chunks_In; [ exact (in_combine_r _ _ _ _ Hin) | exact (in_combine_r _ _ _ _ Hpm) ]. }
  destruct Hm as [-> | ->].
  - apply composite_transparent.
  - now apply composite_red_120.
Qed.

Lemma overlay_pixel_reddened (p : PIL.rgb) (m : Z) :
  PIL.byte_rgb p -> bit m -> reddened p (overlay_pixel p m).
Proof.
  destruct p as [[r g] b]. intros (Hr & Hg & Hb) Hm.
  unfold PIL.byte, PIL.band_R, PIL.band_G, PIL.band_B in *. cbn [fst snd] in *.
  destruct Hm as [-> | ->]; unfold overlay_pixel, reddened; cbn [Z.eqb].
  - lia.
  - unfold alpha_blend.
    split; [ reflexivity | ]. repeat split.
    + apply Z.div_le_lower_bound; lia.
    + apply Z.lt_succ_r. apply Z.div_lt_upper_bound; lia.
    + apply Z.div_pos; lia.
    + apply Z.lt_succ_r. apply Z.div_lt_upper_bound; lia.
    + apply Z.div_pos; lia.
    + apply Z.lt_succ_r. apply Z.div_lt_upper_bound; lia.
Qed.

Lemma Forall2_zip {B C E} (R : B -> E -> Prop) (f : B -> C -> E)
      (a : list B) (b : list C) :
  List.length a = List.length b ->
  (forall x y, In (x, y) (combine a b) -> R x (f x y)) ->
  Forall2 R a (map (fun xy => f (fst xy) (snd xy)) (combine a b)).
Proof.
  revert b. induction a as [ | x a IH]; intros [ | y b] Hlen H; try discriminate;
    cbn [combine map fst snd]; constructor.
  - apply H. now left.
  - apply IH; [ now injection Hlen | ]. intros x' y' Hin. apply H. now right.
Qed.

(** X9: the overlay only reddens.  For a resized image of bytes and a mask
    of zeros and ones of its size, lines 185 to 191 return an image of the
    same size in which every pixel is opaque and, against the source pixel,
    has no less red and no more green or blue. *)
Theorem overlay_only_reddens (resized : PIL.raster PIL.rgb) (mask : nd Z) (wn hn : nat) :
  (0 < hn)%nat ->
  rectangular wn hn resized ->
  Forall (Forall PIL.byte_rgb) resized ->
  shape mask = [Z.of_nat hn; Z.of_nat wn] ->
  List.length (data mask) = (hn * wn)%nat ->
  Forall bit (data mask) ->
  exists combined,
    Api.blend_overlay resized mask = Ok combined
    /\ rectangular wn hn combined
    /\ Forall2 (Forall2 reddened) resized combined.
Proof.
  intros Hpos Hrect Hbytes Hshape Hlen Hbits.
  pose proof (chunks_rectangular wn hn (data mask) Hlen) as Hrows.
  exists (overlay_of resized (chunks wn hn (data mask))).
  split; [ now apply blend_overlay_value | ]. split.
  - unfold overlay_of.
    apply (combine_rectangular
             (fun l => map (fun pm : PIL.rgb * Z => overlay_pixel (fst pm) (snd pm)) l));
      [ intros l; apply length_map | assumption | assumption ].
  - unfold overlay_of.
    apply (Forall2_zip (Forall2 reddened)
             (fun row mrow => map (fun pm => overlay_pixel (fst pm) (snd pm))
                                  (combine row mrow))).
    + destruct Hrect as [-> _]. now destruct Hrows as [-> _].
    + intros row mrow Hin.
      destruct Hrect as [_ Hr]. destruct Hrows as [_ Hm].
      rewrite Forall_forall in Hr, Hm.
      apply Forall2_zip.
      * rewrite (Hr row (in_combine_l _ _ _ _ Hin)).
        now rewrite (Hm mrow (in_combine_r _ _ _ _ Hin)).
      * intros p m Hpm. apply overlay_pixel_reddened.
        -- rewrite Forall_forall in Hbytes.
           pose proof (Hbytes row (in_combine_l _ _ _ _ Hin)) as Hrow.
           rewrite Forall_forall in Hrow. exact (Hrow p (in_combine_l _ _ _ _ Hpm)).
        -- rewrite Forall_forall in Hbits. apply Hbits.
           eapply chunks_In;
             [ exact (in_combine_r _ _ _ _ Hin) | exact (in_combine_r _ _ _ _ Hpm) ].
Qed.

Lemma overlay_only_reddens_witness :
  Forall bit [0; 1; 1; 0]
  /\ exists combined,
       Api.blend_overlay sample_image (mk_nd [2; 2] [0; 1; 1; 0]) = Ok combined
       /\ Forall2 (Forall2 reddened) sample_image combined.
Proof.
  assert (Hbits : Forall bit [0; 1; 1; 0]) by (repeat constructor; unfold bit; auto).
  split; [ exact Hbits | ].
  destruct (@overlay_only_reddens sample_image (mk_nd [2; 2] [0; 1; 1; 0]) 2 2)
    as (combined & H1 & _ & H2).
  - lia.
  - split; [ reflexivity | repeat constructor ].
  - apply sample_image_valid.
  - reflexivity.
  - reflexivity.
  - exact Hbits.
  - exists combined. split; assumption.
Defined.

Lemma zip_map_l {B C E} (f : B -> C -> E) (g : B -> E) (a : list B) (b : list C) :
  List.length a = List.length b ->
  (forall x y, In (x, y) (combine a b) -> f x y = g x) ->
  map (fun xy => f (fst xy) (snd xy)) (combine a b) = map g a.
Proof.
  revert b. induction a as [ | x a IH]; intros [ | y b] Hlen H; try discriminate;
    cbn [combine map fst snd]; [ reflexivity | ].
  f_equal.
  - apply H. now left.
  - apply IH; [ now injection Hlen | ]. intros x' y' Hin. apply H. now right.
Qed.

(** X10: where nothing is segmented nothing is drawn: for a mask of zeros
    the overlay is the resized image itself, made opaque RGBA. *)
Theorem overlay_of_empty_mask (resized : PIL.raster PIL.rgb) (mask : nd Z) (wn hn : nat) :
  (0 < hn)%nat ->
  rectangular wn hn resized ->
  Forall (Forall PIL.byte_rgb) resized ->
  shape mask = [Z.of_nat hn; Z.of_nat wn] ->
  List.length (data mask) = (hn * wn)%nat ->
  Forall (fun v => v = 0) (data mask) ->
  Api.blend_overlay resized mask = Ok (PIL.convert_RGBA resized).
Proof.
  intros Hpos Hrect Hbytes Hshape Hlen Hzero.
  pose proof (chunks_rectangular wn hn (data mask) Hlen) as Hrows.
  rewrite (@blend_overlay_value resized mask wn hn) by
    (first [ assumption
           | eapply Forall_impl; [ | exact Hzero ]; intros v ->; now left ]).
  f_equal. unfold overlay_of, PIL.convert_RGBA.
  apply (zip_map_l
           (fun row mrow => map (fun pm => overlay_pixel (fst pm) (snd pm))
                                (combine row mrow))).
  - destruct Hrect as [-> _]. now destruct Hrows as [-> _].
  - intros row mrow Hin.
    destruct Hrect as [_ Hr]. destruct Hrows as [_ Hm].
    rewrite Forall_forall in Hr, Hm.
    apply (zip_map_l overlay_pixel).
    + rewrite (Hr row (in_combine_l _ _ _ _ Hin)).
      now rewrite (Hm mrow (in_combine_r _ _ _ _ Hin)).
    + intros p m Hpm.
      assert (Hm0 : m = 0).
      { rewrite Forall_forall in Hzero. apply Hzero.
        eapply chunks_In;
          [ exact (in_combine_r _ _ _ _ Hin) | exact (in_combine_r _ _ _ _ Hpm) ]. }
      subst m. now destruct p as [[r g] b].
Qed.

Lemma overlay_of_empty_mask_witness :
  Forall (fun v => v = 0) [0; 0; 0; 0]
  /\ Api.blend_overlay sample_image (mk_nd [2; 2] [0; 0; 0; 0])
     = Ok [[(0, 0, 0, 255); (255, 100, 50, 255)]; [(10, 20, 30, 255); (40, 50, 60, 255)]].
Proof.
  assert (Hzero : Forall (fun v => v = 0) [0; 0; 0; 0]) by (repeat constructor).
  split; [ exact Hzero | ].
  rewrite (@overlay_of_empty_mask sample_image (mk_nd [2; 2] [0; 0; 0; 0]) 2 2);
    try reflexivity; try exact Hzero; try lia.
  - split; [ reflexivity | repeat constructor ].
  - apply sample_image_valid.
Defined.

(** ** The routes on one upload *)

Section OneUpload.
Context {T : Torch} {A : Arith} {Act : Activation A} {D : Device T A}
        {P : PIL.Resample}.
Variable Image_open : string -> exc (PIL.raster PIL.rgb).

(** The resizing inside the preprocessor leaves an image alone that line
    164 or 182 has already resized. *)
Lemma preprocess_resized (image : PIL.raster PIL.rgb) :
  PIL.valid_image image ->
  Api.preprocess (PIL.resize image (IMG_SIZE, IMG_SIZE)) = Api.preprocess image.
Proof.
  intros Hv. unfold Api.preprocess, Transforms.resize. cbn [fst snd].
  rewrite (@resize_same _ (PIL.resize image (IMG_SIZE, IMG_SIZE)) IMG_SIZE IMG_SIZE);
    [ reflexivity | | reflexivity | reflexivity ].
  apply resize_rectangular; [ exact Hv | reflexivity | reflexivity ].
Qed.

(** The three routes written over one call of [predict_mask_from_image]. *)
Lemma routes_from_one_result (file : UploadFile) (model : UNet.t)
    (image : PIL.raster PIL.rgb) :
  Api.is_image file = true ->
  Image_open (contents file) = Ok image ->
  PIL.valid_image image ->
  let resized := PIL.resize image (IMG_SIZE, IMG_SIZE) in
  let result := Api.predict_mask_from_image image model in
  Api.predict_mask_from_image resized model = result
  /\ Api.predict_segmentation Image_open file model
     = (match fst result with
        | Ok mask => JSON (filename file) (shape mask) mask
        | Raise e => prediction_failed e
        end, snd result)
  /\ Api.predict_mask_png Image_open file model
     = (match fst result with
        | Ok mask =>
            match PIL.fromarray_L (Api.to_uint8 mask) with
            | Ok mask_image => PNG_L mask_image
            | Raise e => prediction_failed e
            end
        | Raise e => prediction_failed e
        end, snd result)
  /\ Api.predict_overlay_png Image_open file model
     = (match fst result with
        | Ok mask =>
            match Api.blend_overlay resized mask with
            | Ok combined => PNG_RGBA combined
            | Raise e => prediction_failed e
            end
        | Raise e => prediction_failed e
        end, snd result).
Proof.
  intros Himg Hopen Hv resized result.
  destruct (@is_image_declared file Himg) as (declared & Hd & Hp).
  assert (Hsame : Api.predict_mask_from_image resized model = result).
  { unfold result, resized, Api.predict_mask_from_image.
    now rewrite (preprocess_resized Hv). }
  split; [ exact Hsame | ].
  split; [ | split ].
  - unfold Api.predict_segmentation, Api.predict_segmentation_try, Api.guarded.
    rewrite Hd. cbn [negb]. rewrite Hp. cbn [negb]. unfold bind at 1. unfold call at 1. rewrite Hopen.
    change (input_tensor <- call (Api.preprocess image) ;;
            predicted_mask <- Api.infer input_tensor ;;
            ret (JSON (filename file) (shape predicted_mask) predicted_mask))
      with (predicted_mask <- Api.predict_mask_from_image image ;;
            ret (JSON (filename file) (shape predicted_mask) predicted_mask)).
    unfold bind, ret. fold result.
    now destruct result as [[mask | e] m1].
  - unfold Api.predict_mask_png, Api.predict_mask_png_try, Api.guarded.
    rewrite Hd. cbn [negb]. rewrite Hp. cbn [negb]. unfold bind at 1. unfold call at 1. rewrite Hopen.
    fold resized. unfold bind, call, ret. rewrite Hsame.
    destruct result as [[mask | e] m1]; cbn [fst snd]; [ | reflexivity ].
    now destruct (PIL.fromarray_L (Api.to_uint8 mask)).
  - unfold Api.predict_overlay_png, Api.predict_overlay_png_try, Api.guarded.
    rewrite Hd. cbn [negb]. rewrite Hp. cbn [negb]. unfold bind at 1. unfold call at 1. rewrite Hopen.
    fold resized. unfold bind, call, ret. rewrite Hsame.
    destruct result as [[mask | e] m1]; cbn [fst snd]; [ | reflexivity ].
    now destruct (Api.blend_overlay resized mask).
Qed.

(** X11: the three routes agree on the mask.  For an upload that decodes
    to a valid image, resizing first (lines 164 and 182) changes nothing
    to what [predict_mask_from_image] returns, which is what the JSON route
    computes inline (lines 131 to 138): the JSON route returns that very
    mask, the mask route its image and the overlay route its overlay, and
    they fail together when it fails. *)
Theorem routes_share_the_mask (file : UploadFile) (model : UNet.t)
    (image : PIL.raster PIL.rgb) :
  Api.is_image file = true ->
  Image_open (contents file) = Ok image ->
  PIL.valid_image image ->
  let resized := PIL.resize image (IMG_SIZE, IMG_SIZE) in
  let result := Api.predict_mask_from_image image model in
  Api.predict_mask_from_image resized model = result
  /\ Api.predict_segmentation Image_open file model
     = (match fst result with
        | Ok mask => JSON (filename file) (shape mask) mask
        | Raise e => prediction_failed e
        end, snd result)
  /\ Api.predict_mask_png Image_open file model
     = (match fst result with
        | Ok mask =>
            match PIL.fromarray_L (Api.to_uint8 mask) with
            | Ok mask_image => PNG_L mask_image
            | Raise e => prediction_failed e
            end
        | Raise e => prediction_failed e
        end, snd result)
  /\ Api.predict_overlay_png Image_open file model
     = (match fst result with
        | Ok mask =>
            match Api.blend_overlay resized mask with
            | Ok combined => PNG_RGBA combined
            | Raise e => prediction_failed e
            end
        | Raise e => prediction_failed e
        end, snd result).
Proof. exact (@routes_from_one_result file model image). Qed.

End OneUpload.

Lemma routes_share_the_mask_witness :
  (Api.is_image sample_png = true
   /\ sample_open (contents sample_png) = Ok sample_image
   /\ PIL.valid_image sample_image)
  /\ Api.predict_mask_from_image (T := ShapeTorch) (A := RArith_ops)
       (PIL.resize sample_image (IMG_SIZE, IMG_SIZE)) (served_shapes 8)
     = Api.predict_mask_from_image sample_image (served_shapes 8).
Proof.
  split; [ repeat split; apply sample_image_valid | ].
  exact (proj1 (@routes_share_the_mask ShapeTorch RArith_ops RActivation
                  (ShapeDevice RArith_ops) _ sample_open sample_png (served_shapes 8)
                  sample_image eq_refl eq_refl sample_image_valid)).
Defined.

(** ** When the routes succeed *)

Section Success.
Context {T : Torch} {A : Arith} {Act : Activation A} {D : Device T A}
        {P : PIL.Resample}.
Variable Image_open : string -> exc (PIL.raster PIL.rgb).

(** X13: a logit map of the size of the input is all the routes need.  For
    an upload that decodes to a valid image, if the forward pass on its
    preprocessed tensor returns and what comes back to the host has shape
    (1, 1, 128, 128), then none of the three routes fails: the JSON route
    returns a mask of shape (128, 128) of zeros and ones, the mask route a
    128 x 128 grayscale image and the overlay route a 128 x 128 RGBA
    image, and all three leave the model as the forward pass left it. *)
Theorem routes_succeed_on_a_logit_map (file : UploadFile) (model model' : UNet.t)
    (image : PIL.raster PIL.rgb) (t : nd F) (outputs : tensor) :
  Api.is_image file = true ->
  Image_open (contents file) = Ok image ->
  PIL.valid_image image ->
  Api.preprocess image = Ok t ->
  UNet.forward (to_device (unsqueeze0 t)) model = (Ok outputs, model') ->
  shape (cpu outputs) = [1; 1; 128; 128] ->
  List.length (data (cpu outputs)) = (128 * 128)%nat ->
  exists mask mask_image combined,
    shape mask = [128; 128]
    /\ Forall bit (data mask)
    /\ Api.predict_segmentation Image_open file model
       = (JSON (filename file) [128; 128] mask, model')
    /\ Api.predict_mask_png Image_open file model = (PNG_L mask_image, model')
    /\ rectangular 128 128 mask_image
    /\ Api.predict_overlay_png Image_open file model = (PNG_RGBA combined, model')
    /\ rectangular 128 128 combined.
Proof.
  intros Himg Hopen Hv Ht Hfwd Hshape Hlen.
  set (mask := squeeze (nd_map Api.binarize (nd_map sigmoid (cpu outputs)))).
  assert (Hresult : Api.predict_mask_from_image image model = (Ok mask, model')).
  { unfold Api.predict_mask_from_image, bind, call. rewrite Ht.
    unfold Api.infer, bind, ret. now rewrite Hfwd. }
  assert (Hmshape : shape mask = [128; 128]).
  { unfold mask, squeeze, nd_map. cbn [shape]. now rewrite Hshape. }
  assert (Hmlen : List.length (data mask) = (128 * 128)%nat).
  { unfold mask, squeeze, nd_map. cbn [data]. now rewrite !length_map. }
  assert (Hbits : Forall bit (data mask)).
  { unfold mask, squeeze, nd_map. cbn [data].
    apply Forall_map, Forall_forall. intros p _. apply binarize_bit. }
  set (resized := PIL.resize image (IMG_SIZE, IMG_SIZE)).
  assert (Hrect : rectangular 128 128 resized)
    by (apply (@resize_rectangular _ image 128 128 Hv); lia).
  assert (Hbytes : Forall (Forall PIL.byte_rgb) resized)
    by (apply resize_bytes; apply Hv).
  assert (Himage : PIL.fromarray_L (Api.to_uint8 mask)
                   = Ok (chunks 128 128 (map (fun v => (v * 255) mod 256) (data mask)))).
  { unfold PIL.fromarray_L, Api.to_uint8, nd_map. cbn [shape data]. now rewrite Hmshape. }
  assert (Hblend : Api.blend_overlay resized mask
                   = Ok (overlay_of resized (chunks 128 128 (data mask)))).
  { apply blend_overlay_value; try assumption. lia. }
  destruct (@routes_from_one_result T A Act D P Image_open file model image Himg Hopen Hv)
    as (_ & Hjson & Hpng & Hover).
  fold resized in Hover. rewrite Hresult in Hjson, Hpng, Hover.
  cbn [fst snd] in Hjson, Hpng, Hover.
  rewrite Himage in Hpng. rewrite Hblend in Hover. rewrite Hmshape in Hjson.
  exists mask, (chunks 128 128 (map (fun v => (v * 255) mod 256) (data mask))),
         (overlay_of resized (chunks 128 128 (data mask))).
  repeat (split; [ assumption | ]).
  split; [ apply chunks_rectangular; now rewrite length_map | ].
  split; [ assumption | ].
  unfold overlay_of.
  apply (combine_rectangular
           (fun l => map (fun pm : PIL.rgb * Z => overlay_pixel (fst pm) (snd pm)) l));
    [ intros l; apply length_map | assumption | now apply chunks_rectangular ].
Qed.

End Success.

Lemma routes_succeed_on_a_logit_map_witness :
  (Api.is_image sample_png = true
   /\ sample_open (contents sample_png) = Ok sample_image
   /\ PIL.valid_image sample_image)
  /\ exists mask_image,
       Api.predict_mask_png (A := RArith_ops) sample_open sample_png (served_shapes 8)
       = (PNG_L mask_image, served_shapes 8)
       /\ rectangular 128 128 mask_image.
Proof.
  split; [ repeat split; apply sample_image_valid | ].
  assert (Ht := preprocess_value (A := RArith_ops) sample_image_valid).
  cbv zeta in Ht.
  destruct (@routes_succeed_on_a_logit_map ShapeTorch RArith_ops RActivation
              (ShapeDevice RArith_ops) _ sample_open sample_png (served_shapes 8)
              (served_shapes 8) sample_image _ [1; 1; 128; 128]
              eq_refl eq_refl sample_image_valid Ht forward_128 eq_refl)
    as (mask & mask_image & combined & _ & _ & _ & Hpng & Hrect & _).
  { cbn [cpu ShapeDevice data]. now rewrite repeat_length. }
  exists mask_image. split; assumption.
Defined.

(** ** The content type gate *)

Lemma prefix_app (s1 s2 : string) :
  prefix s1 s2 = true <-> exists rest, s2 = (s1 ++ rest)%string.
Proof.
  revert s2. induction s1 as [ | a s1 IH]; intros s2.
  - split; [ intros _; now exists s2 | intros _; now destruct s2 ].
  - destruct s2 as [ | b s2]; cbn [prefix String.append].
    + split; [ discriminate | intros [rest E]; discriminate ].
    + destruct (Ascii.ascii_dec a b) as [<- | Hab].
      * rewrite IH. split; intros [rest E]; exists rest.
        -- now rewrite E.
        -- now injection E.
      * split; [ discriminate | ].
        intros [rest E]. injection E as E1 _. now elim Hab.
Qed.

Section Gate.
Context {T : Torch} {A : Arith} {Act : Activation A} {D : Device T A}
        {P : PIL.Resample}.
Variable Image_open : string -> exc (PIL.raster PIL.rgb).

(** X14: the test of the content type.  A prediction route answers 400
    exactly for the uploads that declare a content type which does not
    begin with the characters image/ (in lower case), and it lets the
    [AttributeError] of the test escape exactly for the uploads that declare
    none; the bytes of the upload, the decoder and the model play no part
    in either, and every other refusal of a route is a 500 raised in its
    [try]. *)
Theorem rejected_iff_not_image_type
    (endpoint : UploadFile -> UNet.t -> response * UNet.t)
    (body : UploadFile -> M UNet.t response) (file : UploadFile) (model : UNet.t) :
  In (endpoint, body) (Api.endpoints Image_open) ->
  (fst (endpoint file model) = HTTPException 400 "Invalid file type. Please upload an image."
   <-> exists declared,
         content_type file = Some declared
         /\ ~ exists rest, declared = ("image/" ++ rest)%string)
  /\ ((exists e, fst (endpoint file model) = Unhandled e)
      <-> content_type file = None)
  /\ (content_type file = None ->
      endpoint file model
      = (Unhandled "AttributeError: 'NoneType' object has no attribute 'startswith'",
         model))
  /\ (forall code detail,
        fst (endpoint file model) = HTTPException code detail ->
        code <> 500 ->
        fst (endpoint file model)
        = HTTPException 400 "Invalid file type. Please upload an image.").
Proof.
  intros Hin. rewrite (endpoint_unfold file model Hin).
  assert (Hbody : forall r,
             fst (Api.guarded (body file) model) = r ->
             (exists e, r = HTTPException 500 ("Prediction failed: " ++ e))
             \/ (exists name sh mask, r = JSON name sh mask)
             \/ (exists im, r = PNG_L im) \/ (exists im, r = PNG_RGBA im)).
  { intros r <-. unfold Api.guarded.
    destruct (body file model) as [[r | e] m1] eqn:Eb; cbn [fst];
      [ | left; now exists e ].
    right. cbn in Hin.
    destruct Hin as [H | [H | [H | []]]]; injection H as <- <-;
      unfold Api.predict_segmentation_try, Api.predict_mask_png_try,
        Api.predict_overlay_png_try, bind, call, ret in Eb;
      repeat match type of Eb with
             | context [match ?x with _ => _ end] => destruct x; try discriminate
             end;
      injection Eb as <- _; eauto 6. }
  destruct (content_type file) as [declared | ].
  - pose proof (prefix_app "image/" declared) as Hp.
    destruct (prefix "image/" declared) eqn:E; cbn [negb fst].
    + assert (Hno : forall r, fst (Api.guarded (body file) model) = r ->
                      (forall code detail, r = HTTPException code detail -> code = 500)
                      /\ (forall e, r <> Unhandled e)).
      { intros r Hr. destruct (Hbody r Hr) as [[e ->] | [(? & ? & ? & ->) | [[? ->] | [? ->]]]];
          split; intros; try discriminate.
        match goal with H : HTTPException _ _ = HTTPException _ _ |- _ =>
          now injection H end. }
      destruct (Hno _ eq_refl) as [H500 Hun].
      split; [ | split; [ | split ] ].
      * split.
        -- intros H. apply H500 in H. discriminate.
        -- intros (d & Hd & Hn). injection Hd as <-. elim Hn. now apply Hp.
      * split; [ intros [e He]; now elim (Hun e) | discriminate ].
      * discriminate.
      * intros code detail H Hc. now apply H500 in H.
    + split; [ | split; [ | split ] ].
      * split; [ | reflexivity ].
        intros _. exists declared. split; [ reflexivity | ].
        intros Hrest. apply Hp in Hrest. discriminate.
      * split; [ intros [e He]; discriminate | discriminate ].
      * discriminate.
      * reflexivity.
  - cbn [fst]. split; [ | split; [ | split ] ].
    + split; [ discriminate | intros (d & Hd & _); discriminate ].
    + split; [ reflexivity | intros _; eexists; reflexivity ].
    + reflexivity.
    + discriminate.
Qed.

End Gate.

Lemma rejected_iff_not_image_type_witness :
  In (Api.predict_overlay_png (A := RArith_ops) sample_open,
      Api.predict_overlay_png_try (A := RArith_ops) sample_open)
     (Api.endpoints sample_open)
  /\ fst (Api.predict_overlay_png (A := RArith_ops) sample_open shouting_png
            (served_shapes 8))
     = HTTPException 400 "Invalid file type. Please upload an image."
  /\ Api.predict_overlay_png (A := RArith_ops) sample_open untyped_png (served_shapes 8)
     = (Unhandled "AttributeError: 'NoneType' object has no attribute 'startswith'",
        served_shapes 8).
Proof.
  assert (Hin : In (Api.predict_overlay_png (A := RArith_ops) sample_open,
                    Api.predict_overlay_png_try (A := RArith_ops) sample_open)
                   (Api.endpoints sample_open)) by (right; right; left; reflexivity).
  split; [ exact Hin | ]. split.
  - apply (proj1 (@rejected_iff_not_image_type ShapeTorch RArith_ops RActivation
                    (ShapeDevice RArith_ops) _ sample_open _ _
                    shouting_png (served_shapes 8) Hin)).
    exists "IMAGE/PNG"%string. split; [ reflexivity | ].
    intros [rest E]. discriminate E.
  - apply (proj1 (proj2 (proj2 (@rejected_iff_not_image_type ShapeTorch RArith_ops
                    RActivation (ShapeDevice RArith_ops) _ sample_open _ _
                    untyped_png (served_shapes 8) Hin)))).
    reflexivity.
Defined.

(** ** Training mode *)

Section Training.
Context {T : Torch}.

Lemma bind_frame {S A B P} (p : S -> P) (m : M S A) (k : A -> M S B) (s : S) :
  (forall a s', p (snd (k a s')) = p s') -> p (snd (bind m k s)) = p (snd (m s)).
Proof.
  intros Hk. unfold bind. destruct (m s) as [[a | e] s']; cbn [snd]; auto.
Qed.

Lemma sub_frame {S U A P} (p : S -> P) (get : S -> U) (set : S -> U -> S)
      (m : M U A) (s : S) :
  (forall s u, p (set s u) = p s) -> p (snd (sub get set m s)) = p s.
Proof.
  intros Hs. unfold sub. destruct (m (get s)) as [r u]. cbn [snd]. apply Hs.
Qed.

Lemma bind_sub_frame {S U A B P} (p : S -> P) (get : S -> U) (set : S -> U -> S)
      (m : M U A) (k : A -> M S B) (s : S) :
  (forall s u, p (set s u) = p s) ->
  (forall a s', p (snd (k a s')) = p s') ->
  p (snd (bind (sub get set m) k s)) = p s.
Proof.
  intros Hs Hk. rewrite bind_frame by exact Hk. now apply sub_frame.
Qed.

(** The layers after the first batch normalisation of a DoubleConv leave it
    alone. *)
Lemma DoubleConv_forward_bn_1 (x y : tensor) (self : DoubleConv.t) :
  BatchNorm2d.training (DoubleConv.bn_1 self) = true ->
  fst (DoubleConv.forward x self) = Ok y ->
  BatchNorm2d.num_batches_tracked (DoubleConv.bn_1 (snd (DoubleConv.forward x self)))
  = BatchNorm2d.num_batches_tracked (DoubleConv.bn_1 self) + 1.
Proof.
  intros Ht Hok. unfold DoubleConv.forward in *.
  unfold bind at 1 in Hok. unfold sub at 1 in Hok.
  unfold bind at 1. unfold sub at 1.
  unfold Conv2d.forward in *.
  destruct (conv2d x (Conv2d.weight (DoubleConv.conv_0 self))
              (Conv2d.bias (DoubleConv.conv_0 self))
              (Conv2d.padding (DoubleConv.conv_0 self))) as [c | e];
    [ | discriminate ].
  rewrite (@bind_frame _ _ _ _ DoubleConv.bn_1).
  - unfold sub, BatchNorm2d.forward. cbn [DoubleConv.set_conv_0 DoubleConv.bn_1].
    rewrite Ht.
    destruct (batch_norm_train c _ _ _ _ _ _) as [[r [rm rv]] | e]; reflexivity.
  - intros a s'. rewrite (@bind_frame _ _ _ _ DoubleConv.bn_1); [ reflexivity | ].
    intros a0 s0. apply (@bind_sub_frame _ _ _ _ _ DoubleConv.bn_1); [ reflexivity | ].
    intros a1 s1. apply (@bind_sub_frame _ _ _ _ _ DoubleConv.bn_1); [ reflexivity | ].
    reflexivity.
Qed.

(** The blocks after the stem leave the stem alone. *)
Lemma UNet_forward_inc (x : tensor) (self : UNet.t) :
  UNet.inc (snd (UNet.forward x self)) = snd (DoubleConv.forward x (UNet.inc self)).
Proof.
  unfold UNet.forward. rewrite (@bind_frame _ _ _ _ UNet.inc).
  - unfold sub. now destruct (DoubleConv.forward x (UNet.inc self)).
  - intros x1 s1.
    repeat (apply (@bind_sub_frame _ _ _ _ _ UNet.inc); [ reflexivity | intros ? ? ]).
    now apply (@sub_frame _ _ _ _ UNet.inc).
Qed.

(** X15: the call of [model.eval()] at start-up is what keeps the model
    fixed.  A forward pass that returns, on a model whose first batch
    normalisation is in training mode, has counted the batch in
    [num_batches_tracked]: the model after the call is not the model before
    it. *)
Theorem training_forward_writes (x y : tensor) (model : UNet.t) :
  BatchNorm2d.training (DoubleConv.bn_1 (UNet.inc model)) = true ->
  fst (UNet.forward x model) = Ok y ->
  BatchNorm2d.num_batches_tracked
    (DoubleConv.bn_1 (UNet.inc (snd (UNet.forward x model))))
  = BatchNorm2d.num_batches_tracked (DoubleConv.bn_1 (UNet.inc model)) + 1
  /\ snd (UNet.forward x model) <> model.
Proof.
  intros Ht Hok.
  assert (Hn : BatchNorm2d.num_batches_tracked
                 (DoubleConv.bn_1 (UNet.inc (snd (UNet.forward x model))))
               = BatchNorm2d.num_batches_tracked (DoubleConv.bn_1 (UNet.inc model)) + 1).
  { rewrite UNet_forward_inc.
    unfold UNet.forward, bind at 1, sub at 1 in Hok.
    destruct (DoubleConv.forward x (UNet.inc model)) as [[x1 | e] inc'] eqn:E;
      [ | discriminate ].
    change inc' with (snd (Ok x1, inc')). rewrite <- E.
    apply DoubleConv_forward_bn_1 with (y := x1); [ exact Ht | now rewrite E ]. }
  split; [ exact Hn | ].
  intros Heq. rewrite Heq in Hn. lia.
Qed.

End Training.

Lemma training_forward_writes_witness :
  BatchNorm2d.num_batches_tracked
    (DoubleConv.bn_1
       (UNet.inc (snd (UNet.forward (T := ShapeTorch) [2; 3; 16; 16] (UNet.init 3 1 8)))))
  = 0 + 1
  /\ snd (UNet.forward (T := ShapeTorch) [2; 3; 16; 16] (UNet.init 3 1 8))
     <> UNet.init 3 1 8.
Proof.
  apply (@training_forward_writes ShapeTorch [2; 3; 16; 16] [2; 1; 16; 16]
           (UNet.init 3 1 8)).
  - reflexivity.
  - vm_compute. reflexivity.
Defined.
